(** * State tracking for IRC nicks and channels

    A shallow embedding of the [irc] package's state-maintenance code:
    the [Channel], [Nick], [ChanMode], [NickMode] and [ChanPrivs]
    structs, the [Conn] methods that create and look up nicks and
    channels, the join/leave/rename/delete methods with their mutual
    cascade, and [ChanMode.String].

    Go pointers are indices into per-type arenas that only ever grow, so
    pointer equality is index equality and an object that is no longer
    referenced simply stays in its arena.  Go maps are [gmap]s. *)

From Stdlib Require Import DecimalString Ascii.
From stdpp Require Import gmap strings list fin_maps.

Local Open Scope string_scope.
Local Open Scope nat_scope.

(** ** Data model *)

(** A Go pointer: the index of the object in the arena of its type. *)
Abbreviation ptr := nat (only parsing).

(** [type ChanMode struct]; [Limit] is a Go [int], which the code only
    tests against zero and prints. *)
Record ChanMode := {
  Private : bool; Secret : bool; ProtectedTopic : bool;
  NoExternalMsg : bool; Moderated : bool;
  InviteOnly : bool; OperOnly : bool; SSLOnly : bool;
  Key : string;
  Limit : Z
}.

(** [type NickMode struct] *)
Record NickMode := {
  Invisible : bool; Oper : bool; WallOps : bool; HiddenHost : bool; SSL : bool
}.

(** [type ChanPrivs struct] *)
Record ChanPrivs := {
  Owner : bool; Admin : bool; Op : bool; HalfOp : bool; Voice : bool
}.

(** [new(ChanMode)], [new(NickMode)], [new(ChanPrivs)]: zero values. *)
Definition new_ChanMode : ChanMode :=
  {| Private := false; Secret := false; ProtectedTopic := false;
     NoExternalMsg := false; Moderated := false; InviteOnly := false;
     OperOnly := false; SSLOnly := false; Key := ""; Limit := 0 |}.

Definition new_NickMode : NickMode :=
  {| Invisible := false; Oper := false; WallOps := false;
     HiddenHost := false; SSL := false |}.

Definition new_ChanPrivs : ChanPrivs :=
  {| Owner := false; Admin := false; Op := false; HalfOp := false;
     Voice := false |}.

(** [type Channel struct].  [Nicks] is [map[*Nick]*ChanPrivs].  [Modes]
    points to a record allocated by [initialise] that nothing else in
    the package aliases, so it is stored in place.  The [conn] field is
    the one connection every object of a store belongs to. *)
Record Channel := {
  ch_Name : string;
  ch_Topic : string;
  ch_Modes : ChanMode;
  Nicks : gmap ptr ptr
}.

(** [type Nick struct].  [Channels] is [map[*Channel]*ChanPrivs]. *)
Record Nick := {
  n_Nick : string;
  n_Ident : string;
  n_Host : string;
  n_Name : string;
  n_Modes : NickMode;
  Channels : gmap ptr ptr
}.

(** ** Mode strings *)

(** [var ChanModeToString = map[string]string{...}] *)
Definition ChanModeToString : gmap string string :=
  list_to_map
    [("Private", "p"); ("Secret", "s"); ("ProtectedTopic", "t");
     ("NoExternalMsg", "n"); ("Moderated", "m"); ("InviteOnly", "i");
     ("OperOnly", "O"); ("SSLOnly", "z"); ("Key", "k"); ("Limit", "l")].

(** Indexing a Go [map[string]string]: the empty string when the key is
    missing. *)
Definition index_str (m : gmap string string) (k : string) : string :=
  default "" (m !! k).

(** What [reflect] hands out for a struct field. *)
Inductive Value :=
  | BoolValue (b : bool)
  | StringValue (s : string)
  | IntValue (i : Z).

(** The fields of a [ChanMode] by reflection: name and value, in the
    order of the struct declaration. *)
Definition ChanMode_fields (cm : ChanMode) : list (string * Value) :=
  [("Private", BoolValue (Private cm)); ("Secret", BoolValue (Secret cm));
   ("ProtectedTopic", BoolValue (ProtectedTopic cm));
   ("NoExternalMsg", BoolValue (NoExternalMsg cm));
   ("Moderated", BoolValue (Moderated cm));
   ("InviteOnly", BoolValue (InviteOnly cm));
   ("OperOnly", BoolValue (OperOnly cm)); ("SSLOnly", BoolValue (SSLOnly cm));
   ("Key", StringValue (Key cm)); ("Limit", IntValue (Limit cm))].

(** [fmt.Sprintf("%d", i)] *)
Definition Sprintf_d (i : Z) : string := NilZero.string_of_int (Z.to_int i).

(** The loop variables of [ChanMode.String]: [str] and the two slots of
    [a := make([]string, 2)]. *)
Record StringAcc := { str : string; a0 : string; a1 : string }.

(** One iteration of [for i := 0; i < v.NumField(); i++]. *)
Definition String_field (cm : ChanMode) (acc : StringAcc)
    (f : string * Value) : StringAcc :=
  match f.2 with
  | BoolValue b =>
      if b then
        {| str := str acc +:+ index_str ChanModeToString f.1;
           a0 := a0 acc; a1 := a1 acc |}
      else acc
  | StringValue s =>
      if bool_decide (s ≠ "") then
        {| str := str acc +:+ index_str ChanModeToString f.1;
           a0 := s; a1 := a1 acc |}
      else acc
  | IntValue i =>
      if bool_decide (i ≠ 0%Z) then
        {| str := str acc +:+ index_str ChanModeToString f.1;
           a0 := a0 acc; a1 := Sprintf_d (Limit cm) |}
      else acc
  end.

(** [func (cm *ChanMode) String() string] *)
Definition ChanMode_String (cm : ChanMode) : string :=
  let acc :=
    foldl (String_field cm) {| str := "+"; a0 := ""; a1 := "" |}
      (ChanMode_fields cm) in
  let str :=
    foldl (λ str s, if bool_decide (s ≠ "") then str +:+ " " +:+ s else str)
      (str acc) [a0 acc; a1 acc] in
  if bool_decide (str = "+") then "No modes set" else str.

(** The encoding as the specification words it: the letters of the set
    flags in table order, then the key, then the limit. *)
Definition flag (b : bool) (c : string) : string := if b then c else "".

Definition mode_letters (cm : ChanMode) : string :=
  flag (Private cm) "p" +:+ flag (Secret cm) "s" +:+
  flag (ProtectedTopic cm) "t" +:+ flag (NoExternalMsg cm) "n" +:+
  flag (Moderated cm) "m" +:+ flag (InviteOnly cm) "i" +:+
  flag (OperOnly cm) "O" +:+ flag (SSLOnly cm) "z" +:+
  flag (bool_decide (Key cm ≠ "")) "k" +:+
  flag (bool_decide (Limit cm ≠ 0%Z)) "l".

Definition mode_args (cm : ChanMode) : string :=
  (if bool_decide (Key cm ≠ "") then " " +:+ Key cm else "") +:+
  (if bool_decide (Limit cm ≠ 0%Z) then " " +:+ Sprintf_d (Limit cm) else "").

Definition no_modes (cm : ChanMode) : Prop :=
  Private cm = false ∧ Secret cm = false ∧ ProtectedTopic cm = false ∧
  NoExternalMsg cm = false ∧ Moderated cm = false ∧ InviteOnly cm = false ∧
  OperOnly cm = false ∧ SSLOnly cm = false ∧ Key cm = "" ∧ Limit cm = 0%Z.

Global Instance no_modes_dec cm : Decision (no_modes cm).
Proof. unfold no_modes. apply _. Defined.

Definition toModeString (cm : ChanMode) : string :=
  if bool_decide (no_modes cm) then "No modes set"
  else "+" +:+ mode_letters cm +:+ mode_args cm.

(** ** The store *)

(** Modelled from the spec: the [Conn] struct is declared in a file of
    the package that is not part of this development.  Of its fields the
    state-tracking code uses the nickname index [nicks], the channel
    index [chans], the local identity [Me] (nil until the connection is
    set up) and the warning sink behind [conn.error], kept here as the
    list [Err] of the messages sent so far.  The three arenas hold the
    objects that Go pointers refer to. *)
Record State := {
  nick_heap : list Nick;
  chan_heap : list Channel;
  priv_heap : list ChanPrivs;
  nicks : gmap string ptr;
  chans : gmap string ptr;
  Me : option ptr;
  Err : list string
}.

(** Outcome of a call: a new state, a nil-pointer dereference, or the
    evaluator running out of fuel. *)
Inductive result (A : Type) :=
  | Ok (a : A)
  | Panic
  | Timeout.
Arguments Ok {A} a.
Arguments Panic {A}.
Arguments Timeout {A}.

Definition bind {A B} (r : result A) (k : A → result B) : result B :=
  match r with
  | Ok a => k a
  | Panic => Panic
  | Timeout => Timeout
  end.

Notation "x ← r ; k" := (bind r (λ x, k))
  (at level 20, r at level 100, k at level 200, only parsing).

(** *** Field updates *)

Definition with_Nicks (m : gmap ptr ptr) (c : Channel) : Channel :=
  {| ch_Name := ch_Name c; ch_Topic := ch_Topic c; ch_Modes := ch_Modes c;
     Nicks := m |}.

Definition with_Channels (m : gmap ptr ptr) (n : Nick) : Nick :=
  {| n_Nick := n_Nick n; n_Ident := n_Ident n; n_Host := n_Host n;
     n_Name := n_Name n; n_Modes := n_Modes n; Channels := m |}.

Definition with_Nick (neu : string) (n : Nick) : Nick :=
  {| n_Nick := neu; n_Ident := n_Ident n; n_Host := n_Host n;
     n_Name := n_Name n; n_Modes := n_Modes n; Channels := Channels n |}.

Definition set_nick_heap (h : list Nick) (s : State) : State :=
  {| nick_heap := h; chan_heap := chan_heap s; priv_heap := priv_heap s;
     nicks := nicks s; chans := chans s; Me := Me s; Err := Err s |}.

Definition set_chan_heap (h : list Channel) (s : State) : State :=
  {| nick_heap := nick_heap s; chan_heap := h; priv_heap := priv_heap s;
     nicks := nicks s; chans := chans s; Me := Me s; Err := Err s |}.

Definition set_priv_heap (h : list ChanPrivs) (s : State) : State :=
  {| nick_heap := nick_heap s; chan_heap := chan_heap s; priv_heap := h;
     nicks := nicks s; chans := chans s; Me := Me s; Err := Err s |}.

Definition set_nicks (m : gmap string ptr) (s : State) : State :=
  {| nick_heap := nick_heap s; chan_heap := chan_heap s;
     priv_heap := priv_heap s; nicks := m; chans := chans s; Me := Me s;
     Err := Err s |}.

Definition set_chans (m : gmap string ptr) (s : State) : State :=
  {| nick_heap := nick_heap s; chan_heap := chan_heap s;
     priv_heap := priv_heap s; nicks := nicks s; chans := m; Me := Me s;
     Err := Err s |}.

Definition set_Me (me : option ptr) (s : State) : State :=
  {| nick_heap := nick_heap s; chan_heap := chan_heap s;
     priv_heap := priv_heap s; nicks := nicks s; chans := chans s; Me := me;
     Err := Err s |}.

(** [ch.Nicks = m] and [n.Channels = m] through the pointer. *)
Definition set_Nicks (ch : ptr) (m : gmap ptr ptr) (s : State) : State :=
  set_chan_heap (alter (with_Nicks m) ch (chan_heap s)) s.

Definition set_Channels (n : ptr) (m : gmap ptr ptr) (s : State) : State :=
  set_nick_heap (alter (with_Channels m) n (nick_heap s)) s.

(** Modelled from the spec: [conn.error] is defined with [Conn]; it
    formats a message and hands it to the warning sink, and returns
    nothing. *)
Definition error (msg : string) (s : State) : State :=
  {| nick_heap := nick_heap s; chan_heap := chan_heap s;
     priv_heap := priv_heap s; nicks := nicks s; chans := chans s; Me := Me s;
     Err := Err s ++ [msg] |}.

(** Reading through a pointer, for use in statements: the maps and the
    names of an object, empty for a pointer that refers to nothing. *)
Definition NicksOf (s : State) (ch : ptr) : gmap ptr ptr :=
  from_option Nicks ∅ (chan_heap s !! ch).

Definition ChannelsOf (s : State) (n : ptr) : gmap ptr ptr :=
  from_option Channels ∅ (nick_heap s !! n).

Definition NickName (s : State) (n : ptr) : option string :=
  n_Nick <$> nick_heap s !! n.

Definition ChanName (s : State) (ch : ptr) : option string :=
  ch_Name <$> chan_heap s !! ch.

(** *** Conn methods to create/look up nicks/channels *)

(** [func (conn *Conn) NewNick(nick, ident, name, host string) *Nick] *)
Definition NewNick (nick ident name host : string) (s : State) : State * ptr :=
  let n := length (nick_heap s) in
  let obj := {| n_Nick := nick; n_Ident := ident; n_Host := host;
                n_Name := name; n_Modes := new_NickMode; Channels := ∅ |} in
  (set_nicks (<[nick := n]> (nicks s)) (set_nick_heap (nick_heap s ++ [obj]) s),
   n).

(** [func (conn *Conn) GetNick(n string) *Nick] *)
Definition GetNick (n : string) (s : State) : option ptr := nicks s !! n.

(** [func (conn *Conn) NewChannel(c string) *Channel] *)
Definition NewChannel (c : string) (s : State) : State * ptr :=
  let ch := length (chan_heap s) in
  let obj := {| ch_Name := c; ch_Topic := ""; ch_Modes := new_ChanMode;
                Nicks := ∅ |} in
  (set_chans (<[c := ch]> (chans s)) (set_chan_heap (chan_heap s ++ [obj]) s),
   ch).

(** [func (conn *Conn) GetChannel(c string) *Channel] *)
Definition GetChannel (c : string) (s : State) : option ptr := chans s !! c.

(** The store of a connection before anything is tracked. *)
Definition empty_store : State :=
  {| nick_heap := []; chan_heap := []; priv_heap := []; nicks := ∅;
     chans := ∅; Me := None; Err := [] |}.

(** Modelled from the spec: the constructor of [Conn] is defined with
    the struct; it creates the local identity with [NewNick] and keeps
    it in [Me]. *)
Definition New (nick user name : string) : State :=
  let '(s, me) := NewNick nick user name "unknown" empty_store in
  set_Me (Some me) s.

(** *** Joining *)

Definition AddNick_warning (nick chan : string) : string :=
  "irc.Channel.AddNick() warning: trying to add already-present nick "
  +:+ nick +:+ " to channel " +:+ chan.

Definition AddChannel_warning (chan nick : string) : string :=
  "irc.Nick.AddChannel() warning: trying to add already-present channel "
  +:+ chan +:+ " to nick " +:+ nick.

(** [ch.Nicks[n] = new(ChanPrivs); n.Channels[ch] = ch.Nicks[n]], the
    two statements both join methods share. *)
Definition associate (ch n : ptr) (s : State) : result State :=
  match chan_heap s !! ch with
  | None => Panic
  | Some c =>
      let p := length (priv_heap s) in
      let s1 := set_Nicks ch (<[n := p]> (Nicks c))
                  (set_priv_heap (priv_heap s ++ [new_ChanPrivs]) s) in
      match nick_heap s1 !! n, NicksOf s1 ch !! n with
      | Some nk, Some q => Ok (set_Channels n (<[ch := q]> (Channels nk)) s1)
      | _, _ => Panic
      end
  end.

(** [func (ch *Channel) AddNick(n *Nick)] *)
Definition Channel_AddNick (ch n : ptr) (s : State) : result State :=
  match chan_heap s !! ch with
  | None => Panic
  | Some c =>
      if bool_decide (is_Some (Nicks c !! n)) then
        match nick_heap s !! n with
        | None => Panic
        | Some nk => Ok (error (AddNick_warning (n_Nick nk) (ch_Name c)) s)
        end
      else associate ch n s
  end.

(** [func (n *Nick) AddChannel(ch *Channel)] *)
Definition Nick_AddChannel (n ch : ptr) (s : State) : result State :=
  match nick_heap s !! n with
  | None => Panic
  | Some nk =>
      if bool_decide (is_Some (Channels nk !! ch)) then
        match chan_heap s !! ch with
        | None => Panic
        | Some c => Ok (error (AddChannel_warning (ch_Name c) (n_Nick nk)) s)
        end
      else associate ch n s
  end.

(** [func (n *Nick) ReNick(neu string)] *)
Definition Nick_ReNick (n : ptr) (neu : string) (s : State) : result State :=
  match nick_heap s !! n with
  | None => Panic
  | Some nk =>
      let s1 := set_nicks (delete (n_Nick nk) (nicks s)) s in
      let s2 := set_nick_heap (alter (with_Nick neu) n (nick_heap s1)) s1 in
      match nick_heap s2 !! n with
      | None => Panic
      | Some nk2 => Ok (set_nicks (<[n_Nick nk2 := n]> (nicks s2)) s2)
      end
  end.

(** *** Leaving and deleting: the cascade *)

(** The four methods that call each other. *)
Inductive Call :=
  | DelNick (ch n : ptr)
  | DelChannel (n ch : ptr)
  | ChanDelete (ch : ptr)
  | NickDelete (n : ptr).

(** [for k := range m { body }] over a map that the body may shrink.
    [keys] are the keys of the map when the loop starts, in the order
    the runtime happens to visit them; an entry removed before it is
    reached is not produced, which [cur] checks against the map as it is
    when the key's turn comes. *)
Fixpoint range (cur : State → gmap ptr ptr) (body : ptr → State → result State)
    (keys : list ptr) (s : State) : result State :=
  match keys with
  | [] => Ok s
  | k :: keys =>
      if bool_decide (is_Some (cur s !! k)) then
        s' ← body k s; range cur body keys s'
      else range cur body keys s
  end.

Section Cascade.

(** The order in which [range] visits the keys of a map is not fixed by
    the language; it is a parameter of the model. *)
Variable order : gmap ptr ptr → list ptr.

(** [DelNick ch n] is [func (ch *Channel) DelNick(n *Nick)],
    [DelChannel n ch] is [func (n *Nick) DelChannel(ch *Channel)],
    [ChanDelete ch] is [func (ch *Channel) Delete()] and
    [NickDelete n] is [func (n *Nick) Delete()]. *)
Fixpoint exec (fuel : nat) (call : Call) (s : State) : result State :=
  match fuel with
  | 0 => Timeout
  | S fuel =>
      match call with
      | DelNick ch n =>
          match chan_heap s !! ch with
          | None => Panic
          | Some c =>
              if bool_decide (is_Some (Nicks c !! n)) then
                match nick_heap s !! n with
                | None => Panic
                | Some _ =>
                    if bool_decide (Me s = Some n) then
                      exec fuel (ChanDelete ch) s
                    else
                      exec fuel (DelChannel n ch)
                        (set_Nicks ch (delete n (Nicks c)) s)
                end
              else Ok s
          end
      | DelChannel n ch =>
          match nick_heap s !! n with
          | None => Panic
          | Some nk =>
              if bool_decide (is_Some (Channels nk !! ch)) then
                s1 ← exec fuel (DelNick ch n)
                       (set_Channels n (delete ch (Channels nk)) s);
                if bool_decide (size (ChannelsOf s1 n) = 0) then
                  exec fuel (NickDelete n) s1
                else Ok s1
              else Ok s
          end
      | ChanDelete ch =>
          match chan_heap s !! ch with
          | None => Panic
          | Some c =>
              s1 ← range (λ s, NicksOf s ch)
                     (λ n, exec fuel (DelChannel n ch)) (order (Nicks c)) s;
              match ChanName s1 ch with
              | None => Panic
              | Some name => Ok (set_chans (delete name (chans s1)) s1)
              end
          end
      | NickDelete n =>
          match nick_heap s !! n with
          | None => Panic
          | Some nk =>
              if bool_decide (Me s = Some n) then Ok s
              else
                s1 ← range (λ s, ChannelsOf s n)
                       (λ ch, exec fuel (DelNick ch n)) (order (Channels nk)) s;
                match NickName s1 n with
                | None => Panic
                | Some name => Ok (set_nicks (delete name (nicks s1)) s1)
                end
          end
      end
  end.

(** The number of membership entries in all maps of the store: every
    turn of the cascade either removes one or moves on to a method that
    does. *)
Definition entries (s : State) : nat :=
  sum_list_with (λ n, size (Channels n)) (nick_heap s) +
  sum_list_with (λ c, size (Nicks c)) (chan_heap s).

(** Fuel that suffices for any call in state [s]. *)
Definition fuel_for (s : State) : nat := 4 * entries s + 4.

Definition Channel_DelNick (ch n : ptr) (s : State) : result State :=
  exec (fuel_for s) (DelNick ch n) s.

Definition Nick_DelChannel (n ch : ptr) (s : State) : result State :=
  exec (fuel_for s) (DelChannel n ch) s.

Definition Channel_Delete (ch : ptr) (s : State) : result State :=
  exec (fuel_for s) (ChanDelete ch) s.

Definition Nick_Delete (n : ptr) (s : State) : result State :=
  exec (fuel_for s) (NickDelete n) s.

(** *** Sequences of operations *)

Inductive Operation :=
  | OpNewNick (nick ident name host : string)
  | OpNewChannel (c : string)
  | OpAddNick (ch n : ptr)
  | OpAddChannel (n ch : ptr)
  | OpDelNick (ch n : ptr)
  | OpDelChannel (n ch : ptr)
  | OpReNick (n : ptr) (neu : string)
  | OpChanDelete (ch : ptr)
  | OpNickDelete (n : ptr).

Definition step (op : Operation) (s : State) : result State :=
  match op with
  | OpNewNick nick ident name host => Ok (NewNick nick ident name host s).1
  | OpNewChannel c => Ok (NewChannel c s).1
  | OpAddNick ch n => Channel_AddNick ch n s
  | OpAddChannel n ch => Nick_AddChannel n ch s
  | OpDelNick ch n => Channel_DelNick ch n s
  | OpDelChannel n ch => Nick_DelChannel n ch s
  | OpReNick n neu => Nick_ReNick n neu s
  | OpChanDelete ch => Channel_Delete ch s
  | OpNickDelete n => Nick_Delete n s
  end.

Fixpoint run (ops : list Operation) (s : State) : result State :=
  match ops with
  | [] => Ok s
  | op :: ops => s' ← step op s; run ops s'
  end.

End Cascade.

(** The keys of a map in the order [map_to_list] lists them: one of the
    orders the runtime may choose. *)
Definition keys (m : gmap ptr ptr) : list ptr := (map_to_list m).*1.

(** ** What the cascade may change *)

(** [cascade s s'] relates a state to any state a leave or delete call
    can take it to.  The arenas keep their size, names stay, maps and
    indices only lose entries, and the entries that go are tied
    together: a member entry that goes takes the nick's channel entry
    with it; a channel entry that goes takes the member entry with it,
    unless the nick is the local identity; a nick other than the local
    identity that loses its last channel leaves the nickname index; and
    only names of such nicks leave the nickname index. *)
Record cascade (s s' : State) : Prop := {
  c_nick_len : length (nick_heap s') = length (nick_heap s);
  c_chan_len : length (chan_heap s') = length (chan_heap s);
  c_priv : priv_heap s' = priv_heap s;
  c_Me : Me s' = Me s;
  c_Err : Err s' = Err s;
  c_nicks : nicks s' ⊆ nicks s;
  c_chans : chans s' ⊆ chans s;
  c_NickName : ∀ n, NickName s' n = NickName s n;
  c_ChanName : ∀ ch, ChanName s' ch = ChanName s ch;
  c_Nicks : ∀ ch, NicksOf s' ch ⊆ NicksOf s ch;
  c_Channels : ∀ n, ChannelsOf s' n ⊆ ChannelsOf s n;
  c_entries : (entries s' ≤ entries s)%nat;
  c_member_gone : ∀ ch n,
    is_Some (NicksOf s ch !! n) → NicksOf s' ch !! n = None →
    ChannelsOf s' n !! ch = None;
  c_channel_gone : ∀ n ch,
    is_Some (ChannelsOf s n !! ch) → ChannelsOf s' n !! ch = None →
    Me s = Some n ∨ NicksOf s' ch !! n = None;
  c_last_channel : ∀ n name,
    Me s ≠ Some n → NickName s n = Some name →
    ChannelsOf s' n ≠ ChannelsOf s n → ChannelsOf s' n = ∅ →
    nicks s' !! name = None;
  c_name_gone : ∀ name,
    is_Some (nicks s !! name) → nicks s' !! name = None →
    ∃ n, Me s ≠ Some n ∧ NickName s n = Some name;
  c_Me_stays : ∀ ch n, Me s = Some n → NicksOf s' ch !! n = NicksOf s ch !! n
}.

(** What each method has achieved when it returns. *)
Definition post (call : Call) (s s' : State) : Prop :=
  match call with
  | DelNick ch n => Me s = Some n ∨ NicksOf s' ch !! n = None
  | DelChannel n ch => ChannelsOf s' n !! ch = None
  | ChanDelete ch => ∀ name, ChanName s ch = Some name → chans s' !! name = None
  | NickDelete n =>
      Me s = Some n ∨
      ∀ name, NickName s n = Some name → nicks s' !! name = None
  end.

(** The place of a method in the cascade: a call reaches a method of
    higher rank only after removing an entry. *)
Definition rank (call : Call) : nat :=
  match call with
  | DelChannel _ _ => 0
  | ChanDelete _ => 1
  | DelNick _ _ => 2
  | NickDelete _ => 3
  end.

(** No map of the store mentions a pointer that refers to nothing. *)
Definition wf (s : State) : Prop :=
  (∀ ch n, is_Some (NicksOf s ch !! n) → (n < length (nick_heap s))%nat) ∧
  (∀ n ch, is_Some (ChannelsOf s n !! ch) → (ch < length (chan_heap s))%nat).

(** The arguments of a call refer to objects. *)
Definition valid_call (call : Call) (s : State) : Prop :=
  match call with
  | DelNick ch n | DelChannel n ch =>
      (ch < length (chan_heap s))%nat ∧ (n < length (nick_heap s))%nat
  | ChanDelete ch => (ch < length (chan_heap s))%nat
  | NickDelete n => (n < length (nick_heap s))%nat
  end.

(** ** Properties of stores *)

(** The object graph: everything in the store but the warning sink. *)
Definition graph (s : State) :=
  (nick_heap s, chan_heap s, priv_heap s, nicks s, chans s, Me s).

(** A call that took [s] to [s'] sent one message to the warning sink. *)
Definition warned (s s' : State) : Prop := ∃ w, Err s' = (Err s ++ [w])%list.

(** The mirroring invariant as the specification words it: for every
    nick and channel, the channel's member map has an entry for the nick
    iff the nick's channel map has one for the channel, and the two
    entries are the same record. *)
Definition mirrored (s : State) : Prop :=
  ∀ n ch,
    (is_Some (NicksOf s ch !! n) ↔ is_Some (ChannelsOf s n !! ch)) ∧
    (∀ p q, NicksOf s ch !! n = Some p → ChannelsOf s n !! ch = Some q → p = q).

(** What the code maintains: a nick's entry for a channel is always
    mirrored by the channel; a channel's entry for a nick is mirrored by
    the nick unless the nick is the local identity. *)
Definition mirrored_but_Me (s : State) : Prop :=
  (∀ n ch p, ChannelsOf s n !! ch = Some p → NicksOf s ch !! n = Some p) ∧
  (∀ ch n p, NicksOf s ch !! n = Some p → Me s ≠ Some n →
             ChannelsOf s n !! ch = Some p).

(** The local identity is in the nickname index under its name. *)
Definition Me_tracked (s : State) : Prop :=
  ∃ me name,
    Me s = Some me ∧ NickName s me = Some name ∧ GetNick name s = Some me.

(** No other nick object carries the local identity's name. *)
Definition Me_name_unique (s : State) : Prop :=
  ∀ me name n,
    Me s = Some me → NickName s me = Some name → NickName s n = Some name →
    n = me.

Section along.
Variable order : gmap ptr ptr → list ptr.

(** [P] holds in every state a run of [ops] from [s] goes through. *)
Fixpoint along (P : State → Prop) (ops : list Operation) (s : State) : Prop :=
  P s ∧
  match ops with
  | [] => True
  | op :: ops =>
      match step order op s with
      | Ok s' => along P ops s'
      | _ => True
      end
  end.

End along.

(** ** Example stores *)

(** The store of a fresh connection of nick "me". *)
Definition fresh : State := New "me" "user" "name".

(** "me" (nick 0), "a" (nick 1) and "b" (nick 2) join "#c" (channel 0),
    two from the channel side and one from the nick side. *)
Definition three_join : list Operation :=
  [OpNewChannel "#c"; OpNewNick "a" "a" "A" "host"; OpNewNick "b" "b" "B" "host";
   OpAddNick 0 0; OpAddNick 0 1; OpAddChannel 2 0].

Definition busy : State :=
  match run keys three_join fresh with
  | Ok s => s
  | _ => fresh
  end.

(** A fresh connection that knows the channel "#c" and nobody in it. *)
Definition lonely : State := (NewChannel "#c" fresh).1.

(** ** Further properties of stores *)

(** Every key of an index leads to an object that carries the key as
    its name. *)
Definition indexed (s : State) : Prop :=
  (∀ k n, GetNick k s = Some n → NickName s n = Some k) ∧
  (∀ k ch, GetChannel k s = Some ch → ChanName s ch = Some k).

(** Every membership entry points to an allocated privilege record, and
    no record serves two different (channel, nick) pairs. *)
Definition privs_unshared (s : State) : Prop :=
  (∀ ch n p, NicksOf s ch !! n = Some p → p < length (priv_heap s)) ∧
  (∀ n ch p, ChannelsOf s n !! ch = Some p → p < length (priv_heap s)) ∧
  (∀ ch n ch' n' p,
     NicksOf s ch !! n = Some p → NicksOf s ch' !! n' = Some p →
     ch = ch' ∧ n = n').

(** The state after the pair (ch, n) has left, seen from a state where
    both maps list it: both entries removed, and the nick's name removed
    from the index when no channel is left. *)
Definition after_leave (ch n : ptr) (s : State) : State :=
  let s2 := set_Channels n (delete ch (ChannelsOf s n))
              (set_Nicks ch (delete n (NicksOf s ch)) s) in
  if bool_decide (size (ChannelsOf s2 n) = 0) then
    match NickName s n with
    | Some name => set_nicks (delete name (nicks s2)) s2
    | None => s2
    end
  else s2.

Section frames.

(** The entries a call may remove ([Pe ch n]: the entry of nick [n] in
    channel [ch], on either side), and the channels and nicks whose
    names it may take out of the indices. *)
Variables (Pe : ptr → ptr → Prop) (Pc Pn : ptr → Prop).

(** Everything else is the same in [s'] as in [s]. *)
Record frame (s s' : State) : Prop := {
  f_Nicks : ∀ ch n, ¬ Pe ch n → NicksOf s' ch !! n = NicksOf s ch !! n;
  f_Channels : ∀ n ch, ¬ Pe ch n → ChannelsOf s' n !! ch = ChannelsOf s n !! ch;
  f_chans : ∀ k, (∀ ch, Pc ch → ChanName s ch ≠ Some k) →
                 chans s' !! k = chans s !! k;
  f_nicks : ∀ k, (∀ n, Pn n → NickName s n ≠ Some k) →
                 nicks s' !! k = nicks s !! k
}.

(** A call stays within these bounds if the pair it names, and whatever
    the methods it reaches will name in state [s], is within them. *)
Definition allowed (call : Call) (s : State) : Prop :=
  match call with
  | DelNick ch n | DelChannel n ch =>
      Pe ch n ∧ (Me s ≠ Some n → Pn n) ∧
      (Me s = Some n →
       Pc ch ∧
       ∀ n', is_Some (NicksOf s ch !! n') →
             Pe ch n' ∧ (Me s ≠ Some n' → Pn n'))
  | ChanDelete ch =>
      Pc ch ∧
      ∀ n', is_Some (NicksOf s ch !! n') → Pe ch n' ∧ (Me s ≠ Some n' → Pn n')
  | NickDelete n =>
      Me s ≠ Some n →
      Pn n ∧ ∀ ch', is_Some (ChannelsOf s n !! ch') → Pe ch' n
  end.

End frames.

(** ** Nick modes, channel privileges and the reverse tables *)

(** [var NickModeToString = map[string]string{...}] *)
Definition NickModeToString : gmap string string :=
  list_to_map
    [("Invisible", "i"); ("Oper", "o"); ("WallOps", "w"); ("HiddenHost", "x");
     ("SSL", "z")].

(** [var ChanPrivToString = map[string]string{...}] *)
Definition ChanPrivToString : gmap string string :=
  list_to_map
    [("Owner", "q"); ("Admin", "a"); ("Op", "o"); ("HalfOp", "h");
     ("Voice", "v")].

(** [var ChanPrivToModeChar = map[string]byte{...}] *)
Definition ChanPrivToModeChar : gmap string Ascii.ascii :=
  list_to_map
    [("Owner", "~"%char); ("Admin", "&"%char); ("Op", "@"%char);
     ("HalfOp", "%"%char); ("Voice", "+"%char)].

(** The fields of a [NickMode] and of a [ChanPrivs] by reflection. *)
Definition NickMode_fields (nm : NickMode) : list (string * Value) :=
  [("Invisible", BoolValue (Invisible nm)); ("Oper", BoolValue (Oper nm));
   ("WallOps", BoolValue (WallOps nm));
   ("HiddenHost", BoolValue (HiddenHost nm)); ("SSL", BoolValue (SSL nm))].

Definition ChanPrivs_fields (p : ChanPrivs) : list (string * Value) :=
  [("Owner", BoolValue (Owner p)); ("Admin", BoolValue (Admin p));
   ("Op", BoolValue (Op p)); ("HalfOp", BoolValue (HalfOp p));
   ("Voice", BoolValue (Voice p))].

(** One iteration of the field loop of [NickMode.String] and
    [ChanPrivs.String], whose type switch has the bool case only. *)
Definition String_bool_field (tbl : gmap string string) (str : string)
    (f : string * Value) : string :=
  match f.2 with
  | BoolValue b => if b then str +:+ index_str tbl f.1 else str
  | _ => str
  end.

(** [func (nm *NickMode) String() string] *)
Definition NickMode_String (nm : NickMode) : string :=
  let str := foldl (String_bool_field NickModeToString) "+" (NickMode_fields nm) in
  if bool_decide (str = "+") then "No modes set" else str.

(** [func (p *ChanPrivs) String() string] *)
Definition ChanPrivs_String (p : ChanPrivs) : string :=
  let str := foldl (String_bool_field ChanPrivToString) "+" (ChanPrivs_fields p) in
  if bool_decide (str = "+") then "No modes set" else str.

(** [r = make(map[V]K); for k, v := range m { r[v] = k }], the loop
    [init] runs for each table, over the entries in the order the
    runtime visits them. *)
Definition reverse {K V} `{Countable V} (kvs : list (K * V)) : gmap V K :=
  foldl (λ r kv, <[kv.2 := kv.1]> r) ∅ kvs.

Section init.

(** The order in which [range] visits each kind of table. *)
Variable order_ss : gmap string string → list (string * string).
Variable order_sb : gmap string Ascii.ascii → list (string * Ascii.ascii).

(** [func init()]: the four reverse tables. *)
Definition StringToChanMode : gmap string string :=
  reverse (order_ss ChanModeToString).
Definition StringToNickMode : gmap string string :=
  reverse (order_ss NickModeToString).
Definition StringToChanPriv : gmap string string :=
  reverse (order_ss ChanPrivToString).
Definition ModeCharToChanPriv : gmap Ascii.ascii string :=
  reverse (order_sb ChanPrivToModeChar).

End init.

(** ** The bot's message handler *)

(** *** Strings as Go has them: byte sequences *)

(** The index of the first byte [c] in [s]. *)
Fixpoint index_of (c : ascii) (s : string) : option nat :=
  match s with
  | EmptyString => None
  | String a s => if decide (a = c) then Some 0 else S <$> index_of c s
  end.

(** [strings.Index(s, sep)] for a one-byte [sep]: -1 when absent. *)
Definition Index (s : string) (c : ascii) : Z :=
  match index_of c s with
  | Some i => Z.of_nat i
  | None => (-1)%Z
  end.

Fixpoint take_s (n : nat) (s : string) : string :=
  match n, s with
  | S n, String a s => String a (take_s n s)
  | _, _ => EmptyString
  end.

Fixpoint drop_s (n : nat) (s : string) : string :=
  match n, s with
  | S n, String _ s => drop_s n s
  | _, _ => s
  end.

(** [s[lo:hi]], which panics unless [lo <= hi <= len(s)]. *)
Definition slice (s : string) (lo hi : nat) : result string :=
  if bool_decide (lo ≤ hi ∧ hi ≤ String.length s) then
    Ok (take_s (hi - lo) (drop_s lo s))
  else Panic.

(** [s[lo:]] *)
Definition slice_from (s : string) (lo : nat) : result string :=
  slice s lo (String.length s).

(** [strings.HasPrefix(s, prefix)] *)
Fixpoint HasPrefix (s prefix : string) : bool :=
  match prefix, s with
  | EmptyString, _ => true
  | String p prefix, String a s => bool_decide (a = p) && HasPrefix s prefix
  | String _ _, EmptyString => false
  end.

(** [strings.Split(s, " ", 2)]: [s] itself when it has no space, else
    the part before the first space and the part after it. *)
Definition Split2 (s : string) : list string :=
  match index_of " " s with
  | None => [s]
  | Some i => [take_s i s; drop_s (S i) s]
  end.

(** [strings.Replace(s, "\n", " ", -1)] *)
Fixpoint Replace_newlines (s : string) : string :=
  match s with
  | EmptyString => EmptyString
  | String a s =>
      String (if decide (a = "010"%char) then " "%char else a)
        (Replace_newlines s)
  end.

(** *** [isChannel] and [say] *)

(** [func isChannel(target string) bool]; [target[0]] panics on the
    empty string. *)
Definition isChannel (target : string) : result bool :=
  match target with
  | EmptyString => Panic
  | String c _ => Ok (bool_decide (c = "#"%char) || bool_decide (c = "&"%char))
  end.

(** What [say] asks the connection to send: [conn.Privmsg(target, text)]
    or [conn.Notice(target, text)]. *)
Inductive Sent :=
  | Privmsg (target text : string)
  | Notice (target text : string).

(** [func say(conn, target, message string, a ...interface{})], given
    the string that [fmt.Sprintf(message, a...)] produced. *)
Definition say (target formatted : string) : result Sent :=
  let text := Replace_newlines formatted in
  b ← isChannel target;
  Ok (if b then Privmsg target text else Notice target text).

(** *** [command] *)

(** The functions the [commands] table leads to. *)
Module Handlers.
Inductive t := translate | flags | add | remove | topic | appendtopic | csay.
End Handlers.

(** [var commands = map [string]func(...){...}] *)
Definition commands : gmap string Handlers.t :=
  list_to_map
    [("tr", Handlers.translate); ("flags", Handlers.flags);
     ("add", Handlers.add); ("remove", Handlers.remove);
     ("topic", Handlers.topic); ("appendtopic", Handlers.appendtopic);
     ("say", Handlers.csay)].

(** A call [handler(conn, nick, args, target)]. *)
Record Dispatch := {
  d_handler : Handlers.t;
  d_nick : string;
  d_args : string;
  d_target : string
}.

(** [func command(conn, nick, text, target string)], as the call it
    makes, if any.  [trigger] is a variable of the bot that is set
    elsewhere. *)
Definition command (trigger nick text target : string)
    : result (option Dispatch) :=
  if negb (HasPrefix text trigger) then Ok None
  else
    match Split2 text with
    | [] => Panic
    | w :: rest =>
        if bool_decide (String.length w < 2) then Ok None
        else
          name ← slice_from w 1;
          match commands !! name with
          | None => Ok None
          | Some handler =>
              match rest with
              | args :: _ =>
                  Ok (Some {| d_handler := handler; d_nick := nick;
                              d_args := args; d_target := target |})
              | [] =>
                  Ok (Some {| d_handler := handler; d_nick := nick;
                              d_args := ""; d_target := target |})
              end
          end
    end.

(** *** [handlePrivmsg] *)

(** The fields of [irc.Line] that the handler reads; the struct is
    declared with the connection. *)
Record Line := {
  l_Nick : string;
  l_Host : string;
  l_Args : list string;
  l_Text : string
}.

(** The calls [handlePrivmsg] makes. *)
Inductive Action :=
  | Youtube (nick video channel : string)
  | Command (nick text target : string).

Definition youtube_prefix : string := "http://www.youtube.com/watch?v=".

(** The video id that [handlePrivmsg] cuts out of a channel message:
    [None] when [youtube] is not called. *)
Definition video_of (text : string) : result (option string) :=
  video ←
    (if HasPrefix text youtube_prefix then slice_from text 31
     else if HasPrefix text youtube_prefix then slice_from text 27
     else Ok "");
  if bool_decide (video ≠ "") then
    video ←
      (let amp := Index video "&" in
       if bool_decide (amp > -1)%Z then slice video 0 (Z.to_nat amp)
       else Ok video);
    video ←
      (let pound := Index video "#" in
       if bool_decide (pound > -1)%Z then slice video 0 (Z.to_nat pound)
       else Ok video);
    Ok (Some video)
  else Ok None.

Definition with_Host (host : string) (n : Nick) : Nick :=
  {| n_Nick := n_Nick n; n_Ident := n_Ident n; n_Host := host;
     n_Name := n_Name n; n_Modes := n_Modes n; Channels := Channels n |}.

(** [func handlePrivmsg(conn *irc.Conn, line *irc.Line)]: the new store
    and the calls made, in order. *)
Definition handlePrivmsg (line : Line) (s : State)
    : result (State * list Action) :=
  s ←
    (match GetNick (l_Nick line) s with
     | Some n =>
         match nick_heap s !! n with
         | Some _ =>
             Ok (set_nick_heap
                   (alter (with_Host (l_Host line)) n (nick_heap s)) s)
         | None => Panic
         end
     | None => Ok s
     end);
  match l_Args line with
  | [] => Panic
  | target :: _ =>
      b ← isChannel target;
      if b then
        v ← video_of (l_Text line);
        Ok (s,
            (match v with
             | Some video => [Youtube (l_Nick line) video target]
             | None => []
             end ++ [Command (l_Nick line) (l_Text line) target])%list)
      else
        match Me s with
        | None => Panic
        | Some me =>
            match nick_heap s !! me with
            | None => Panic
            | Some m =>
                if bool_decide (target = n_Nick m) then
                  Ok (s, [Command (l_Nick line) (l_Text line) (l_Nick line)])
                else Ok (s, [])
            end
        end
  end.

(** *** [translate]: the language pairs *)

(** The loop at the head of [translate]: it moves leading words of the
    form "xx|yy" from [args] to [langPairs]. *)
Fixpoint langPairs_loop (fuel : nat) (args : string) (langPairs : list string)
    : result (list string * string) :=
  match fuel with
  | 0 => Timeout
  | S fuel =>
      match Split2 args with
      | [w; rest] =>
          if bool_decide (String.length w = 5) &&
             bool_decide (String.get 2 w = Some "|"%char) then
            langPairs_loop fuel rest (langPairs ++ ["&langpair=" +:+ w])
          else Ok (langPairs, args)
      | _ => Ok (langPairs, args)
      end
  end.

Definition langPairs_of (args : string) : result (list string * string) :=
  langPairs_loop (S (String.length args)) args [].

(** *** [youtube]: the duration *)

(** [fmt.Sprintf("%d", n)] and [fmt.Sprintf("%02d", n)] for a [uint]. *)
Definition Sprintf_u (n : N) : string := NilZero.string_of_uint (N.to_uint n).

Definition Sprintf_02u (n : N) : string :=
  if bool_decide (n < 10)%N then "0" +:+ Sprintf_u n else Sprintf_u n.

(** The lines of [youtube] that turn the seconds of the feed into the
    text shown. *)
Definition durationStr (seconds : N) : string :=
  let minutes := (seconds / 60)%N in
  let seconds := (seconds mod 60)%N in
  let hours := (minutes / 60)%N in
  let minutes := (minutes mod 60)%N in
  if (0 <? hours)%N then
    Sprintf_u hours +:+ ":" +:+ Sprintf_02u minutes +:+ ":" +:+
    Sprintf_02u seconds
  else Sprintf_02u minutes +:+ ":" +:+ Sprintf_02u seconds.

(** [s] up to, and without, its first byte [c]; all of [s] when it has
    none.  This is what the two [strings.Index] tests of [handlePrivmsg]
    compute. *)
Definition cut_at (c : ascii) (s : string) : string :=
  match index_of c s with
  | Some i => take_s i s
  | None => s
  end.

(** A word that the loop of [translate] takes for a language pair. *)
Definition langpair (w : string) : Prop :=
  String.length w = 5 ∧ String.get 2 w = Some "|"%char ∧ index_of " " w = None.

(** "me" has joined "#c" and left it again: the channel object still
    lists "me", and "me" no longer lists the channel. *)
Definition stale : State :=
  match run keys [OpNewChannel "#c"; OpAddNick 0 0; OpDelNick 0 0] fresh with
  | Ok s => s
  | _ => fresh
  end.

(** "me" (nick 0) and "a" (nick 1) know of "#c" (channel 0); nobody has
    joined it. *)
Definition strangers_ops : list Operation :=
  [OpNewChannel "#c"; OpNewNick "a" "a" "A" "host"].

Definition strangers : State :=
  match run keys strangers_ops fresh with
  | Ok s => s
  | _ => fresh
  end.

(** A line that "a" sends to "#c", and one that "a" sends to "me". *)
Definition to_channel : Line :=
  {| l_Nick := "a"; l_Host := "elsewhere"; l_Args := ["#c"];
     l_Text := "!tr en|fr hello" |}.

Definition to_me : Line :=
  {| l_Nick := "a"; l_Host := "elsewhere"; l_Args := ["me"];
     l_Text := "!flags" |}.

(** ** Theorems on mode strings *)

Lemma Sprintf_d_nonempty i : Sprintf_d i ≠ "".
Proof.
  unfold Sprintf_d, NilZero.string_of_int.
  destruct (Z.to_int i) as [d|d]; [|discriminate].
  unfold NilZero.string_of_uint. destruct d; discriminate.
Qed.

Lemma append_empty_r (s : string) : s +:+ "" = s.
Proof.
  induction s as [|c s IH]; [done|].
  change (String c (s +:+ "") = String c s). by rewrite IH.
Qed.

Section String_field_steps.
Context (cm : ChanMode) (s x y nm : string).
Let acc := {| str := s; a0 := x; a1 := y |}.

Lemma String_field_bool b :
  String_field cm acc (nm, BoolValue b)
  = {| str := s +:+ flag b (index_str ChanModeToString nm); a0 := x; a1 := y |}.
Proof.
  unfold String_field, flag, acc; cbn [snd fst str a0 a1].
  destruct b; [done | by rewrite append_empty_r].
Qed.

Lemma String_field_string k :
  String_field cm acc (nm, StringValue k)
  = {| str := s +:+ flag (bool_decide (k ≠ "")) (index_str ChanModeToString nm);
       a0 := if bool_decide (k ≠ "") then k else x; a1 := y |}.
Proof.
  unfold String_field, flag, acc; cbn [snd fst str a0 a1].
  destruct (bool_decide (k ≠ "")); [done | by rewrite append_empty_r].
Qed.

Lemma String_field_int i :
  String_field cm acc (nm, IntValue i)
  = {| str := s +:+ flag (bool_decide (i ≠ 0%Z)) (index_str ChanModeToString nm);
       a0 := x;
       a1 := if bool_decide (i ≠ 0%Z) then Sprintf_d (Limit cm) else y |}.
Proof.
  unfold String_field, flag, acc; cbn [snd fst str a0 a1].
  destruct (bool_decide (i ≠ 0%Z)); [done | by rewrite append_empty_r].
Qed.
End String_field_steps.

Lemma ChanModeToString_letters :
  Forall2 (λ k c, index_str ChanModeToString k = c)
    ["Private"; "Secret"; "ProtectedTopic"; "NoExternalMsg"; "Moderated";
     "InviteOnly"; "OperOnly"; "SSLOnly"; "Key"; "Limit"]
    ["p"; "s"; "t"; "n"; "m"; "i"; "O"; "z"; "k"; "l"].
Proof. repeat constructor; vm_compute; reflexivity. Qed.

(** C8: [ChanMode.String] yields "+", the letters of the set flags in
    table order, then the key (if non-empty) and the limit (if non-zero)
    as space-separated arguments in that fixed order; a record with
    nothing set yields "No modes set"; and InviteOnly with Key "secret"
    and Limit 10 yields "+ikl secret 10". *)
Theorem ChanMode_String_spec :
  (∀ cm, ChanMode_String cm = toModeString cm) ∧
  ChanMode_String new_ChanMode = "No modes set" ∧
  ChanMode_String
    {| Private := false; Secret := false; ProtectedTopic := false;
       NoExternalMsg := false; Moderated := false; InviteOnly := true;
       OperOnly := false; SSLOnly := false; Key := "secret"; Limit := 10 |}
  = "+ikl secret 10".
Proof.
  split; [|split; vm_compute; reflexivity].
  intros [p s t n m i o z k l].
  unfold ChanMode_String, ChanMode_fields.
  cbn [foldl Private Secret ProtectedTopic NoExternalMsg Moderated InviteOnly
       OperOnly SSLOnly Key Limit].
  rewrite !String_field_bool, String_field_string, String_field_int.
  cbn [str a0 a1 Limit].
  pose proof ChanModeToString_letters as Ht.
  repeat (apply Forall2_cons_1 in Ht as [-> Ht]).
  clear Ht.
  unfold toModeString, mode_letters, mode_args.
  cbn [Private Secret ProtectedTopic NoExternalMsg Moderated InviteOnly
       OperOnly SSLOnly Key Limit].
  pose proof (Sprintf_d_nonempty l) as Hd.
  destruct (Sprintf_d l) as [|c d]; [done|]. clear Hd.
  destruct k as [|kc k], l as [|lp|lp];
    rewrite ?(bool_decide_eq_false_2 ("" ≠ "")),
            ?(bool_decide_eq_false_2 (0 ≠ 0)%Z),
            ?(bool_decide_eq_true_2 (String kc k ≠ "")),
            ?(bool_decide_eq_true_2 (Z.pos lp ≠ 0)%Z),
            ?(bool_decide_eq_true_2 (Z.neg lp ≠ 0)%Z) by congruence;
    cbv iota; rewrite ?append_empty_r;
    destruct p, s, t, n, m, i, o, z; vm_compute; reflexivity.
Qed.
(** ** Reading the store after an update *)

Lemma sum_list_with_alter {A} (f : A → nat) (g : A → A) (l : list A) i x :
  l !! i = Some x →
  sum_list_with f (alter g i l) + f x = sum_list_with f l + f (g x).
Proof.
  revert i. induction l as [|y l IH]; intros [|i] Hi; simplify_eq/=.
  - lia.
  - specialize (IH _ Hi). lia.
Qed.

Section updates.
Context (s : State).

Lemma NicksOf_set_Nicks ch m ch' :
  is_Some (chan_heap s !! ch) →
  NicksOf (set_Nicks ch m s) ch' = if decide (ch' = ch) then m else NicksOf s ch'.
Proof.
  intros [c Hc]. unfold NicksOf, set_Nicks; simpl. case_decide; subst.
  - by rewrite list_lookup_alter_eq, Hc.
  - by rewrite list_lookup_alter_ne.
Qed.

Lemma ChanName_set_Nicks ch m ch' :
  ChanName (set_Nicks ch m s) ch' = ChanName s ch'.
Proof.
  unfold ChanName, set_Nicks; simpl. destruct (decide (ch = ch')); subst.
  - rewrite list_lookup_alter_eq. by destruct (chan_heap s !! ch').
  - by rewrite list_lookup_alter_ne.
Qed.

Lemma ChannelsOf_set_Channels n m n' :
  is_Some (nick_heap s !! n) →
  ChannelsOf (set_Channels n m s) n' =
  if decide (n' = n) then m else ChannelsOf s n'.
Proof.
  intros [c Hc]. unfold ChannelsOf, set_Channels; simpl. case_decide; subst.
  - by rewrite list_lookup_alter_eq, Hc.
  - by rewrite list_lookup_alter_ne.
Qed.

Lemma NickName_set_Channels n m n' :
  NickName (set_Channels n m s) n' = NickName s n'.
Proof.
  unfold NickName, set_Channels; simpl. destruct (decide (n = n')); subst.
  - rewrite list_lookup_alter_eq. by destruct (nick_heap s !! n').
  - by rewrite list_lookup_alter_ne.
Qed.

Lemma entries_set_Nicks ch c m :
  chan_heap s !! ch = Some c →
  entries (set_Nicks ch m s) + size (Nicks c) = entries s + size m.
Proof.
  intros Hc. unfold entries, set_Nicks; simpl.
  pose proof (sum_list_with_alter (λ c, size (Nicks c)) (with_Nicks m) _ _ _ Hc)
    as H.
  simpl in H. lia.
Qed.

Lemma entries_set_Channels n nk m :
  nick_heap s !! n = Some nk →
  entries (set_Channels n m s) + size (Channels nk) = entries s + size m.
Proof.
  intros Hc. unfold entries, set_Channels; simpl.
  pose proof (sum_list_with_alter (λ c, size (Channels c)) (with_Channels m)
                _ _ _ Hc) as H.
  simpl in H. lia.
Qed.

Lemma NicksOf_lookup ch c : chan_heap s !! ch = Some c → NicksOf s ch = Nicks c.
Proof. intros H. unfold NicksOf. by rewrite H. Qed.

Lemma ChannelsOf_lookup n nk :
  nick_heap s !! n = Some nk → ChannelsOf s n = Channels nk.
Proof. intros H. unfold ChannelsOf. by rewrite H. Qed.

End updates.

(** ** The cascade relation is a preorder *)

Lemma cascade_refl s : cascade s s.
Proof.
  split; try done.
  - intros ch n [x Hx] Hn. congruence.
  - intros n ch [x Hx] Hn. congruence.
  - intros name [x Hx] Hn. congruence.
Qed.

Lemma cascade_trans s1 s2 s3 : cascade s1 s2 → cascade s2 s3 → cascade s1 s3.
Proof.
  intros A B. split.
  - rewrite (c_nick_len _ _ B). apply A.
  - rewrite (c_chan_len _ _ B). apply A.
  - rewrite (c_priv _ _ B). apply A.
  - rewrite (c_Me _ _ B). apply A.
  - rewrite (c_Err _ _ B). apply A.
  - etrans; [apply B | apply A].
  - etrans; [apply B | apply A].
  - intros n. rewrite (c_NickName _ _ B). apply A.
  - intros ch. rewrite (c_ChanName _ _ B). apply A.
  - intros ch. etrans; [apply B | apply A].
  - intros n. etrans; [apply B | apply A].
  - etrans; [apply B | apply A].
  - intros ch n H1 H3.
    destruct (NicksOf s2 ch !! n) as [x|] eqn:H2.
    + by apply (c_member_gone _ _ B ch n).
    + eapply lookup_weaken_None; [|apply (c_Channels _ _ B)].
      by apply (c_member_gone _ _ A ch n).
  - intros n ch H1 H3. rewrite <- (c_Me _ _ A).
    destruct (ChannelsOf s2 n !! ch) as [x|] eqn:H2.
    + by apply (c_channel_gone _ _ B n ch).
    + destruct (c_channel_gone _ _ A n ch H1 H2) as [HM|HN].
      * left. by rewrite (c_Me _ _ A).
      * right. eapply lookup_weaken_None; [done | apply (c_Nicks _ _ B)].
  - intros n name HM HN Hne He.
    destruct (decide (ChannelsOf s3 n = ChannelsOf s2 n)) as [E|E].
    + eapply lookup_weaken_None; [|apply (c_nicks _ _ B)].
      apply (c_last_channel _ _ A n name); congruence.
    + apply (c_last_channel _ _ B n name); try done.
      * by rewrite (c_Me _ _ A).
      * by rewrite (c_NickName _ _ A).
  - intros name H1 H3.
    destruct (nicks s2 !! name) as [x|] eqn:H2.
    + destruct (c_name_gone _ _ B name) as (n & HM & HN); [done..|].
      exists n. by rewrite <- (c_Me _ _ A), <- (c_NickName _ _ A).
    + by apply (c_name_gone _ _ A name).
  - intros ch n HM. rewrite (c_Me_stays _ _ B), (c_Me_stays _ _ A); try done.
    by rewrite (c_Me _ _ A).
Qed.

(** ** Single steps of the cascade *)

Lemma cascade_delete_chans s name : cascade s (set_chans (delete name (chans s)) s).
Proof.
  split; try done.
  - apply delete_subseteq.
  - intros ch n [x Hx] Hn. unfold NicksOf in *; simpl in *. congruence.
  - intros n ch [x Hx] Hn. unfold ChannelsOf in *; simpl in *. congruence.
  - intros nm [x Hx] Hn. simpl in *. congruence.
Qed.

Lemma cascade_delete_nicks s n name :
  Me s ≠ Some n → NickName s n = Some name →
  cascade s (set_nicks (delete name (nicks s)) s).
Proof.
  intros HM HN. split; try done.
  - apply delete_subseteq.
  - intros ch n' [x Hx] Hn. unfold NicksOf in *; simpl in *. congruence.
  - intros n' ch [x Hx] Hn. unfold ChannelsOf in *; simpl in *. congruence.
  - intros nm [x Hx] Hn. simpl in *.
    destruct (decide (nm = name)) as [->|Hne]; [by exists n|].
    rewrite lookup_delete_ne in Hn by done. congruence.
Qed.

(** [delete(ch.Nicks, n)] followed by calls that end with [ch] gone from
    [n.Channels]. *)
Lemma cascade_after_member s ch c n s2 :
  chan_heap s !! ch = Some c → Me s ≠ Some n →
  cascade (set_Nicks ch (delete n (Nicks c)) s) s2 →
  ChannelsOf s2 n !! ch = None →
  cascade s s2.
Proof.
  intros Hc HM B Hgone.
  set (s1 := set_Nicks ch (delete n (Nicks c)) s) in *.
  assert (HN : ∀ ch', NicksOf s1 ch' =
                      if decide (ch' = ch) then delete n (Nicks c)
                      else NicksOf s ch')
    by (intros; apply NicksOf_set_Nicks; eauto).
  assert (Hsub : ∀ ch', NicksOf s1 ch' ⊆ NicksOf s ch').
  { intros ch'. rewrite HN. case_decide; subst; [|done].
    rewrite (NicksOf_lookup _ _ _ Hc). apply delete_subseteq. }
  split.
  - apply B.
  - rewrite (c_chan_len _ _ B). apply length_alter.
  - apply B.
  - apply B.
  - apply B.
  - apply B.
  - apply B.
  - apply B.
  - intros ch'. rewrite (c_ChanName _ _ B). apply ChanName_set_Nicks.
  - intros ch'. etrans; [apply B | apply Hsub].
  - apply B.
  - etrans; [apply B|].
    pose proof (entries_set_Nicks s ch c (delete n (Nicks c)) Hc) as E.
    pose proof (map_subseteq_size (delete n (Nicks c)) (Nicks c)
                  (delete_subseteq _ _)).
    fold s1 in E. lia.
  - intros ch' n' H1 H2.
    destruct (decide (ch' = ch ∧ n' = n)) as [[E1 E2]|Hne]; [by subst|].
    apply (c_member_gone _ _ B ch' n'); [|done].
    rewrite HN. case_decide; subst; [|done].
    rewrite (NicksOf_lookup _ _ _ Hc) in H1.
    rewrite lookup_delete_ne; [done | intros ?; subst; by apply Hne].
  - intros n' ch'. apply (c_channel_gone _ _ B n' ch').
  - intros n' name. apply (c_last_channel _ _ B n' name).
  - apply B.
  - intros ch' n' HM'. rewrite (c_Me_stays _ _ B) by done.
    rewrite HN. case_decide; subst; [|done].
    rewrite (NicksOf_lookup _ _ _ Hc).
    apply lookup_delete_ne. congruence.
Qed.

(** [delete(n.Channels, ch)] followed by calls that end with [n] gone
    from [ch.Nicks] and, if that was the last channel, with [n] gone
    from the index. *)
Lemma cascade_after_channel s n nk ch s3 :
  nick_heap s !! n = Some nk → is_Some (Channels nk !! ch) →
  cascade (set_Channels n (delete ch (Channels nk)) s) s3 →
  (Me s = Some n ∨ NicksOf s3 ch !! n = None) →
  (Me s ≠ Some n → ChannelsOf s3 n = ∅ → nicks s3 !! n_Nick nk = None) →
  cascade s s3.
Proof.
  intros Hn Hin B Hgone Hlast.
  set (s1 := set_Channels n (delete ch (Channels nk)) s) in *.
  assert (HC : ∀ n', ChannelsOf s1 n' =
                     if decide (n' = n) then delete ch (Channels nk)
                     else ChannelsOf s n')
    by (intros; apply ChannelsOf_set_Channels; eauto).
  assert (Hsub : ∀ n', ChannelsOf s1 n' ⊆ ChannelsOf s n').
  { intros n'. rewrite HC. case_decide; subst; [|done].
    rewrite (ChannelsOf_lookup _ _ _ Hn). apply delete_subseteq. }
  split.
  - rewrite (c_nick_len _ _ B). apply length_alter.
  - apply B.
  - apply B.
  - apply B.
  - apply B.
  - apply B.
  - apply B.
  - intros n'. rewrite (c_NickName _ _ B). apply NickName_set_Channels.
  - apply B.
  - apply B.
  - intros n'. etrans; [apply B | apply Hsub].
  - etrans; [apply B|].
    pose proof (entries_set_Channels s n nk (delete ch (Channels nk)) Hn) as E.
    pose proof (map_subseteq_size (delete ch (Channels nk)) (Channels nk)
                  (delete_subseteq _ _)).
    fold s1 in E. lia.
  - intros ch' n'. apply (c_member_gone _ _ B ch' n').
  - intros n' ch' H1 H2.
    destruct (decide (n' = n ∧ ch' = ch)) as [[E1 E2]|Hne]; [by subst|].
    apply (c_channel_gone _ _ B n' ch'); [|done].
    rewrite HC. case_decide; subst; [|done].
    rewrite (ChannelsOf_lookup _ _ _ Hn) in H1.
    rewrite lookup_delete_ne; [done | intros ?; subst; by apply Hne].
  - intros n' name HM HN Hne He.
    destruct (decide (n' = n)) as [->|Hnn].
    + unfold NickName in HN. rewrite Hn in HN. simplify_eq/=. by apply Hlast.
    + apply (c_last_channel _ _ B n' name); try done.
      * unfold s1. by rewrite NickName_set_Channels.
      * rewrite HC. by case_decide.
  - intros name H1 H2.
    destruct (c_name_gone _ _ B name H1 H2) as (n' & HM & HN).
    exists n'. split; [done|]. unfold s1 in HN.
    by rewrite NickName_set_Channels in HN.
  - apply (c_Me_stays _ _ B).
Qed.

(** ** Every call of the cascade is a cascade step *)

Lemma range_cascade cur body keys s s' :
  (∀ k s s', body k s = Ok s' → cascade s s') →
  range cur body keys s = Ok s' → cascade s s'.
Proof.
  intros Hb. revert s. induction keys as [|k keys IH]; intros s H; simpl in H.
  - simplify_eq. apply cascade_refl.
  - case_bool_decide.
    + destruct (body k s) as [s1| |] eqn:E; simpl in H; try done.
      eapply cascade_trans; [by eapply Hb | by apply IH].
    + by apply IH.
Qed.

Section exec_facts.
Context (order : gmap ptr ptr → list ptr).

Lemma exec_cascade fuel call s s' :
  exec order fuel call s = Ok s' → cascade s s' ∧ post call s s'.
Proof.
  revert call s s'.
  induction fuel as [|fuel IH]; intros call s s' H; [done|].
  destruct call as [ch n|n ch|ch|n]; simpl in H.
  - (* DelNick *)
    destruct (chan_heap s !! ch) as [c|] eqn:Hc; [|done].
    case_bool_decide as Hin; cycle 1.
    { simplify_eq. split; [apply cascade_refl|]. right.
      rewrite (NicksOf_lookup _ _ _ Hc). by apply eq_None_not_Some. }
    destruct (nick_heap s !! n) as [nk|] eqn:Hn; [|done].
    case_bool_decide as HM.
    + apply IH in H as [H _]. split; [done | by left].
    + apply IH in H as [H1 H2]. simpl in H2.
      split; [by eapply cascade_after_member|]. right.
      eapply lookup_weaken_None; [|apply (c_Nicks _ _ H1)].
      rewrite NicksOf_set_Nicks by eauto. rewrite decide_True by done.
      apply lookup_delete_eq.
  - (* DelChannel *)
    destruct (nick_heap s !! n) as [nk|] eqn:Hn; [|done].
    case_bool_decide as Hin; cycle 1.
    { simplify_eq. split; [apply cascade_refl|]. simpl.
      rewrite (ChannelsOf_lookup _ _ _ Hn). by apply eq_None_not_Some. }
    destruct (exec order fuel (DelNick ch n) _) as [s1| |] eqn:E1;
      simpl in H; try done.
    apply IH in E1 as [A1 P1]. simpl in P1.
    assert (G1 : ChannelsOf s1 n !! ch = None).
    { eapply lookup_weaken_None; [|apply (c_Channels _ _ A1)].
      rewrite ChannelsOf_set_Channels by eauto. rewrite decide_True by done.
      apply lookup_delete_eq. }
    case_bool_decide as Hsz.
    + apply IH in H as [A2 P2]. simpl in P2.
      assert (G2 : ChannelsOf s' n !! ch = None)
        by (eapply lookup_weaken_None; [done | apply (c_Channels _ _ A2)]).
      split; [|done].
      eapply cascade_after_channel; [done | done | | |].
      * by eapply cascade_trans.
      * destruct P1 as [P1|P1]; [by left|right].
        eapply lookup_weaken_None; [done | apply (c_Nicks _ _ A2)].
      * intros HM _. destruct P2 as [P2|P2].
        { rewrite (c_Me _ _ A1) in P2. done. }
        apply P2. rewrite (c_NickName _ _ A1), NickName_set_Channels.
        unfold NickName. by rewrite Hn.
    + simplify_eq. split; [|done].
      eapply cascade_after_channel; [done | done | done | done |].
      intros _ He. rewrite He in Hsz. by rewrite map_size_empty in Hsz.
  - (* Channel.Delete *)
    destruct (chan_heap s !! ch) as [c|] eqn:Hc; [|done].
    destruct (range _ _ _ s) as [s1| |] eqn:E1; simpl in H; try done.
    apply range_cascade in E1; [|intros k t t' Hk; by apply IH in Hk as [? _]].
    destruct (ChanName s1 ch) as [name|] eqn:Hname; [|done]. simplify_eq.
    split.
    + eapply cascade_trans; [done | apply cascade_delete_chans].
    + intros name' Hname'. rewrite (c_ChanName _ _ E1) in Hname.
      simplify_eq. apply lookup_delete_eq.
  - (* Nick.Delete *)
    destruct (nick_heap s !! n) as [nk|] eqn:Hn; [|done].
    case_bool_decide as HM.
    { simplify_eq. split; [apply cascade_refl | by left]. }
    destruct (range _ _ _ s) as [s1| |] eqn:E1; simpl in H; try done.
    apply range_cascade in E1; [|intros k t t' Hk; by apply IH in Hk as [? _]].
    destruct (NickName s1 n) as [name|] eqn:Hname; [|done]. simplify_eq.
    split.
    + eapply cascade_trans; [done|].
      eapply cascade_delete_nicks; [|done]. by rewrite (c_Me _ _ E1).
    + right. intros name' Hname'. rewrite (c_NickName _ _ E1) in Hname.
      simplify_eq. apply lookup_delete_eq.
Qed.

End exec_facts.

(** ** Termination *)

Lemma range_no_timeout cur body keys s bound :
  (∀ k s s', body k s = Ok s' → cascade s s') →
  (∀ k s, entries s ≤ bound → body k s ≠ Timeout) →
  entries s ≤ bound → range cur body keys s ≠ Timeout.
Proof.
  intros Hc Hb. revert s. induction keys as [|k keys IH]; intros s Hs; [done|].
  simpl. case_bool_decide; [|by apply IH].
  destruct (body k s) as [s1| |] eqn:E; simpl; [|done|by apply Hb in E].
  apply IH. apply Hc in E. pose proof (c_entries _ _ E). lia.
Qed.

Lemma range_fuel_mono cur body body' keys s r :
  (∀ k s r, body k s = r → r ≠ Timeout → body' k s = r) →
  range cur body keys s = r → r ≠ Timeout → range cur body' keys s = r.
Proof.
  intros Hb. revert s. induction keys as [|k keys IH]; intros s H Hr; [done|].
  simpl in *. case_bool_decide; [|by apply IH].
  destruct (body k s) as [s1| |] eqn:E; simpl in H.
  - rewrite (Hb _ _ _ E) by done. simpl. by apply IH.
  - rewrite (Hb _ _ _ E) by done. done.
  - congruence.
Qed.

Section termination.
Context (order : gmap ptr ptr → list ptr).

Lemma exec_no_timeout fuel call s :
  4 * entries s + rank call < fuel → exec order fuel call s ≠ Timeout.
Proof.
  revert call s.
  induction fuel as [|fuel IH]; intros call s Hf; [lia|].
  destruct call as [ch n|n ch|ch|n]; simpl in *.
  - destruct (chan_heap s !! ch) as [c|] eqn:Hc; [|done].
    case_bool_decide as Hin; [|done].
    destruct (nick_heap s !! n) as [nk|] eqn:Hn; [|done].
    case_bool_decide as HM; apply IH; simpl; [lia|].
    pose proof (entries_set_Nicks s ch c (delete n (Nicks c)) Hc) as E.
    rewrite map_size_delete_Some in E by done.
    pose proof (map_size_ne_0_lookup_2 (Nicks c) n Hin). lia.
  - destruct (nick_heap s !! n) as [nk|] eqn:Hn; [|done].
    case_bool_decide as Hin; [|done].
    pose proof (entries_set_Channels s n nk (delete ch (Channels nk)) Hn) as E.
    rewrite map_size_delete_Some in E by done.
    pose proof (map_size_ne_0_lookup_2 (Channels nk) ch Hin).
    destruct (exec order fuel (DelNick ch n) _) as [s1| |] eqn:E1; simpl.
    + apply exec_cascade in E1 as [A1 _]. pose proof (c_entries _ _ A1).
      case_bool_decide; [|done]. apply IH. simpl. lia.
    + done.
    + apply IH in E1; [done|]. simpl. lia.
  - destruct (chan_heap s !! ch) as [c|] eqn:Hc; [|done].
    destruct (range _ _ _ s) as [s1| |] eqn:E1; simpl.
    + by destruct (ChanName s1 ch).
    + done.
    + apply (range_no_timeout _ _ _ _ (entries s)) in E1; [done| | |lia].
      * intros k t t' Hk. by apply exec_cascade in Hk as [? _].
      * intros k t Ht. apply IH. simpl. lia.
  - destruct (nick_heap s !! n) as [nk|] eqn:Hn; [|done].
    case_bool_decide as HM; [done|].
    destruct (range _ _ _ s) as [s1| |] eqn:E1; simpl.
    + by destruct (NickName s1 n).
    + done.
    + apply (range_no_timeout _ _ _ _ (entries s)) in E1; [done| | |lia].
      * intros k t t' Hk. by apply exec_cascade in Hk as [? _].
      * intros k t Ht. apply IH. simpl. lia.
Qed.

Lemma exec_fuel_mono fuel fuel' call s r :
  exec order fuel call s = r → r ≠ Timeout → fuel ≤ fuel' →
  exec order fuel' call s = r.
Proof.
  revert fuel' call s r.
  induction fuel as [|fuel IH]; intros fuel' call s r H Hr Hle;
    [simpl in H; congruence|].
  destruct fuel' as [|fuel']; [lia|].
  assert (Hle' : fuel ≤ fuel') by lia.
  destruct call as [ch n|n ch|ch|n]; simpl in *.
  - destruct (chan_heap s !! ch) as [c|]; [|done].
    case_bool_decide; [|done].
    destruct (nick_heap s !! n) as [nk|]; [|done].
    case_bool_decide; by apply IH.
  - destruct (nick_heap s !! n) as [nk|]; [|done].
    case_bool_decide; [|done].
    destruct (exec order fuel (DelNick ch n) _) as [s1| |] eqn:E1; simpl in H.
    + rewrite (IH fuel' _ _ _ E1) by done. simpl.
      case_bool_decide; [by apply IH | done].
    + by rewrite (IH fuel' _ _ _ E1).
    + congruence.
  - destruct (chan_heap s !! ch) as [c|]; [|done].
    destruct (range _ _ _ s) as [s1| |] eqn:E1; simpl in H.
    + erewrite range_fuel_mono; [| |exact E1|done]; [done|].
      intros k t r' Hk Hr'. by apply (IH fuel').
    + erewrite range_fuel_mono; [| |exact E1|done]; [done|].
      intros k t r' Hk Hr'. by apply (IH fuel').
    + congruence.
  - destruct (nick_heap s !! n) as [nk|]; [|done].
    case_bool_decide; [done|].
    destruct (range _ _ _ s) as [s1| |] eqn:E1; simpl in H.
    + erewrite range_fuel_mono; [| |exact E1|done]; [done|].
      intros k t r' Hk Hr'. by apply (IH fuel').
    + erewrite range_fuel_mono; [| |exact E1|done]; [done|].
      intros k t r' Hk Hr'. by apply (IH fuel').
    + congruence.
Qed.

Lemma rank_fuel_for call s : 4 * entries s + rank call < fuel_for s.
Proof. unfold fuel_for. destruct call; simpl; lia. Qed.

(** Any fuel above [fuel_for] gives the result of the total methods. *)
Lemma exec_fuel_for fuel call s :
  fuel_for s ≤ fuel → exec order fuel call s = exec order (fuel_for s) call s.
Proof.
  intros. eapply exec_fuel_mono; [done | | done].
  apply exec_no_timeout, rank_fuel_for.
Qed.

End termination.

(** ** No nil dereference in a well-formed store *)

Lemma wf_shrink s s' :
  length (nick_heap s') = length (nick_heap s) →
  length (chan_heap s') = length (chan_heap s) →
  (∀ ch, NicksOf s' ch ⊆ NicksOf s ch) →
  (∀ n, ChannelsOf s' n ⊆ ChannelsOf s n) →
  wf s → wf s'.
Proof.
  intros Hn Hc HN HC [W1 W2]. split.
  - intros ch n H. rewrite Hn. apply (W1 ch).
    by eapply lookup_weaken_is_Some.
  - intros n ch H. rewrite Hc. apply (W2 n).
    by eapply lookup_weaken_is_Some.
Qed.

Lemma wf_cascade s s' : cascade s s' → wf s → wf s'.
Proof. intros C. apply wf_shrink; apply C. Qed.

Lemma wf_delete_member s ch c n :
  chan_heap s !! ch = Some c → wf s → wf (set_Nicks ch (delete n (Nicks c)) s).
Proof.
  intros Hc. apply wf_shrink; try done.
  - apply length_alter.
  - intros ch'. rewrite NicksOf_set_Nicks by eauto. case_decide; subst; [|done].
    rewrite (NicksOf_lookup _ _ _ Hc). apply delete_subseteq.
Qed.

Lemma wf_delete_channel s n nk ch :
  nick_heap s !! n = Some nk → wf s →
  wf (set_Channels n (delete ch (Channels nk)) s).
Proof.
  intros Hn. apply wf_shrink; try done.
  - apply length_alter.
  - intros n'. rewrite ChannelsOf_set_Channels by eauto.
    case_decide; subst; [|done].
    rewrite (ChannelsOf_lookup _ _ _ Hn). apply delete_subseteq.
Qed.

Lemma range_no_panic (I : State → Prop) cur body keys s :
  (∀ k s s', I s → body k s = Ok s' → I s') →
  (∀ k s, I s → is_Some (cur s !! k) → body k s ≠ Panic) →
  I s → range cur body keys s ≠ Panic.
Proof.
  intros Hi Hb. revert s. induction keys as [|k keys IH]; intros s Hs; [done|].
  simpl. case_bool_decide; [|by apply IH].
  destruct (body k s) as [s1| |] eqn:E; simpl; [|by eapply Hb in E|done].
  apply IH. by eapply Hi.
Qed.

Section no_panic.
Context (order : gmap ptr ptr → list ptr).

Lemma exec_no_panic fuel call s :
  wf s → valid_call call s → exec order fuel call s ≠ Panic.
Proof.
  revert call s.
  induction fuel as [|fuel IH]; intros call s W V; [done|].
  destruct call as [ch n|n ch|ch|n]; simpl in *.
  - destruct V as [Vc Vn].
    destruct (lookup_lt_is_Some_2 _ _ Vc) as [c Hc]. rewrite Hc.
    case_bool_decide as Hin; [|done].
    destruct (lookup_lt_is_Some_2 _ _ Vn) as [nk Hn]. rewrite Hn.
    case_bool_decide as HM; apply IH; try done.
    + by apply wf_delete_member.
    + simpl. by rewrite length_alter.
  - destruct V as [Vc Vn].
    destruct (lookup_lt_is_Some_2 _ _ Vn) as [nk Hn]. rewrite Hn.
    case_bool_decide as Hin; [|done].
    destruct (exec order fuel (DelNick ch n) _) as [s1| |] eqn:E1; simpl.
    + apply exec_cascade in E1 as [A1 _].
      case_bool_decide; [|done]. apply IH.
      * eapply wf_cascade; [done|]. by apply wf_delete_channel.
      * simpl. rewrite (c_nick_len _ _ A1). simpl. by rewrite length_alter.
    + apply IH in E1; [done| |].
      * by apply wf_delete_channel.
      * simpl. by rewrite length_alter.
    + done.
  - destruct (lookup_lt_is_Some_2 _ _ V) as [c Hc]. rewrite Hc.
    destruct (range _ _ _ s) as [s1| |] eqn:E1; simpl.
    + apply range_cascade in E1;
        [|intros k t t' Hk; by apply exec_cascade in Hk as [? _]].
      rewrite (c_ChanName _ _ E1). unfold ChanName. by rewrite Hc.
    + apply (range_no_panic (λ t, wf t ∧ ch < length (chan_heap t))) in E1;
        [done| | |done].
      * intros k t t' [Wt Vt] Hk. apply exec_cascade in Hk as [A _].
        split; [by eapply wf_cascade|]. by rewrite (c_chan_len _ _ A).
      * intros k t [Wt Vt] Hk. apply IH; [done|]. split; [done|].
        by apply (proj1 Wt ch).
    + done.
  - destruct (lookup_lt_is_Some_2 _ _ V) as [nk Hn]. rewrite Hn.
    case_bool_decide as HM; [done|].
    destruct (range _ _ _ s) as [s1| |] eqn:E1; simpl.
    + apply range_cascade in E1;
        [|intros k t t' Hk; by apply exec_cascade in Hk as [? _]].
      rewrite (c_NickName _ _ E1). unfold NickName. by rewrite Hn.
    + apply (range_no_panic (λ t, wf t ∧ n < length (nick_heap t))) in E1;
        [done| | |done].
      * intros k t t' [Wt Vt] Hk. apply exec_cascade in Hk as [A _].
        split; [by eapply wf_cascade|]. by rewrite (c_nick_len _ _ A).
      * intros k t [Wt Vt] Hk. apply IH; [done|]. split; [|done].
        by apply (proj2 Wt n).
    + done.
Qed.

(** In a well-formed store every leave and delete method returns. *)
Lemma exec_returns call s :
  wf s → valid_call call s →
  ∃ s', exec order (fuel_for s) call s = Ok s' ∧ cascade s s' ∧ post call s s'.
Proof.
  intros W V.
  destruct (exec order (fuel_for s) call s) as [s'| |] eqn:E.
  - exists s'. split; [done|]. by eapply exec_cascade.
  - by apply exec_no_panic in E.
  - by apply exec_no_timeout in E; [|apply rank_fuel_for].
Qed.

End no_panic.

(** ** Leaving and deleting *)

Lemma elem_of_keys (m : gmap ptr ptr) k : k ∈ keys m ↔ is_Some (m !! k).
Proof.
  unfold keys. rewrite list_elem_of_fmap. split.
  - intros [[k' x] [-> H]]. apply elem_of_map_to_list in H. by exists x.
  - intros [x H]. exists (k, x). split; [done|]. by apply elem_of_map_to_list.
Qed.

Section leave.
Context (order : gmap ptr ptr → list ptr).

(** C9: the cascade among [Channel.DelNick], [Nick.DelChannel],
    [Channel.Delete] and [Nick.Delete] terminates from every state and
    for every initiating call: with the fuel [fuel_for s] the evaluation
    does not run out, and more fuel does not change its result. *)
Theorem cascade_terminates call s extra :
  exec order (fuel_for s) call s ≠ Timeout ∧
  exec order (fuel_for s + extra) call s = exec order (fuel_for s) call s.
Proof.
  split.
  - apply exec_no_timeout, rank_fuel_for.
  - apply exec_fuel_for. lia.
Qed.

Lemma range_members fuel ch ks s0 s s1 :
  cascade s0 s →
  range (λ s, NicksOf s ch) (λ n, exec order fuel (DelChannel n ch)) ks s
    = Ok s1 →
  ∀ n, n ∈ ks → is_Some (NicksOf s0 ch !! n) → ChannelsOf s1 n !! ch = None.
Proof.
  revert s. induction ks as [|k ks IH]; intros s C H n Hn Hin.
  { by apply elem_of_nil in Hn. }
  simpl in H. case_bool_decide as Hk.
  - destruct (exec order fuel (DelChannel k ch) s) as [s2| |] eqn:E;
      simpl in H; try done.
    pose proof E as E'. apply exec_cascade in E' as [C2 P2]. simpl in P2.
    apply elem_of_cons in Hn as [->|Hn].
    + eapply lookup_weaken_None; [done|].
      eapply c_Channels, range_cascade; [|done].
      intros k' t t' Hk'. by apply exec_cascade in Hk' as [? _].
    + eapply (IH s2); [by eapply cascade_trans|done..].
  - apply elem_of_cons in Hn as [->|Hn].
    + eapply lookup_weaken_None.
      * apply (c_member_gone _ _ C ch k); [done|]. by apply eq_None_not_Some.
      * eapply c_Channels, range_cascade; [|done].
        intros k' t t' Hk'. by apply exec_cascade in Hk' as [? _].
    + by eapply (IH s).
Qed.

(** When [Channel.Delete] returns, no nick that was a member has the
    channel in its map. *)
Lemma ChanDelete_members fuel ch s s' :
  (∀ m, order m ≡ₚ keys m) →
  exec order fuel (ChanDelete ch) s = Ok s' →
  ∀ n, is_Some (NicksOf s ch !! n) → ChannelsOf s' n !! ch = None.
Proof.
  intros Hord H n Hn. destruct fuel as [|fuel]; [done|]. simpl in H.
  destruct (chan_heap s !! ch) as [c|] eqn:Hc; [|done].
  destruct (range _ _ _ s) as [s1| |] eqn:E1; simpl in H; try done.
  destruct (ChanName s1 ch) as [name|]; [|done]. simplify_eq.
  change (ChannelsOf s1 n !! ch = None).
  eapply range_members; [apply cascade_refl | done | | done].
  rewrite Hord. apply elem_of_keys. by rewrite <- (NicksOf_lookup _ _ _ Hc).
Qed.

(** The first turn of [Channel.DelNick] for the local identity. *)
Lemma DelNick_Me ch me s :
  Me s = Some me → is_Some (NicksOf s ch !! me) → is_Some (nick_heap s !! me) →
  Channel_DelNick order ch me s = exec order (fuel_for s) (ChanDelete ch) s.
Proof.
  intros HM Hin [nk Hn]. unfold Channel_DelNick.
  rewrite <- (exec_fuel_for order (S (fuel_for s))) by lia. simpl.
  unfold NicksOf in Hin. destruct (chan_heap s !! ch) as [c|]; simpl in Hin.
  - rewrite bool_decide_eq_true_2 by done. rewrite Hn.
    by rewrite bool_decide_eq_true_2.
  - destruct Hin as [x Hx]. by rewrite lookup_empty in Hx.
Qed.

(** C10: after the local identity leaves a channel through
    [Channel.DelNick], the channel object's member map still holds the
    entry for the local identity, with the record it had, although the
    local identity's channel map no longer holds the channel and the
    channel index no longer holds the channel's name. *)
Theorem self_leave_keeps_own_entry s ch me p name :
  (∀ m, order m ≡ₚ keys m) → wf s →
  Me s = Some me → NicksOf s ch !! me = Some p → ChanName s ch = Some name →
  ∃ s', Channel_DelNick order ch me s = Ok s' ∧
        NicksOf s' ch !! me = Some p ∧
        ChannelsOf s' me !! ch = None ∧
        GetChannel name s' = None.
Proof.
  intros Hord W HM Hin Hname.
  assert (Vn : me < length (nick_heap s)) by (apply (proj1 W ch); eauto).
  assert (Vc : ch < length (chan_heap s)).
  { apply lookup_lt_is_Some. unfold ChanName in Hname.
    by destruct (chan_heap s !! ch). }
  rewrite DelNick_Me by (eauto using lookup_lt_is_Some_2).
  destruct (exec_returns order (ChanDelete ch) s W Vc) as (s' & E & C & P).
  exists s'. split; [done|]. split; [|split].
  - by rewrite (c_Me_stays _ _ C).
  - eapply ChanDelete_members; eauto.
  - by apply P.
Qed.

(** C2: when the local identity leaves a channel C whose members are A,
    B and itself, C's name is no longer in the channel index, neither A
    nor B has C in its channel map, and if C was A's only channel then
    A's name is no longer in the nickname index.  If the indices file
    every object under its own name, no key at all leads to C or to A
    any more. *)
Theorem self_leave_cascade s C c A B me :
  (∀ m, order m ≡ₚ keys m) → wf s →
  Me s = Some me → chan_heap s !! C = Some c →
  dom (Nicks c) = {[A; B; me]} →
  ∃ s', Channel_DelNick order C me s = Ok s' ∧
        GetChannel (ch_Name c) s' = None ∧
        ChannelsOf s' A !! C = None ∧
        ChannelsOf s' B !! C = None ∧
        (∀ k, (∀ k', chans s !! k' = Some C → k' = ch_Name c) →
              GetChannel k s' ≠ Some C) ∧
        (A ≠ me → dom (ChannelsOf s A) = {[C]} →
         ∀ name, NickName s A = Some name →
           GetNick name s' = None ∧
           ∀ k, (∀ k', nicks s !! k' = Some A → k' = name) →
                GetNick k s' ≠ Some A).
Proof.
  intros Hord W HM Hc Hdom.
  assert (Hmem : ∀ n, n ∈ ({[A; B; me]} : gset ptr) → is_Some (NicksOf s C !! n)).
  { intros n Hn. rewrite (NicksOf_lookup _ _ _ Hc), <- elem_of_dom.
    by rewrite Hdom. }
  assert (HmA : is_Some (NicksOf s C !! A)).
  { apply Hmem. do 2 apply elem_of_union_l. by apply elem_of_singleton. }
  assert (HmB : is_Some (NicksOf s C !! B)).
  { apply Hmem. apply elem_of_union_l, elem_of_union_r.
    by apply elem_of_singleton. }
  assert (HmM : is_Some (NicksOf s C !! me)).
  { apply Hmem. apply elem_of_union_r. by apply elem_of_singleton. }
  clear Hmem Hdom.
  assert (Vn : me < length (nick_heap s)) by (by apply (proj1 W C)).
  assert (Vc : C < length (chan_heap s)) by (by eapply lookup_lt_Some).
  rewrite DelNick_Me by (eauto using lookup_lt_is_Some_2).
  destruct (exec_returns order (ChanDelete C) s W Vc) as (s' & E & Cs & P).
  simpl in P.
  assert (Hgone : GetChannel (ch_Name c) s' = None).
  { apply P. unfold ChanName. by rewrite Hc. }
  assert (HA : ChannelsOf s' A !! C = None)
    by (eapply ChanDelete_members; eauto).
  assert (HB : ChannelsOf s' B !! C = None)
    by (eapply ChanDelete_members; eauto).
  exists s'. do 4 (split; [done|]). split.
  - intros k Hidx HC.
    pose proof (lookup_weaken _ _ _ _ HC (c_chans _ _ Cs)) as HC'.
    apply Hidx in HC'. subst k. unfold GetChannel in *. congruence.
  - intros HAme HdA name Hname.
    assert (Hnone : GetNick name s' = None).
    { apply (c_last_channel _ _ Cs A name); [congruence | done | |].
      - intros Heq. rewrite Heq in HA.
        assert (C ∈ dom (ChannelsOf s A)) as HCd
          by (rewrite HdA; by apply elem_of_singleton).
        apply elem_of_dom in HCd as [x Hx]. congruence.
      - apply map_empty. intros ch'.
        destruct (ChannelsOf s' A !! ch') as [x|] eqn:Hx; [|done].
        pose proof (lookup_weaken _ _ _ _ Hx (c_Channels _ _ Cs A)) as Hx'.
        assert (ch' ∈ dom (ChannelsOf s A)) as Hd by (apply elem_of_dom; eauto).
        rewrite HdA in Hd. apply elem_of_singleton in Hd. subst ch'.
        congruence. }
    split; [done|]. intros k Hidx HAk.
    pose proof (lookup_weaken _ _ _ _ HAk (c_nicks _ _ Cs)) as HA'.
    apply Hidx in HA'. subst k. unfold GetNick in *. congruence.
Qed.

End leave.

(** ** Joining and renaming *)

Lemma associate_Ok ch n s c nk :
  chan_heap s !! ch = Some c → nick_heap s !! n = Some nk →
  let p := length (priv_heap s) in
  associate ch n s =
  Ok (set_Channels n (<[ch := p]> (Channels nk))
        (set_Nicks ch (<[n := p]> (Nicks c))
           (set_priv_heap (priv_heap s ++ [new_ChanPrivs]) s))).
Proof.
  intros Hc Hn p. unfold associate. rewrite Hc. fold p.
  set (s1 := set_Nicks _ _ _).
  change (nick_heap s1) with (nick_heap s). rewrite Hn.
  unfold s1. rewrite NicksOf_set_Nicks by (simpl; eauto).
  rewrite decide_True by done. by rewrite lookup_insert_eq.
Qed.

(** C6: joining a pair that is already a member, from either side,
    returns normally, sends exactly one message to the warning sink and
    leaves the whole object graph as it was: both membership maps, the
    shared record they point to and its flags. *)
Theorem duplicate_join_noop s ch n c nk p :
  chan_heap s !! ch = Some c → nick_heap s !! n = Some nk →
  Nicks c !! n = Some p → Channels nk !! ch = Some p →
  ∃ s1 s2,
    Channel_AddNick ch n s = Ok s1 ∧ Nick_AddChannel n ch s = Ok s2 ∧
    graph s1 = graph s ∧ graph s2 = graph s ∧
    Err s1 = (Err s ++ [AddNick_warning (n_Nick nk) (ch_Name c)])%list ∧
    Err s2 = (Err s ++ [AddChannel_warning (ch_Name c) (n_Nick nk)])%list ∧
    NicksOf s1 ch !! n = Some p ∧ ChannelsOf s1 n !! ch = Some p ∧
    NicksOf s2 ch !! n = Some p ∧ ChannelsOf s2 n !! ch = Some p ∧
    priv_heap s1 !! p = priv_heap s !! p ∧ priv_heap s2 !! p = priv_heap s !! p.
Proof.
  intros Hc Hn Hp Hq.
  exists (error (AddNick_warning (n_Nick nk) (ch_Name c)) s),
         (error (AddChannel_warning (ch_Name c) (n_Nick nk)) s).
  unfold Channel_AddNick, Nick_AddChannel. rewrite Hc, Hn.
  rewrite !bool_decide_eq_true_2 by eauto.
  repeat split; unfold NicksOf, ChannelsOf; simpl; by rewrite ?Hc, ?Hn.
Qed.

(** C5: in a state that satisfies the mirroring invariant, joining from
    the channel side and joining from the nick side both return and
    produce the same object graph. *)
Theorem join_sides_agree s ch n :
  mirrored s → is_Some (chan_heap s !! ch) → is_Some (nick_heap s !! n) →
  ∃ s1 s2,
    Channel_AddNick ch n s = Ok s1 ∧ Nick_AddChannel n ch s = Ok s2 ∧
    graph s1 = graph s2.
Proof.
  intros Hm [c Hc] [nk Hn].
  destruct (Hm n ch) as [Hiff _].
  rewrite (NicksOf_lookup _ _ _ Hc), (ChannelsOf_lookup _ _ _ Hn) in Hiff.
  unfold Channel_AddNick, Nick_AddChannel. rewrite Hc, Hn.
  destruct (decide (is_Some (Nicks c !! n))) as [Hin|Hout].
  - rewrite !bool_decide_eq_true_2 by (done || by apply Hiff).
    by eexists _, _.
  - rewrite !bool_decide_eq_false_2 by (done || by rewrite <- Hiff).
    rewrite (associate_Ok _ _ _ _ _ Hc Hn). by eexists _, _.
Qed.

Lemma ReNick_Ok s n nk neu :
  nick_heap s !! n = Some nk →
  Nick_ReNick n neu s =
  Ok (set_nicks (<[neu := n]> (delete (n_Nick nk) (nicks s)))
        (set_nick_heap (alter (with_Nick neu) n (nick_heap s)) s)).
Proof.
  intros Hn. unfold Nick_ReNick. rewrite Hn. simpl.
  by rewrite list_lookup_alter_eq, Hn.
Qed.

(** C7, as amended: renaming a tracked nick to a name other than its
    current one files the same nick object under the new name and
    removes the old name from the index; every other key of the index,
    every membership map, every channel, every privilege record, the
    channel index and the local identity are unchanged, and the nick
    object differs in its name only. *)
Theorem renick_rekeys s n nk neu :
  nick_heap s !! n = Some nk → GetNick (n_Nick nk) s = Some n →
  neu ≠ n_Nick nk →
  ∃ s', Nick_ReNick n neu s = Ok s' ∧
        GetNick neu s' = Some n ∧
        GetNick (n_Nick nk) s' = None ∧
        (∀ k, k ≠ neu → k ≠ n_Nick nk → GetNick k s' = GetNick k s) ∧
        nick_heap s' = <[n := with_Nick neu nk]> (nick_heap s) ∧
        (∀ n', ChannelsOf s' n' = ChannelsOf s n') ∧
        chan_heap s' = chan_heap s ∧ priv_heap s' = priv_heap s ∧
        chans s' = chans s ∧ Me s' = Me s ∧ Err s' = Err s.
Proof.
  intros Hn Htr Hne. eexists. split; [by apply ReNick_Ok|].
  unfold GetNick; simpl. repeat split.
  - apply lookup_insert_eq.
  - rewrite lookup_insert_ne by done. apply lookup_delete_eq.
  - intros k H1 H2. rewrite lookup_insert_ne by done.
    by rewrite lookup_delete_ne.
  - apply list_eq. intros i. destruct (decide (i = n)) as [->|Hi].
    + rewrite list_lookup_alter_eq, Hn.
      rewrite list_lookup_insert_eq; [done | by eapply lookup_lt_Some].
    + rewrite list_lookup_alter_ne by done.
      by rewrite list_lookup_insert_ne.
  - intros n'. unfold ChannelsOf; simpl.
    destruct (decide (n' = n)) as [->|Hi].
    + by rewrite list_lookup_alter_eq, Hn.
    + by rewrite list_lookup_alter_ne.
Qed.

Section silent.
Context (order : gmap ptr ptr → list ptr).

(** C4, as amended: removing a membership that is absent, from either
    side, returns normally and leaves the whole state as it was,
    warning sink included: nothing is signalled. *)
Theorem redundant_removal_silent s ch n :
  is_Some (chan_heap s !! ch) → is_Some (nick_heap s !! n) →
  NicksOf s ch !! n = None → ChannelsOf s n !! ch = None →
  Channel_DelNick order ch n s = Ok s ∧ Nick_DelChannel order n ch s = Ok s.
Proof.
  intros [c Hc] [nk Hn] HN HC.
  rewrite (NicksOf_lookup _ _ _ Hc) in HN.
  rewrite (ChannelsOf_lookup _ _ _ Hn) in HC.
  unfold Channel_DelNick, Nick_DelChannel.
  rewrite <- !(exec_fuel_for order (S (fuel_for s))) by lia. simpl.
  rewrite Hc, Hn, HN, HC.
  by rewrite !bool_decide_eq_false_2 by (by intros [? ?]).
Qed.

End silent.

(** ** Invariants of every run *)

Lemma associate_inv ch n s s' :
  associate ch n s = Ok s' →
  ∃ p,
    is_Some (chan_heap s !! ch) ∧ is_Some (nick_heap s !! n) ∧
    (∀ ch', NicksOf s' ch' =
            if decide (ch' = ch) then <[n := p]> (NicksOf s ch)
            else NicksOf s ch') ∧
    (∀ n', ChannelsOf s' n' =
           if decide (n' = n) then <[ch := p]> (ChannelsOf s n)
           else ChannelsOf s n') ∧
    length (nick_heap s') = length (nick_heap s) ∧
    length (chan_heap s') = length (chan_heap s) ∧
    Me s' = Me s ∧ nicks s' = nicks s ∧ (∀ n', NickName s' n' = NickName s n').
Proof.
  intros H.
  destruct (chan_heap s !! ch) as [c|] eqn:Hc;
    [|by unfold associate in H; rewrite Hc in H].
  destruct (nick_heap s !! n) as [nk|] eqn:Hn; cycle 1.
  { unfold associate in H. rewrite Hc in H. simpl in H. by rewrite Hn in H. }
  rewrite (associate_Ok _ _ _ _ _ Hc Hn) in H. simplify_eq.
  exists (length (priv_heap s)). repeat split; eauto.
  - intros ch'. rewrite (NicksOf_lookup _ _ _ Hc).
    set (s0 := set_priv_heap _ s).
    change (NicksOf (set_Nicks ch (<[n:=length (priv_heap s)]> (Nicks c)) s0) ch'
            = if decide (ch' = ch) then <[n:=length (priv_heap s)]> (Nicks c)
              else NicksOf s0 ch').
    apply NicksOf_set_Nicks. simpl. eauto.
  - intros n'. rewrite (ChannelsOf_lookup _ _ _ Hn).
    rewrite ChannelsOf_set_Channels by (simpl; eauto). done.
  - simpl. apply length_alter.
  - simpl. apply length_alter.
  - intros n'. by rewrite NickName_set_Channels.
Qed.

Lemma wf_associate ch n s s' : associate ch n s = Ok s' → wf s → wf s'.
Proof.
  intros H [W1 W2].
  destruct (associate_inv _ _ _ _ H) as (p & Vc & Vn & HN & HC & Ln & Lc & _).
  apply lookup_lt_is_Some in Vc, Vn. split.
  - intros ch' n'. rewrite HN, Ln. case_decide; [|apply W1].
    destruct (decide (n' = n)) as [->|Hne]; [done|].
    rewrite lookup_insert_ne by done. apply W1.
  - intros n' ch'. rewrite HC, Lc. case_decide; [|apply W2].
    destruct (decide (ch' = ch)) as [->|Hne]; [done|].
    rewrite lookup_insert_ne by done. apply W2.
Qed.

Lemma mirrored_associate ch n s s' :
  associate ch n s = Ok s' → mirrored_but_Me s → mirrored_but_Me s'.
Proof.
  intros H [M1 M2].
  destruct (associate_inv _ _ _ _ H) as (p & _ & _ & HN & HC & _ & _ & HM & _).
  split.
  - intros n' ch' q. rewrite HN, HC.
    destruct (decide (n' = n)) as [->|Hn], (decide (ch' = ch)) as [->|Hc];
      rewrite ?lookup_insert_eq, ?lookup_insert_ne by done; try done.
    + apply M1.
    + apply M1.
    + apply M1.
  - intros ch' n' q. rewrite HN, HC, HM.
    destruct (decide (n' = n)) as [->|Hn], (decide (ch' = ch)) as [->|Hc];
      rewrite ?lookup_insert_eq, ?lookup_insert_ne by done; try done.
    + apply M2.
    + apply M2.
    + apply M2.
Qed.

(** Operations that leave every membership map as it is. *)
Lemma wf_frame s s' :
  length (nick_heap s) ≤ length (nick_heap s') →
  length (chan_heap s) ≤ length (chan_heap s') →
  (∀ ch, NicksOf s' ch = NicksOf s ch) →
  (∀ n, ChannelsOf s' n = ChannelsOf s n) →
  wf s → wf s'.
Proof.
  intros Ln Lc HN HC [W1 W2]. split.
  - intros ch n. rewrite HN. intros H. apply W1 in H. lia.
  - intros n ch. rewrite HC. intros H. apply W2 in H. lia.
Qed.

Lemma mirrored_frame s s' :
  (∀ ch, NicksOf s' ch = NicksOf s ch) →
  (∀ n, ChannelsOf s' n = ChannelsOf s n) →
  Me s' = Me s →
  mirrored_but_Me s → mirrored_but_Me s'.
Proof.
  intros HN HC HM [M1 M2]. split.
  - intros n ch p. rewrite HN, HC. apply M1.
  - intros ch n p. rewrite HN, HC, HM. apply M2.
Qed.

Lemma mirrored_cascade s s' :
  cascade s s' → mirrored_but_Me s → mirrored_but_Me s'.
Proof.
  intros C [M1 M2]. split.
  - intros n ch p Hp.
    pose proof (lookup_weaken _ _ _ _ Hp (c_Channels _ _ C n)) as Hp'.
    apply M1 in Hp'.
    destruct (NicksOf s' ch !! n) as [q|] eqn:Hq.
    + pose proof (lookup_weaken _ _ _ _ Hq (c_Nicks _ _ C ch)). congruence.
    + pose proof (c_member_gone _ _ C ch n (mk_is_Some _ _ Hp') Hq). congruence.
  - intros ch n p Hp HM. rewrite (c_Me _ _ C) in HM.
    pose proof (lookup_weaken _ _ _ _ Hp (c_Nicks _ _ C ch)) as Hp'.
    apply M2 in Hp'; [|done].
    destruct (ChannelsOf s' n !! ch) as [q|] eqn:Hq.
    + pose proof (lookup_weaken _ _ _ _ Hq (c_Channels _ _ C n)). congruence.
    + destruct (c_channel_gone _ _ C n ch (mk_is_Some _ _ Hp') Hq); congruence.
Qed.

Lemma lookup_snoc_default {A B} (f : A → B) (d : B) (l : list A) (x : A) i :
  f x = d →
  from_option f d ((l ++ [x])%list !! i) = from_option f d (l !! i).
Proof.
  intros Hx. destruct (decide (i < length l)) as [Hi|Hi].
  - by rewrite lookup_app_l.
  - rewrite (lookup_ge_None_2 l) by lia.
    destruct (decide (i = length l)) as [->|Hne].
    + rewrite lookup_app_r by lia. by rewrite Nat.sub_diag.
    + rewrite lookup_ge_None_2; [done|]. rewrite length_app. simpl. lia.
Qed.

Section runs.
Context (order : gmap ptr ptr → list ptr).

Lemma step_maps op s s' :
  step order op s = Ok s' → wf s ∧ mirrored_but_Me s → wf s' ∧ mirrored_but_Me s'.
Proof.
  intros H [W M].
  destruct op as [nick ident name host|c|ch n|n ch|ch n|n ch|n neu|ch|n];
    simpl in H.
  - simplify_eq.
    assert (HC : ∀ n, ChannelsOf (NewNick nick ident name host s).1 n
                      = ChannelsOf s n)
      by (intros; by apply lookup_snoc_default).
    split; [apply (wf_frame s) | apply (mirrored_frame s)]; try done.
    simpl. rewrite length_app. lia.
  - simplify_eq.
    assert (HN : ∀ ch, NicksOf (NewChannel c s).1 ch = NicksOf s ch)
      by (intros; by apply lookup_snoc_default).
    split; [apply (wf_frame s) | apply (mirrored_frame s)]; try done.
    simpl. rewrite length_app. lia.
  - unfold Channel_AddNick in H.
    destruct (chan_heap s !! ch) as [c|]; [|done].
    case_bool_decide.
    + destruct (nick_heap s !! n); [|done]. by simplify_eq.
    + split; [by eapply wf_associate | by eapply mirrored_associate].
  - unfold Nick_AddChannel in H.
    destruct (nick_heap s !! n) as [nk|]; [|done].
    case_bool_decide.
    + destruct (chan_heap s !! ch); [|done]. by simplify_eq.
    + split; [by eapply wf_associate | by eapply mirrored_associate].
  - apply exec_cascade in H as [C _].
    split; [by eapply wf_cascade | by eapply mirrored_cascade].
  - apply exec_cascade in H as [C _].
    split; [by eapply wf_cascade | by eapply mirrored_cascade].
  - destruct (nick_heap s !! n) as [nk|] eqn:Hn;
      [|by unfold Nick_ReNick in H; rewrite Hn in H].
    rewrite (ReNick_Ok _ _ _ _ Hn) in H. simplify_eq.
    assert (HC : ∀ n', from_option Channels ∅
                         (alter (with_Nick neu) n (nick_heap s) !! n')
                       = ChannelsOf s n').
    { intros n'. unfold ChannelsOf. destruct (decide (n' = n)) as [->|Hi].
      - by rewrite list_lookup_alter_eq, Hn.
      - by rewrite list_lookup_alter_ne. }
    split; [apply (wf_frame s) | apply (mirrored_frame s)]; try done.
    simpl. by rewrite length_alter.
  - apply exec_cascade in H as [C _].
    split; [by eapply wf_cascade | by eapply mirrored_cascade].
  - apply exec_cascade in H as [C _].
    split; [by eapply wf_cascade | by eapply mirrored_cascade].
Qed.

Lemma run_maps ops s s' :
  run order ops s = Ok s' → wf s ∧ mirrored_but_Me s → wf s' ∧ mirrored_but_Me s'.
Proof.
  revert s. induction ops as [|op ops IH]; intros s H I; simpl in H.
  - by simplify_eq.
  - destruct (step order op s) as [s1| |] eqn:E; simpl in H; try done.
    eapply IH; [done|]. by eapply step_maps.
Qed.

End runs.

Lemma wf_empty_store : wf empty_store ∧ mirrored_but_Me empty_store.
Proof.
  split; [split|split].
  - intros ch n [x Hx]. unfold NicksOf in Hx.
    cbn [chan_heap nick_heap empty_store] in Hx.
    rewrite lookup_nil in Hx. simpl in Hx. by rewrite lookup_empty in Hx.
  - intros n ch [x Hx]. unfold ChannelsOf in Hx.
    cbn [chan_heap nick_heap empty_store] in Hx.
    rewrite lookup_nil in Hx. simpl in Hx. by rewrite lookup_empty in Hx.
  - intros n ch p Hp. unfold ChannelsOf in Hp.
    cbn [chan_heap nick_heap empty_store] in Hp.
    rewrite lookup_nil in Hp. simpl in Hp. by rewrite lookup_empty in Hp.
  - intros ch n p Hp. unfold NicksOf in Hp.
    cbn [chan_heap nick_heap empty_store] in Hp.
    rewrite lookup_nil in Hp. simpl in Hp. by rewrite lookup_empty in Hp.
Qed.

Lemma wf_New nick user name :
  wf (New nick user name) ∧ mirrored_but_Me (New nick user name).
Proof.
  change (New nick user name)
    with (set_Me (Some 0) (NewNick nick user name "unknown" empty_store).1).
  set (s1 := (NewNick nick user name "unknown" empty_store).1).
  destruct (step_maps keys (OpNewNick nick user name "unknown") empty_store s1
              eq_refl wf_empty_store) as [W [M1 M2]].
  split; [by apply (wf_frame s1)|]. split.
  - intros n ch p. apply M1.
  - intros ch n p Hp _. by apply M2.
Qed.

(** ** The local identity and the nickname index *)

Lemma NickName_lt s n name : NickName s n = Some name → n < length (nick_heap s).
Proof.
  unfold NickName. intros H. apply lookup_lt_is_Some.
  by destruct (nick_heap s !! n).
Qed.

Section Me_runs.
Context (order : gmap ptr ptr → list ptr).

Lemma Me_tracked_cascade s s' :
  cascade s s' → Me_name_unique s → Me_tracked s → Me_tracked s'.
Proof.
  intros C U (me & name & HM & HN & HI). exists me, name.
  rewrite (c_Me _ _ C), (c_NickName _ _ C). split; [done|]. split; [done|].
  unfold GetNick in *.
  destruct (nicks s' !! name) as [x|] eqn:Hx.
  - pose proof (lookup_weaken _ _ _ _ Hx (c_nicks _ _ C)). congruence.
  - destruct (c_name_gone _ _ C name (mk_is_Some _ _ HI) Hx) as (n & Hn & Hnn).
    rewrite (U me name n HM HN Hnn) in Hn. done.
Qed.

Lemma step_Me_tracked op s s' :
  step order op s = Ok s' →
  Me_name_unique s → Me_name_unique s' → Me_tracked s → Me_tracked s'.
Proof.
  intros H U U' T.
  destruct op as [nick ident name host|c|ch n|n ch|ch n|n ch|n neu|ch|n];
    simpl in H.
  - simplify_eq. destruct T as (me & nm & HM & HN & HI).
    pose proof (NickName_lt _ _ _ HN) as Hlt.
    assert (HN' : NickName (NewNick nick ident name host s).1 me = Some nm).
    { unfold NickName in *. simpl. by rewrite lookup_app_l. }
    exists me, nm. split; [done|]. split; [done|].
    unfold GetNick in *. simpl.
    destruct (decide (nick = nm)) as [->|Hne]; [|by rewrite lookup_insert_ne].
    assert (length (nick_heap s) = me); [|lia].
    apply (U' me nm); try done.
    unfold NickName. simpl. rewrite lookup_app_r by lia.
    by rewrite Nat.sub_diag.
  - by simplify_eq.
  - unfold Channel_AddNick in H.
    destruct (chan_heap s !! ch) as [c|]; [|done].
    case_bool_decide.
    + destruct (nick_heap s !! n); [|done]. by simplify_eq.
    + destruct (associate_inv _ _ _ _ H) as (p & _ & _ & _ & _ & _ & _ & HM & HI & HN).
      destruct T as (me & nm & T1 & T2 & T3). exists me, nm.
      unfold GetNick. by rewrite HM, HI, HN.
  - unfold Nick_AddChannel in H.
    destruct (nick_heap s !! n) as [nk|]; [|done].
    case_bool_decide.
    + destruct (chan_heap s !! ch); [|done]. by simplify_eq.
    + destruct (associate_inv _ _ _ _ H) as (p & _ & _ & _ & _ & _ & _ & HM & HI & HN).
      destruct T as (me & nm & T1 & T2 & T3). exists me, nm.
      unfold GetNick. by rewrite HM, HI, HN.
  - apply exec_cascade in H as [C _]. by eapply Me_tracked_cascade.
  - apply exec_cascade in H as [C _]. by eapply Me_tracked_cascade.
  - destruct (nick_heap s !! n) as [nk|] eqn:Hn;
      [|by unfold Nick_ReNick in H; rewrite Hn in H].
    rewrite (ReNick_Ok _ _ _ _ Hn) in H.
    destruct T as (me & nm & HM & HN & HI).
    assert (HN' : ∀ n', NickName s' n' =
                        if decide (n' = n) then Some neu else NickName s n').
    { intros n'. simplify_eq. unfold NickName. simpl. case_decide; subst.
      - by rewrite list_lookup_alter_eq, Hn.
      - by rewrite list_lookup_alter_ne. }
    assert (HM' : Me s' = Me s) by (by simplify_eq).
    assert (HI' : nicks s' = <[neu := n]> (delete (n_Nick nk) (nicks s)))
      by (by simplify_eq).
    clear H. unfold GetNick in *.
    destruct (decide (me = n)) as [->|Hme].
    + exists n, neu. unfold GetNick. rewrite HM', HN', HI', decide_True by done.
      by rewrite lookup_insert_eq.
    + exists me, nm. unfold GetNick. rewrite HM', HN', HI', decide_False by done.
      split; [done|]. split; [done|].
      assert (HN2 : NickName s' me = Some nm)
        by (by rewrite HN', decide_False).
      rewrite lookup_insert_ne, lookup_delete_ne; [done| |].
      * intros <-. apply Hme. symmetry. apply (U me (n_Nick nk)); try done.
        unfold NickName. by rewrite Hn.
      * intros <-. apply Hme. symmetry. apply (U' me neu); try done.
        -- by rewrite HM'.
        -- by rewrite HN', decide_True.
  - apply exec_cascade in H as [C _]. by eapply Me_tracked_cascade.
  - apply exec_cascade in H as [C _]. by eapply Me_tracked_cascade.
Qed.

Lemma along_head P ops s : along order P ops s → P s.
Proof. destruct ops; simpl; tauto. Qed.

Lemma along_cons (P : State → Prop) op ops s s1 :
  P s → step order op s = Ok s1 → along order P ops s1 →
  along order P (op :: ops) s.
Proof. intros HP E H. simpl. by rewrite E. Qed.

(** C3, as amended: over every sequence of create, join, leave, rename
    and delete operations during which no other nick object carries the
    local identity's name, the local identity stays in the nickname
    index under its current name, whatever its channel count and
    whatever is destroyed around it. *)
Theorem Me_stays_tracked ops s s' :
  Me_tracked s → along order Me_name_unique ops s →
  run order ops s = Ok s' → Me_tracked s'.
Proof.
  revert s. induction ops as [|op ops IH]; intros s T A H; simpl in H.
  - by simplify_eq.
  - destruct (step order op s) as [s1| |] eqn:E; simpl in H; try done.
    destruct A as [U A]. rewrite E in A.
    apply (IH s1); [|done..].
    eapply step_Me_tracked; [done | done | | done].
    by eapply along_head.
Qed.

(** C1, as amended: after every sequence of create, join, leave, rename
    and delete operations on the store of a fresh connection (or on the
    empty store, before the local identity exists), a nick's entry for a
    channel is mirrored by the channel's entry for the nick with the
    same record, and a channel's entry for a nick is mirrored by the
    nick's entry for the channel with the same record unless the nick is
    the local identity. *)
Theorem mirroring_after_every_run ops nick user name s' :
  run order ops (New nick user name) = Ok s' ∨ run order ops empty_store = Ok s' →
  mirrored_but_Me s'.
Proof.
  intros [H|H].
  - by apply (run_maps order _ _ _ H (wf_New nick user name)).
  - by apply (run_maps order _ _ _ H wf_empty_store).
Qed.

End Me_runs.

(** ** The theorems at work, and where the specification overshoots *)

Lemma keys_order : ∀ m, keys m ≡ₚ keys m.
Proof. done. Qed.

Lemma busy_run : run keys three_join fresh = Ok busy.
Proof. vm_compute. reflexivity. Qed.

Lemma busy_wf : wf busy.
Proof. exact (proj1 (run_maps keys _ _ _ busy_run (wf_New _ _ _))). Qed.

Lemma lonely_wf : wf lonely.
Proof.
  exact (proj1 (step_maps keys (OpNewChannel "#c") fresh lonely eq_refl
                  (wf_New _ _ _))).
Qed.

Lemma mirrored_no_members s :
  Forall (λ c, Nicks c = ∅) (chan_heap s) →
  Forall (λ n, Channels n = ∅) (nick_heap s) →
  mirrored s.
Proof.
  intros HN HC.
  assert (EN : ∀ ch, NicksOf s ch = ∅).
  { intros ch. unfold NicksOf. destruct (chan_heap s !! ch) as [c|] eqn:E;
      [|done]. by apply (Forall_lookup_1 _ _ _ _ HN E). }
  assert (EC : ∀ n, ChannelsOf s n = ∅).
  { intros n. unfold ChannelsOf. destruct (nick_heap s !! n) as [c|] eqn:E;
      [|done]. by apply (Forall_lookup_1 _ _ _ _ HC E). }
  intros n ch. rewrite EN, EC, !lookup_empty. split; [done|]. congruence.
Qed.

(** Witness of C2: "me" leaves "#c", where "a" and "b" are too. *)
Lemma self_leave_cascade_busy :
  ∃ s', Channel_DelNick keys 0 0 busy = Ok s' ∧
        GetChannel "#c" s' = None ∧
        ChannelsOf s' 1 !! 0 = None ∧ ChannelsOf s' 2 !! 0 = None ∧
        GetNick "a" s' = None.
Proof.
  edestruct self_leave_cascade
    with (order := keys) (s := busy) (C := 0) (A := 1) (B := 2) (me := 0)
    as (s' & E & H1 & H2 & H3 & _ & H5).
  - apply keys_order.
  - apply busy_wf.
  - vm_compute. reflexivity.
  - vm_compute. reflexivity.
  - vm_compute. reflexivity.
  - exists s'. repeat split; try done.
    apply H5; [lia | vm_compute; reflexivity | vm_compute; reflexivity].
Defined.

(** Witness of C10: the same leave, seen from the destroyed channel. *)
Lemma self_leave_keeps_own_entry_busy :
  ∃ s', Channel_DelNick keys 0 0 busy = Ok s' ∧
        NicksOf s' 0 !! 0 = Some 0 ∧ ChannelsOf s' 0 !! 0 = None ∧
        GetChannel "#c" s' = None.
Proof.
  apply (self_leave_keeps_own_entry keys busy 0 0 0 "#c" keys_order busy_wf);
    vm_compute; reflexivity.
Defined.

(** Witness of C1: a join from each side, then a leave from each side. *)
Lemma mirroring_after_a_run :
  ∃ s', run keys (three_join ++ [OpDelNick 0 1; OpDelChannel 0 0]) fresh = Ok s' ∧
        mirrored_but_Me s'.
Proof.
  eexists. split; [vm_compute; reflexivity|].
  eapply (mirroring_after_every_run keys
            (three_join ++ [OpDelNick 0 1; OpDelChannel 0 0]) "me" "user" "name").
  left. vm_compute. reflexivity.
Defined.

(** C1 fails as stated: once the local identity has joined and left a
    channel, the channel object still lists it while its own map no
    longer lists the channel. *)
Lemma mirroring_broken_by_self_leave :
  ¬ ∀ order ops s', run order ops fresh = Ok s' → mirrored s'.
Proof.
  intros H.
  pose (ops := [OpNewChannel "#c"; OpAddNick 0 0; OpDelNick 0 0]).
  destruct (run keys ops fresh) as [s'| |] eqn:E;
    [|vm_compute in E; discriminate..].
  destruct (H keys ops s' E 0 0) as [[Hlr _] _].
  vm_compute in E. injection E as <-.
  destruct Hlr as [x Hx]; [by exists 0|].
  vm_compute in Hx. discriminate.
Qed.

Lemma Me_name_unique_alone s :
  length (nick_heap s) = 1 → Me s = Some 0 → Me_name_unique s.
Proof.
  intros L HM me name n HM' _ Hn. apply NickName_lt in Hn.
  rewrite HM in HM'. simplify_eq. lia.
Qed.

(** Witness of C3: the local identity joins a channel and leaves it,
    which destroys the channel and brings its own count to zero. *)
Lemma Me_stays_tracked_alone :
  ∃ s', run keys [OpNewChannel "#c"; OpAddNick 0 0; OpDelNick 0 0] fresh = Ok s' ∧
        Me_tracked s'.
Proof.
  eexists. split; [vm_compute; reflexivity|].
  eapply (Me_stays_tracked keys
            [OpNewChannel "#c"; OpAddNick 0 0; OpDelNick 0 0] fresh).
  - exists 0, "me". repeat split; vm_compute; reflexivity.
  - eapply along_cons;
      [by apply Me_name_unique_alone | vm_compute; reflexivity|].
    eapply along_cons;
      [by apply Me_name_unique_alone | vm_compute; reflexivity|].
    eapply along_cons;
      [by apply Me_name_unique_alone | vm_compute; reflexivity|].
    split; [by apply Me_name_unique_alone | done].
  - vm_compute. reflexivity.
Defined.

(** C3 fails as stated: a nick renamed to the local identity's name
    takes over its index entry, and deleting that nick then removes the
    entry. *)
Lemma Me_displaced_by_namesake :
  ¬ ∀ order ops s', run order ops fresh = Ok s' → Me_tracked s'.
Proof.
  intros H.
  pose (ops := [OpNewNick "a" "a" "A" "host"; OpReNick 1 "me"; OpNickDelete 1]).
  destruct (run keys ops fresh) as [s'| |] eqn:E;
    [|vm_compute in E; discriminate..].
  destruct (H keys ops s' E) as (me & name & H1 & H2 & H3).
  vm_compute in E. injection E as <-.
  vm_compute in H1. injection H1 as <-.
  vm_compute in H2. injection H2 as <-.
  vm_compute in H3. discriminate.
Qed.

(** Witness of C4: nobody is in "#c", and "me" is removed from it. *)
Lemma redundant_removal_silent_lonely :
  Channel_DelNick keys 0 0 lonely = Ok lonely ∧
  Nick_DelChannel keys 0 0 lonely = Ok lonely.
Proof.
  apply (redundant_removal_silent keys lonely 0 0).
  - by eexists.
  - by eexists.
  - vm_compute. reflexivity.
  - vm_compute. reflexivity.
Defined.

(** C4 fails as stated: removing an absent membership sends nothing to
    the warning sink, from either side. *)
Lemma redundant_removal_not_warned :
  ¬ ∀ order s ch n s',
      is_Some (chan_heap s !! ch) → is_Some (nick_heap s !! n) →
      NicksOf s ch !! n = None → ChannelsOf s n !! ch = None →
      Channel_DelNick order ch n s = Ok s' ∨ Nick_DelChannel order n ch s = Ok s' →
      graph s' = graph s ∧ warned s s'.
Proof.
  intros H.
  destruct (H keys lonely 0 0 lonely) as [_ [w Hw]].
  - by eexists.
  - by eexists.
  - vm_compute. reflexivity.
  - vm_compute. reflexivity.
  - left. vm_compute. reflexivity.
  - vm_compute in Hw. discriminate.
Qed.

(** Witness of C5: "me" joins "#c" in a store without memberships. *)
Lemma join_sides_agree_lonely :
  ∃ s1 s2,
    Channel_AddNick 0 0 lonely = Ok s1 ∧ Nick_AddChannel 0 0 lonely = Ok s2 ∧
    graph s1 = graph s2.
Proof.
  apply (join_sides_agree lonely 0 0).
  - apply mirrored_no_members; repeat constructor.
  - by eexists.
  - by eexists.
Defined.

(** Witness of C6: "a" is in "#c" and joins it again. *)
Lemma duplicate_join_noop_busy :
  ∃ s1 s2,
    Channel_AddNick 0 1 busy = Ok s1 ∧ Nick_AddChannel 1 0 busy = Ok s2 ∧
    graph s1 = graph busy ∧ graph s2 = graph busy.
Proof.
  edestruct duplicate_join_noop with (s := busy) (ch := 0) (n := 1)
    as (s1 & s2 & H1 & H2 & H3 & H4 & _).
  - vm_compute. reflexivity.
  - vm_compute. reflexivity.
  - vm_compute. reflexivity.
  - vm_compute. reflexivity.
  - by exists s1, s2.
Defined.

(** Witness of C7: "a" becomes "z". *)
Lemma renick_rekeys_busy :
  ∃ s', Nick_ReNick 1 "z" busy = Ok s' ∧
        GetNick "z" s' = Some 1 ∧ GetNick "a" s' = None ∧
        ChannelsOf s' 1 = ChannelsOf busy 1 ∧ chan_heap s' = chan_heap busy.
Proof.
  edestruct renick_rekeys with (s := busy) (n := 1) (neu := "z")
    as (s' & E & H1 & H2 & _ & _ & H3 & H4 & _).
  - vm_compute. reflexivity.
  - vm_compute. reflexivity.
  - discriminate.
  - exists s'. by repeat split.
Defined.

(** C7 fails as stated: a rename to the name the nick already has
    leaves that name resolvable. *)
Lemma renick_to_same_name :
  ¬ ∀ s n nk neu s',
      nick_heap s !! n = Some nk → GetNick (n_Nick nk) s = Some n →
      Nick_ReNick n neu s = Ok s' →
      GetNick neu s' = Some n ∧ GetNick (n_Nick nk) s' = None.
Proof.
  intros H.
  destruct (Nick_ReNick 0 "me" fresh) as [s'| |] eqn:E;
    [|vm_compute in E; discriminate..].
  edestruct H with (s := fresh) (n := 0) (neu := "me") (s' := s') as [_ H2];
    [reflexivity | | exact E |].
  - vm_compute. reflexivity.
  - vm_compute in E. injection E as <-. vm_compute in H2. discriminate.
Qed.

(** ** The cascade, one turn at a time *)

Lemma range_skip cur body ks s :
  (∀ k, k ∈ ks → cur s !! k = None) → range cur body ks s = Ok s.
Proof.
  induction ks as [|k ks IH]; intros H; [done|]. simpl.
  rewrite bool_decide_eq_false_2.
  - apply IH. intros k' Hk'. apply H. by right.
  - rewrite H by (by left). by intros [? ?].
Qed.

Section turns.
Context (order : gmap ptr ptr → list ptr).

Lemma exec_DelNick_absent fuel ch n s :
  is_Some (chan_heap s !! ch) → NicksOf s ch !! n = None →
  exec order (S fuel) (DelNick ch n) s = Ok s.
Proof.
  intros [c Hc] H. rewrite (NicksOf_lookup _ _ _ Hc) in H. simpl.
  rewrite Hc, bool_decide_eq_false_2; [done|]. rewrite H. by intros [? ?].
Qed.

Lemma exec_DelChannel_absent fuel n ch s :
  is_Some (nick_heap s !! n) → ChannelsOf s n !! ch = None →
  exec order (S fuel) (DelChannel n ch) s = Ok s.
Proof.
  intros [nk Hn] H. rewrite (ChannelsOf_lookup _ _ _ Hn) in H. simpl.
  rewrite Hn, bool_decide_eq_false_2; [done|]. rewrite H. by intros [? ?].
Qed.

Lemma exec_DelNick_other fuel ch n s :
  is_Some (NicksOf s ch !! n) → is_Some (nick_heap s !! n) → Me s ≠ Some n →
  exec order (S fuel) (DelNick ch n) s =
  exec order fuel (DelChannel n ch) (set_Nicks ch (delete n (NicksOf s ch)) s).
Proof.
  intros Hin [nk Hn] HM. simpl. destruct (chan_heap s !! ch) as [c|] eqn:Hc.
  - rewrite (NicksOf_lookup _ _ _ Hc) in *.
    rewrite bool_decide_eq_true_2 by done. rewrite Hn.
    by rewrite bool_decide_eq_false_2.
  - unfold NicksOf in Hin. rewrite Hc in Hin. simpl in Hin.
    destruct Hin as [x Hx]. by rewrite lookup_empty in Hx.
Qed.

Lemma exec_DelChannel_present fuel n ch s :
  is_Some (ChannelsOf s n !! ch) →
  exec order (S fuel) (DelChannel n ch) s =
  (s1 ← exec order fuel (DelNick ch n)
          (set_Channels n (delete ch (ChannelsOf s n)) s);
   if bool_decide (size (ChannelsOf s1 n) = 0) then
     exec order fuel (NickDelete n) s1
   else Ok s1).
Proof.
  intros Hin. simpl. destruct (nick_heap s !! n) as [nk|] eqn:Hn.
  - rewrite (ChannelsOf_lookup _ _ _ Hn) in *.
    by rewrite bool_decide_eq_true_2.
  - unfold ChannelsOf in Hin. rewrite Hn in Hin. simpl in Hin.
    destruct Hin as [x Hx]. by rewrite lookup_empty in Hx.
Qed.

Lemma exec_NickDelete_no_channels fuel n name s :
  NickName s n = Some name → Me s ≠ Some n → ChannelsOf s n = ∅ →
  exec order (S fuel) (NickDelete n) s = Ok (set_nicks (delete name (nicks s)) s).
Proof.
  intros Hname HM He. simpl. unfold NickName in Hname.
  destruct (nick_heap s !! n) as [nk|] eqn:Hn; [|done].
  simpl in Hname. simplify_eq.
  rewrite bool_decide_eq_false_2 by done.
  rewrite range_skip; [simpl|].
  - unfold NickName. by rewrite Hn.
  - intros k _. by rewrite He, lookup_empty.
Qed.

End turns.

(** ** Leaving, exactly *)

Section leave_exact.
Context (order : gmap ptr ptr → list ptr).

Lemma fuel_for_4 s : fuel_for s = S (S (S (S (4 * entries s)))).
Proof. unfold fuel_for. lia. Qed.

Lemma left_tail fuel ch n s :
  is_Some (nick_heap s !! n) → Me s ≠ Some n →
  let s2 := set_Channels n (delete ch (ChannelsOf s n))
              (set_Nicks ch (delete n (NicksOf s ch)) s) in
  (if bool_decide (size (ChannelsOf s2 n) = 0) then
     exec order (S fuel) (NickDelete n) s2
   else Ok s2) = Ok (after_leave ch n s).
Proof.
  intros [nk Hn] HM s2. unfold after_leave. fold s2.
  assert (Hname : NickName s n = Some (n_Nick nk))
    by (unfold NickName; by rewrite Hn).
  rewrite Hname. case_bool_decide as Hsz; [|done].
  apply exec_NickDelete_no_channels; [|done|by apply map_size_empty_inv].
  unfold s2. by rewrite NickName_set_Channels.
Qed.

Lemma DelNick_left ch n s :
  is_Some (NicksOf s ch !! n) → is_Some (ChannelsOf s n !! ch) →
  is_Some (nick_heap s !! n) → is_Some (chan_heap s !! ch) →
  Me s ≠ Some n →
  Channel_DelNick order ch n s = Ok (after_leave ch n s).
Proof.
  intros HN HC Vn Vc HM. unfold Channel_DelNick. rewrite fuel_for_4.
  rewrite exec_DelNick_other by done.
  set (s1 := set_Nicks ch (delete n (NicksOf s ch)) s).
  rewrite exec_DelChannel_present by done.
  change (ChannelsOf s1 n) with (ChannelsOf s n).
  set (s2 := set_Channels n (delete ch (ChannelsOf s n)) s1).
  rewrite exec_DelNick_absent; cycle 1.
  { simpl. destruct Vc as [c Hc]. rewrite list_lookup_alter_eq, Hc. by eexists. }
  { change (NicksOf s2 ch) with (NicksOf s1 ch). unfold s1.
    rewrite NicksOf_set_Nicks by done. rewrite decide_True by done.
    apply lookup_delete_eq. }
  cbn [bind]. by apply left_tail.
Qed.

Lemma DelChannel_left n ch s :
  is_Some (NicksOf s ch !! n) → is_Some (ChannelsOf s n !! ch) →
  is_Some (nick_heap s !! n) → is_Some (chan_heap s !! ch) →
  Me s ≠ Some n →
  Nick_DelChannel order n ch s = Ok (after_leave ch n s).
Proof.
  intros HN HC Vn Vc HM. unfold Nick_DelChannel. rewrite fuel_for_4.
  rewrite exec_DelChannel_present by done.
  set (s1 := set_Channels n (delete ch (ChannelsOf s n)) s).
  rewrite exec_DelNick_other; [|done| |done]; cycle 1.
  { simpl. destruct Vn as [nk Hn]. rewrite list_lookup_alter_eq, Hn.
    by eexists. }
  change (NicksOf s1 ch) with (NicksOf s ch).
  set (s2 := set_Nicks ch (delete n (NicksOf s ch)) s1).
  rewrite exec_DelChannel_absent; cycle 1.
  { simpl. destruct Vn as [nk Hn]. rewrite list_lookup_alter_eq, Hn.
    by eexists. }
  { change (ChannelsOf s2 n) with (ChannelsOf s1 n). unfold s1.
    rewrite ChannelsOf_set_Channels by done. rewrite decide_True by done.
    apply lookup_delete_eq. }
  cbn [bind]. by apply (left_tail _ ch n s).
Qed.

Lemma is_Some_NicksOf s ch n :
  is_Some (NicksOf s ch !! n) → is_Some (chan_heap s !! ch).
Proof.
  unfold NicksOf. destruct (chan_heap s !! ch); [by eexists|].
  simpl. rewrite lookup_empty. by intros [? ?].
Qed.

Lemma is_Some_ChannelsOf s n ch :
  is_Some (ChannelsOf s n !! ch) → is_Some (nick_heap s !! n).
Proof.
  unfold ChannelsOf. destruct (nick_heap s !! n); [by eexists|].
  simpl. rewrite lookup_empty. by intros [? ?].
Qed.

End leave_exact.

(** ** More invariants of every run *)

Lemma associate_state ch n s s' :
  associate ch n s = Ok s' →
  ∃ c nk,
    chan_heap s !! ch = Some c ∧ nick_heap s !! n = Some nk ∧
    s' = set_Channels n (<[ch := length (priv_heap s)]> (Channels nk))
           (set_Nicks ch (<[n := length (priv_heap s)]> (Nicks c))
              (set_priv_heap (priv_heap s ++ [new_ChanPrivs]) s)).
Proof.
  intros H.
  destruct (chan_heap s !! ch) as [c|] eqn:Hc;
    [|by unfold associate in H; rewrite Hc in H].
  destruct (nick_heap s !! n) as [nk|] eqn:Hn; cycle 1.
  { unfold associate in H. rewrite Hc in H. simpl in H. by rewrite Hn in H. }
  rewrite (associate_Ok _ _ _ _ _ Hc Hn) in H. simplify_eq. by exists c, nk.
Qed.

(** What [associate] does to every part of the store. *)
Lemma associate_fields ch n s s' :
  associate ch n s = Ok s' →
  let p := length (priv_heap s) in
  is_Some (chan_heap s !! ch) ∧ is_Some (nick_heap s !! n) ∧
  (∀ ch', NicksOf s' ch' =
          if decide (ch' = ch) then <[n := p]> (NicksOf s ch)
          else NicksOf s ch') ∧
  (∀ n', ChannelsOf s' n' =
         if decide (n' = n) then <[ch := p]> (ChannelsOf s n)
         else ChannelsOf s n') ∧
  priv_heap s' = (priv_heap s ++ [new_ChanPrivs])%list ∧
  (∀ n', NickName s' n' = NickName s n') ∧
  (∀ ch', ChanName s' ch' = ChanName s ch') ∧
  nicks s' = nicks s ∧ chans s' = chans s ∧ Me s' = Me s ∧ Err s' = Err s.
Proof.
  intros H p. destruct (associate_state _ _ _ _ H) as (c & nk & Hc & Hn & ->).
  split; [eauto|]. split; [eauto|]. split; [|split]; [| |repeat split].
  - intros ch'. rewrite (NicksOf_lookup _ _ _ Hc).
    set (s0 := set_priv_heap _ s).
    change (NicksOf (set_Nicks ch (<[n:=p]> (Nicks c)) s0) ch'
            = if decide (ch' = ch) then <[n:=p]> (Nicks c) else NicksOf s0 ch').
    apply NicksOf_set_Nicks. simpl. eauto.
  - intros n'. rewrite (ChannelsOf_lookup _ _ _ Hn).
    rewrite ChannelsOf_set_Channels by (simpl; eauto). done.
  - intros n'. by rewrite NickName_set_Channels.
  - intros ch'.
    change (ChanName (set_Nicks ch (<[n:=p]> (Nicks c))
                        (set_priv_heap (priv_heap s ++ [new_ChanPrivs]) s)) ch'
            = ChanName s ch').
    by rewrite ChanName_set_Nicks.
Qed.

Lemma indexed_frame s s' :
  nicks s' ⊆ nicks s → chans s' ⊆ chans s →
  (∀ n name, NickName s n = Some name → NickName s' n = Some name) →
  (∀ ch name, ChanName s ch = Some name → ChanName s' ch = Some name) →
  indexed s → indexed s'.
Proof.
  intros Hn Hc HN HC [I1 I2]. unfold GetNick, GetChannel in *. split.
  - intros k n H. apply HN, I1. by eapply lookup_weaken.
  - intros k ch H. apply HC, I2. by eapply lookup_weaken.
Qed.

Lemma privs_frame s s' :
  (∀ ch, NicksOf s' ch ⊆ NicksOf s ch) →
  (∀ n, ChannelsOf s' n ⊆ ChannelsOf s n) →
  priv_heap s' = priv_heap s →
  privs_unshared s → privs_unshared s'.
Proof.
  intros HN HC HP (P1 & P2 & P3). unfold privs_unshared. rewrite HP. split; [|split].
  - intros ch n p H. eapply P1. by eapply lookup_weaken.
  - intros n ch p H. eapply P2. by eapply lookup_weaken.
  - intros ch n ch' n' p H H'. eapply P3; by eapply lookup_weaken.
Qed.

Lemma privs_associate ch n s s' :
  associate ch n s = Ok s' → privs_unshared s → privs_unshared s'.
Proof.
  intros H (P1 & P2 & P3).
  destruct (associate_fields _ _ _ _ H) as (_ & _ & HN & HC & HP & _).
  set (p := length (priv_heap s)) in *.
  assert (Hlen : length (priv_heap s') = S p)
    by (rewrite HP, length_app; simpl; lia).
  assert (Hold : ∀ ch' n' q, NicksOf s' ch' !! n' = Some q →
                 (ch' = ch ∧ n' = n ∧ q = p) ∨
                 (NicksOf s ch' !! n' = Some q ∧ q < p ∧ ¬ (ch' = ch ∧ n' = n))).
  { intros ch' n' q. rewrite HN.
    destruct (decide (ch' = ch)) as [->|Hc].
    - destruct (decide (n' = n)) as [->|Hn].
      + rewrite lookup_insert_eq. intros [= <-]. by left.
      + rewrite lookup_insert_ne by done. intros Hq. right.
        split; [done|]. split; [by eapply P1 | by intros [_ ?]].
    - intros Hq. right. split; [done|]. split; [by eapply P1 | by intros [? _]]. }
  split; [|split].
  - intros ch' n' q Hq. rewrite Hlen.
    destruct (Hold _ _ _ Hq) as [(_ & _ & ->)|(_ & ? & _)]; lia.
  - intros n' ch' q. rewrite HC, Hlen.
    destruct (decide (n' = n)) as [->|Hn].
    + destruct (decide (ch' = ch)) as [->|Hc].
      * rewrite lookup_insert_eq. intros [= <-]. lia.
      * rewrite lookup_insert_ne by done. intros Hq. apply P2 in Hq. lia.
    + intros Hq. apply P2 in Hq. lia.
  - intros ch1 n1 ch2 n2 q H1 H2.
    destruct (Hold _ _ _ H1) as [(-> & -> & ->)|(H1' & L1 & _)],
             (Hold _ _ _ H2) as [(-> & -> & E)|(H2' & L2 & _)];
      try done; try lia.
    by eapply P3.
Qed.

Section more_runs.
Context (order : gmap ptr ptr → list ptr).

Lemma step_indexed op s s' :
  step order op s = Ok s' → indexed s → indexed s'.
Proof.
  intros H I.
  destruct op as [nick ident name host|c|ch n|n ch|ch n|n ch|n neu|ch|n];
    simpl in H.
  - simplify_eq. destruct I as [I1 I2]. split; [|done].
    unfold GetNick, NickName in *. simpl. intros k n.
    destruct (decide (k = nick)) as [->|Hk].
    + rewrite lookup_insert_eq. intros [= <-].
      rewrite lookup_app_r by lia. by rewrite Nat.sub_diag.
    + rewrite lookup_insert_ne by done. intros Hn. apply I1 in Hn.
      rewrite lookup_app_l; [done|].
      apply lookup_lt_is_Some. by destruct (nick_heap s !! n).
  - simplify_eq. destruct I as [I1 I2]. split; [done|].
    unfold GetChannel, ChanName in *. simpl. intros k ch.
    destruct (decide (k = c)) as [->|Hk].
    + rewrite lookup_insert_eq. intros [= <-].
      rewrite lookup_app_r by lia. by rewrite Nat.sub_diag.
    + rewrite lookup_insert_ne by done. intros Hn. apply I2 in Hn.
      rewrite lookup_app_l; [done|].
      apply lookup_lt_is_Some. by destruct (chan_heap s !! ch).
  - unfold Channel_AddNick in H.
    destruct (chan_heap s !! ch) as [c|]; [|done].
    case_bool_decide.
    + destruct (nick_heap s !! n); [|done]. by simplify_eq.
    + destruct (associate_fields _ _ _ _ H)
        as (_ & _ & _ & _ & _ & HN & HC & Hn & Hc & _).
      revert I. apply indexed_frame; rewrite ?Hn, ?Hc; try done.
      * intros n' nm. by rewrite HN.
      * intros ch' nm. by rewrite HC.
  - unfold Nick_AddChannel in H.
    destruct (nick_heap s !! n) as [nk|]; [|done].
    case_bool_decide.
    + destruct (chan_heap s !! ch); [|done]. by simplify_eq.
    + destruct (associate_fields _ _ _ _ H)
        as (_ & _ & _ & _ & _ & HN & HC & Hn & Hc & _).
      revert I. apply indexed_frame; rewrite ?Hn, ?Hc; try done.
      * intros n' nm. by rewrite HN.
      * intros ch' nm. by rewrite HC.
  - apply exec_cascade in H as [C _]. revert I.
    apply indexed_frame; try apply C.
    + intros n' nm. by rewrite (c_NickName _ _ C).
    + intros ch' nm. by rewrite (c_ChanName _ _ C).
  - apply exec_cascade in H as [C _]. revert I.
    apply indexed_frame; try apply C.
    + intros n' nm. by rewrite (c_NickName _ _ C).
    + intros ch' nm. by rewrite (c_ChanName _ _ C).
  - destruct (nick_heap s !! n) as [nk|] eqn:Hn;
      [|by unfold Nick_ReNick in H; rewrite Hn in H].
    rewrite (ReNick_Ok _ _ _ _ Hn) in H. simplify_eq.
    destruct I as [I1 I2]. split; [|done].
    unfold GetNick, NickName in *. simpl. intros k n'.
    destruct (decide (k = neu)) as [->|Hk].
    + rewrite lookup_insert_eq. intros [= <-].
      by rewrite list_lookup_alter_eq, Hn.
    + rewrite lookup_insert_ne by done.
      destruct (decide (k = n_Nick nk)) as [->|Hk'];
        [by rewrite lookup_delete_eq|].
      rewrite lookup_delete_ne by done. intros Hn'. apply I1 in Hn'.
      destruct (decide (n' = n)) as [->|Hne].
      * rewrite Hn in Hn'. simpl in Hn'. congruence.
      * by rewrite list_lookup_alter_ne.
  - apply exec_cascade in H as [C _]. revert I.
    apply indexed_frame; try apply C.
    + intros n' nm. by rewrite (c_NickName _ _ C).
    + intros ch' nm. by rewrite (c_ChanName _ _ C).
  - apply exec_cascade in H as [C _]. revert I.
    apply indexed_frame; try apply C.
    + intros n' nm. by rewrite (c_NickName _ _ C).
    + intros ch' nm. by rewrite (c_ChanName _ _ C).
Qed.

Lemma step_privs op s s' :
  step order op s = Ok s' → privs_unshared s → privs_unshared s'.
Proof.
  intros H P.
  destruct op as [nick ident name host|c|ch n|n ch|ch n|n ch|n neu|ch|n];
    simpl in H.
  - simplify_eq. revert P. apply privs_frame; try done.
    intros n.
    match goal with |- ?m ⊆ _ => replace m with (ChannelsOf s n) end;
      [reflexivity|]. symmetry. by apply lookup_snoc_default.
  - simplify_eq. revert P. apply privs_frame; try done.
    intros ch.
    match goal with |- ?m ⊆ _ => replace m with (NicksOf s ch) end;
      [reflexivity|]. symmetry. by apply lookup_snoc_default.
  - unfold Channel_AddNick in H.
    destruct (chan_heap s !! ch) as [c|]; [|done].
    case_bool_decide.
    + destruct (nick_heap s !! n); [|done]. by simplify_eq.
    + by eapply privs_associate.
  - unfold Nick_AddChannel in H.
    destruct (nick_heap s !! n) as [nk|]; [|done].
    case_bool_decide.
    + destruct (chan_heap s !! ch); [|done]. by simplify_eq.
    + by eapply privs_associate.
  - apply exec_cascade in H as [C _]. revert P. apply privs_frame; apply C.
  - apply exec_cascade in H as [C _]. revert P. apply privs_frame; apply C.
  - destruct (nick_heap s !! n) as [nk|] eqn:Hn;
      [|by unfold Nick_ReNick in H; rewrite Hn in H].
    rewrite (ReNick_Ok _ _ _ _ Hn) in H. simplify_eq.
    revert P. apply privs_frame; try done.
    intros n'. unfold ChannelsOf. simpl.
    destruct (decide (n' = n)) as [->|Hi].
    + by rewrite list_lookup_alter_eq, Hn.
    + by rewrite list_lookup_alter_ne.
  - apply exec_cascade in H as [C _]. revert P. apply privs_frame; apply C.
  - apply exec_cascade in H as [C _]. revert P. apply privs_frame; apply C.
Qed.

Lemma run_invariant (I : State → Prop) ops s s' :
  (∀ op s s', step order op s = Ok s' → I s → I s') →
  run order ops s = Ok s' → I s → I s'.
Proof.
  intros Hstep. revert s. induction ops as [|op ops IH]; intros s H Hs;
    simpl in H.
  - by simplify_eq.
  - destruct (step order op s) as [s1| |] eqn:E; simpl in H; try done.
    eapply IH; [done|]. by eapply Hstep.
Qed.

End more_runs.

Lemma indexed_New nick user name : indexed (New nick user name).
Proof.
  split.
  - unfold GetNick, NickName, New. simpl. intros k n.
    destruct (decide (k = nick)) as [->|Hk].
    + rewrite lookup_insert_eq. by intros [= <-].
    + rewrite lookup_insert_ne by done. by rewrite lookup_empty.
  - unfold GetChannel, New. simpl. intros k ch. by rewrite lookup_empty.
Qed.

Lemma privs_New nick user name : privs_unshared (New nick user name).
Proof.
  assert (HN : ∀ ch n, NicksOf (New nick user name) ch !! n = None).
  { intros ch n. unfold NicksOf, New. simpl. apply lookup_empty. }
  assert (HC : ∀ n ch, ChannelsOf (New nick user name) n !! ch = None).
  { intros n ch. unfold ChannelsOf, New. simpl.
    destruct n as [|n]; simpl; apply lookup_empty. }
  split; [|split]; intros *; rewrite ?HN, ?HC; done.
Qed.

(** ** Creating, joining, leaving and deleting: what a caller can rely on *)

(** X1: [NewNick] allocates a nick object that did not exist, files it
    under its name and returns it; the object has no channels; every
    other name, every other nick object and every channel is as before.
    A nick that was filed under the same name is not merged: it is still
    there, unchanged, but the name no longer leads to it. *)
Theorem NewNick_registers nick ident name host s :
  let s' := (NewNick nick ident name host s).1 in
  let n := (NewNick nick ident name host s).2 in
  nick_heap s !! n = None ∧
  GetNick nick s' = Some n ∧ NickName s' n = Some nick ∧
  ChannelsOf s' n = ∅ ∧
  (∀ k, k ≠ nick → GetNick k s' = GetNick k s) ∧
  (∀ n', n' ≠ n → nick_heap s' !! n' = nick_heap s !! n') ∧
  (∀ old, GetNick nick s = Some old → is_Some (nick_heap s !! old) →
          GetNick nick s' ≠ Some old) ∧
  chan_heap s' = chan_heap s ∧ chans s' = chans s ∧
  priv_heap s' = priv_heap s ∧ Me s' = Me s ∧ Err s' = Err s.
Proof.
  unfold GetNick, NickName, ChannelsOf. simpl.
  rewrite lookup_insert_eq. rewrite lookup_app_r by lia.
  rewrite Nat.sub_diag. simpl.
  repeat split.
  - by apply lookup_ge_None_2.
  - intros k Hk. by rewrite lookup_insert_ne.
  - intros n' Hn'. destruct (decide (n' < length (nick_heap s))).
    + by rewrite lookup_app_l.
    + rewrite (lookup_ge_None_2 (nick_heap s)) by lia.
      apply lookup_ge_None_2. rewrite length_app. simpl. lia.
  - intros old _ Hold [= E]. apply lookup_lt_is_Some in Hold. lia.
Qed.

(** X2: [NewChannel] allocates a channel object that did not exist,
    files it under its name and returns it; the channel has no members
    and no topic; every other name, every other channel object and every
    nick is as before, and a channel that was filed under the same name
    is left as it is but is no longer found. *)
Theorem NewChannel_registers c s :
  let s' := (NewChannel c s).1 in
  let ch := (NewChannel c s).2 in
  chan_heap s !! ch = None ∧
  GetChannel c s' = Some ch ∧ ChanName s' ch = Some c ∧
  NicksOf s' ch = ∅ ∧
  (∀ k, k ≠ c → GetChannel k s' = GetChannel k s) ∧
  (∀ ch', ch' ≠ ch → chan_heap s' !! ch' = chan_heap s !! ch') ∧
  (∀ old, GetChannel c s = Some old → is_Some (chan_heap s !! old) →
          GetChannel c s' ≠ Some old) ∧
  nick_heap s' = nick_heap s ∧ nicks s' = nicks s ∧
  priv_heap s' = priv_heap s ∧ Me s' = Me s ∧ Err s' = Err s.
Proof.
  unfold GetChannel, ChanName, NicksOf. simpl.
  rewrite lookup_insert_eq. rewrite lookup_app_r by lia.
  rewrite Nat.sub_diag. simpl.
  repeat split.
  - by apply lookup_ge_None_2.
  - intros k Hk. by rewrite lookup_insert_ne.
  - intros n' Hn'. destruct (decide (n' < length (chan_heap s))).
    + by rewrite lookup_app_l.
    + rewrite (lookup_ge_None_2 (chan_heap s)) by lia.
      apply lookup_ge_None_2. rewrite length_app. simpl. lia.
  - intros old _ Hold [= E]. apply lookup_lt_is_Some in Hold. lia.
Qed.

(** X5: joining a pair that neither side lists, from either side, gives
    the same state: both maps get an entry for the pair that points to
    one newly allocated record with no privilege set; no other entry,
    no older record, no index and no warning changes. *)
Theorem join_adds_fresh_record s ch n :
  is_Some (chan_heap s !! ch) → is_Some (nick_heap s !! n) →
  NicksOf s ch !! n = None → ChannelsOf s n !! ch = None →
  ∃ s', let p := length (priv_heap s) in
    Channel_AddNick ch n s = Ok s' ∧ Nick_AddChannel n ch s = Ok s' ∧
    NicksOf s' ch !! n = Some p ∧ ChannelsOf s' n !! ch = Some p ∧
    priv_heap s !! p = None ∧ priv_heap s' !! p = Some new_ChanPrivs ∧
    (∀ q, q ≠ p → priv_heap s' !! q = priv_heap s !! q) ∧
    (∀ ch' n', ¬ (ch' = ch ∧ n' = n) →
       NicksOf s' ch' !! n' = NicksOf s ch' !! n' ∧
       ChannelsOf s' n' !! ch' = ChannelsOf s n' !! ch') ∧
    nicks s' = nicks s ∧ chans s' = chans s ∧ Me s' = Me s ∧ Err s' = Err s.
Proof.
  intros [c Hc] [nk Hn] HN HC.
  destruct (associate ch n s) as [s'| |] eqn:E;
    try (by rewrite (associate_Ok _ _ _ _ _ Hc Hn) in E).
  exists s'. intros p.
  destruct (associate_fields _ _ _ _ E)
    as (_ & _ & HN' & HC' & HP & _ & _ & H1 & H2 & H3 & H4).
  fold p in HN', HC'.
  rewrite (NicksOf_lookup _ _ _ Hc) in HN. rewrite (ChannelsOf_lookup _ _ _ Hn) in HC.
  split; [|split].
  - unfold Channel_AddNick. rewrite Hc, bool_decide_eq_false_2; [done|].
    rewrite HN. by intros [? ?].
  - unfold Nick_AddChannel. rewrite Hn, bool_decide_eq_false_2; [done|].
    rewrite HC. by intros [? ?].
  - rewrite HN', HC', !decide_True, !lookup_insert_eq, HP by done.
    repeat split; try done.
    + by apply lookup_ge_None_2.
    + rewrite lookup_app_r by (unfold p; lia). by rewrite Nat.sub_diag.
    + intros q Hq. destruct (decide (q < p)).
      * by rewrite lookup_app_l.
      * rewrite (lookup_ge_None_2 (priv_heap s)) by (unfold p in *; lia).
        apply lookup_ge_None_2. rewrite length_app. simpl. unfold p in *. lia.
    + rewrite HN'. case_decide; [subst|done].
      rewrite lookup_insert_ne; [done|]. intros ->. by apply H.
    + rewrite HC'. case_decide; [subst|done].
      rewrite lookup_insert_ne; [done|]. intros ->. by apply H.
Qed.

(** X6: the two join methods test different sides.  When the channel
    lists the nick but the nick does not list the channel (what the
    local identity's leave creates), [Channel.AddNick] only warns and
    the nick stays outside, while [Nick.AddChannel] joins: both maps get
    an entry that points to one newly allocated record, and nothing is
    sent to the warning sink. *)
Theorem join_sides_differ_on_stale_entry s ch n p0 :
  is_Some (nick_heap s !! n) →
  NicksOf s ch !! n = Some p0 → ChannelsOf s n !! ch = None →
  ∃ s1 s2, let p := length (priv_heap s) in
    Channel_AddNick ch n s = Ok s1 ∧ graph s1 = graph s ∧ warned s s1 ∧
    Nick_AddChannel n ch s = Ok s2 ∧
    NicksOf s2 ch !! n = Some p ∧ ChannelsOf s2 n !! ch = Some p ∧
    priv_heap s !! p = None ∧ priv_heap s2 !! p = Some new_ChanPrivs ∧
    Err s2 = Err s.
Proof.
  intros [nk Hn] HN HC.
  pose proof (is_Some_NicksOf _ _ _ (mk_is_Some _ _ HN)) as [c Hc].
  destruct (associate ch n s) as [s2| |] eqn:E;
    try (by rewrite (associate_Ok _ _ _ _ _ Hc Hn) in E).
  exists (error (AddNick_warning (n_Nick nk) (ch_Name c)) s), s2. intros p.
  destruct (associate_fields _ _ _ _ E)
    as (_ & _ & HN' & HC' & HP & _ & _ & _ & _ & _ & HE).
  fold p in HN', HC'.
  rewrite (NicksOf_lookup _ _ _ Hc) in HN. rewrite (ChannelsOf_lookup _ _ _ Hn) in HC.
  split; [|split; [|split; [|split]]].
  - unfold Channel_AddNick. rewrite Hc, bool_decide_eq_true_2, Hn; eauto.
  - done.
  - by eexists.
  - unfold Nick_AddChannel. rewrite Hn, bool_decide_eq_false_2; [done|].
    rewrite HC. by intros [? ?].
  - rewrite HN', HC', !decide_True, !lookup_insert_eq, HP by done.
    repeat split; [by apply lookup_ge_None_2| |done].
    rewrite lookup_app_r by (unfold p; lia). by rewrite Nat.sub_diag.
Qed.

Lemma left_fields ch n s :
  is_Some (chan_heap s !! ch) → is_Some (nick_heap s !! n) →
  let s' := after_leave ch n s in
  (∀ ch', NicksOf s' ch' =
          if decide (ch' = ch) then delete n (NicksOf s ch) else NicksOf s ch') ∧
  (∀ n', ChannelsOf s' n' =
         if decide (n' = n) then delete ch (ChannelsOf s n)
         else ChannelsOf s n') ∧
  (∀ name, NickName s n = Some name →
     nicks s' = if decide (delete ch (ChannelsOf s n) = ∅)
                then delete name (nicks s) else nicks s) ∧
  (∀ n', NickName s' n' = NickName s n') ∧
  (∀ ch', ChanName s' ch' = ChanName s ch') ∧
  chans s' = chans s ∧ priv_heap s' = priv_heap s ∧ Me s' = Me s ∧
  Err s' = Err s.
Proof.
  intros Vc Vn. unfold after_leave.
  set (s1 := set_Nicks ch (delete n (NicksOf s ch)) s).
  set (s2 := set_Channels n (delete ch (ChannelsOf s n)) s1).
  assert (HN : ∀ ch', NicksOf s2 ch' =
                 if decide (ch' = ch) then delete n (NicksOf s ch)
                 else NicksOf s ch').
  { intros ch'. change (NicksOf s2 ch') with (NicksOf s1 ch').
    by apply NicksOf_set_Nicks. }
  assert (HC : ∀ n', ChannelsOf s2 n' =
                 if decide (n' = n) then delete ch (ChannelsOf s n)
                 else ChannelsOf s n').
  { intros n'. unfold s2. by rewrite ChannelsOf_set_Channels. }
  assert (HNn : ∀ n', NickName s2 n' = NickName s n')
    by (intros; unfold s2; by rewrite NickName_set_Channels).
  assert (HCn : ∀ ch', ChanName s2 ch' = ChanName s ch').
  { intros ch'. change (ChanName s2 ch') with (ChanName s1 ch').
    unfold s1. by rewrite ChanName_set_Nicks. }
  destruct Vn as [nk Hn].
  assert (Hname : NickName s n = Some (n_Nick nk))
    by (unfold NickName; by rewrite Hn).
  rewrite Hname, HC, decide_True by done.
  case_bool_decide as Hsz; simpl.
  - apply map_size_empty_inv in Hsz. repeat split; try done.
    intros name [= <-]. by rewrite decide_True.
  - repeat split; try done.
    intros name _. rewrite decide_False; [done|].
    intros He. by rewrite He, map_size_empty in Hsz.
Qed.

Section store_extras.
Context (order : gmap ptr ptr → list ptr).

(** X3: in every state that a sequence of operations reaches from the
    store of a fresh connection, a name found in the nickname index
    leads to a nick object that carries that name, and a name found in
    the channel index leads to a channel object that carries that
    name. *)
Theorem lookups_return_the_named_object ops nick user name s' :
  run order ops (New nick user name) = Ok s' →
  (∀ k n, GetNick k s' = Some n → NickName s' n = Some k) ∧
  (∀ k ch, GetChannel k s' = Some ch → ChanName s' ch = Some k).
Proof.
  intros H. apply (run_invariant order indexed _ _ _ (step_indexed order) H).
  apply indexed_New.
Qed.

(** X4: in every state that a sequence of operations reaches from the
    store of a fresh connection, every membership entry points to an
    allocated privilege record, and a record that one (channel, nick)
    pair uses is used by no other pair, seen from the channels or from
    the nicks. *)
Theorem privilege_records_are_not_shared ops nick user name s' :
  run order ops (New nick user name) = Ok s' →
  (∀ ch n p, NicksOf s' ch !! n = Some p → is_Some (priv_heap s' !! p)) ∧
  (∀ n ch p, ChannelsOf s' n !! ch = Some p → is_Some (priv_heap s' !! p)) ∧
  (∀ ch n ch' n' p,
     NicksOf s' ch !! n = Some p → NicksOf s' ch' !! n' = Some p →
     ch = ch' ∧ n = n') ∧
  (∀ ch n ch' n' p,
     ChannelsOf s' n !! ch = Some p → ChannelsOf s' n' !! ch' = Some p →
     ch = ch' ∧ n = n').
Proof.
  intros H.
  destruct (run_invariant order privs_unshared _ _ _ (step_privs order) H
              (privs_New _ _ _)) as (P1 & P2 & P3).
  destruct (run_maps order _ _ _ H (wf_New _ _ _)) as [_ [M1 _]].
  split; [|split; [|split]].
  - intros ch n p Hp. apply lookup_lt_is_Some. by eapply P1.
  - intros n ch p Hp. apply lookup_lt_is_Some. by eapply P2.
  - done.
  - intros ch n ch' n' p Hp Hp'. apply M1 in Hp, Hp'. by eapply P3.
Qed.

(** X7: for a nick other than the local identity that both maps list,
    [Channel.DelNick] and [Nick.DelChannel] return the same state: the
    two entries of the pair are gone, no other entry has changed, and
    the nick's name has left the nickname index exactly when that was
    its last channel. *)
Theorem leave_sides_agree s ch n :
  is_Some (NicksOf s ch !! n) → is_Some (ChannelsOf s n !! ch) →
  Me s ≠ Some n →
  ∃ s', Channel_DelNick order ch n s = Ok s' ∧
        Nick_DelChannel order n ch s = Ok s' ∧
        (∀ ch', NicksOf s' ch' =
                if decide (ch' = ch) then delete n (NicksOf s ch)
                else NicksOf s ch') ∧
        (∀ n', ChannelsOf s' n' =
               if decide (n' = n) then delete ch (ChannelsOf s n)
               else ChannelsOf s n') ∧
        (∀ name, NickName s n = Some name →
           nicks s' = if decide (delete ch (ChannelsOf s n) = ∅)
                      then delete name (nicks s) else nicks s) ∧
        chans s' = chans s ∧ priv_heap s' = priv_heap s ∧ Me s' = Me s ∧
        Err s' = Err s.
Proof.
  intros HN HC HM.
  pose proof (is_Some_NicksOf _ _ _ HN) as Vc.
  pose proof (is_Some_ChannelsOf _ _ _ HC) as Vn.
  exists (after_leave ch n s).
  split; [by apply DelNick_left|]. split; [by apply DelChannel_left|].
  destruct (left_fields ch n s Vc Vn)
    as (H1 & H2 & H3 & _ & _ & H4 & H5 & H6 & H7).
  by repeat split.
Qed.

(** X8: a nick other than the local identity that joins a channel and
    then leaves it, from either side, leaves every membership map as it
    was before the join; the one trace is the privilege record that the
    join allocated.  The nickname index is as before too, unless the
    nick had no channel before the join: then the leave removes its
    name from the index. *)
Theorem join_then_leave s ch n :
  is_Some (chan_heap s !! ch) → is_Some (nick_heap s !! n) →
  NicksOf s ch !! n = None → ChannelsOf s n !! ch = None →
  Me s ≠ Some n →
  ∃ s1 s2,
    Channel_AddNick ch n s = Ok s1 ∧
    Channel_DelNick order ch n s1 = Ok s2 ∧
    Nick_DelChannel order n ch s1 = Ok s2 ∧
    (∀ ch', NicksOf s2 ch' = NicksOf s ch') ∧
    (∀ n', ChannelsOf s2 n' = ChannelsOf s n') ∧
    priv_heap s2 = (priv_heap s ++ [new_ChanPrivs])%list ∧
    chans s2 = chans s ∧ Me s2 = Me s ∧ Err s2 = Err s ∧
    (∀ name, NickName s n = Some name →
       nicks s2 = if decide (ChannelsOf s n = ∅) then delete name (nicks s)
                  else nicks s).
Proof.
  intros Vc Vn HN HC HM.
  destruct Vc as [c Hc]. destruct Vn as [nk Hn].
  destruct (associate ch n s) as [s1| |] eqn:E;
    try (by rewrite (associate_Ok _ _ _ _ _ Hc Hn) in E).
  destruct (associate_fields _ _ _ _ E)
    as (_ & _ & HN1 & HC1 & HP1 & HNn & HCn & Hn1 & Hc1 & HM1 & HE1).
  assert (Vc1 : is_Some (chan_heap s1 !! ch)).
  { specialize (HCn ch). unfold ChanName in HCn. rewrite Hc in HCn.
    by destruct (chan_heap s1 !! ch). }
  assert (Vn1 : is_Some (nick_heap s1 !! n)).
  { specialize (HNn n). unfold NickName in HNn. rewrite Hn in HNn.
    by destruct (nick_heap s1 !! n). }
  assert (HN1' : is_Some (NicksOf s1 ch !! n))
    by (rewrite HN1, decide_True, lookup_insert_eq by done; by eexists).
  assert (HC1' : is_Some (ChannelsOf s1 n !! ch))
    by (rewrite HC1, decide_True, lookup_insert_eq by done; by eexists).
  destruct (left_fields ch n s1 Vc1 Vn1)
    as (H1 & H2 & H3 & _ & _ & H4 & H5 & H6 & H7).
  exists s1, (after_leave ch n s1).
  split.
  { unfold Channel_AddNick. rewrite Hc, bool_decide_eq_false_2; [done|].
    rewrite (NicksOf_lookup _ _ _ Hc) in HN. rewrite HN. by intros [? ?]. }
  split; [apply DelNick_left; by rewrite ?HM1|].
  split; [apply DelChannel_left; by rewrite ?HM1|].
  assert (EN : delete n (NicksOf s1 ch) = NicksOf s ch).
  { rewrite HN1, decide_True by done. by apply delete_insert_id. }
  assert (EC : delete ch (ChannelsOf s1 n) = ChannelsOf s n).
  { rewrite HC1, decide_True by done. by apply delete_insert_id. }
  repeat split.
  - intros ch'. rewrite H1. destruct (decide (ch' = ch)) as [->|Hne]; [done|].
    by rewrite HN1, decide_False.
  - intros n'. rewrite H2. destruct (decide (n' = n)) as [->|Hne]; [done|].
    by rewrite HC1, decide_False.
  - by rewrite H5.
  - by rewrite H4.
  - by rewrite H6.
  - by rewrite H7.
  - intros name Hname. rewrite (H3 name) by (by rewrite HNn).
    by rewrite EC, Hn1.
Qed.

(** X11: when a nick other than the local identity leaves its only
    channel, its name leaves the nickname index; if the same nick object
    then joins the channel again, it is a member on both sides but its
    name stays out of the index: joining never files a nick. *)
Theorem rejoin_after_last_leave s ch n p name :
  NicksOf s ch !! n = Some p → ChannelsOf s n = {[ch := p]} →
  NickName s n = Some name → Me s ≠ Some n →
  ∃ s1 s2,
    Channel_DelNick order ch n s = Ok s1 ∧ GetNick name s1 = None ∧
    Channel_AddNick ch n s1 = Ok s2 ∧ Nick_AddChannel n ch s1 = Ok s2 ∧
    is_Some (NicksOf s2 ch !! n) ∧ is_Some (ChannelsOf s2 n !! ch) ∧
    GetNick name s2 = None.
Proof.
  intros HN HC Hname HM.
  assert (HC' : ChannelsOf s n !! ch = Some p)
    by (rewrite HC; apply lookup_insert_eq).
  pose proof (is_Some_NicksOf _ _ _ (mk_is_Some _ _ HN)) as Vc.
  pose proof (is_Some_ChannelsOf _ _ _ (mk_is_Some _ _ HC')) as Vn.
  destruct (left_fields ch n s Vc Vn)
    as (H1 & H2 & H3 & H4 & H5 & _ & _ & H6 & _).
  set (s1 := after_leave ch n s) in *.
  assert (Hidx : GetNick name s1 = None).
  { unfold GetNick. rewrite (H3 name Hname), decide_True.
    - apply lookup_delete_eq.
    - rewrite HC. apply delete_singleton_eq. }
  assert (Vc1 : is_Some (chan_heap s1 !! ch)).
  { destruct Vc as [c Hc]. specialize (H5 ch). unfold ChanName in H5.
    rewrite Hc in H5. by destruct (chan_heap s1 !! ch). }
  assert (Vn1 : is_Some (nick_heap s1 !! n)).
  { specialize (H4 n). rewrite Hname in H4. unfold NickName in H4.
    by destruct (nick_heap s1 !! n). }
  destruct Vc1 as [c1 Hc1]. destruct Vn1 as [nk1 Hn1].
  assert (HN1 : Nicks c1 !! n = None).
  { rewrite <- (NicksOf_lookup _ _ _ Hc1), H1, decide_True by done.
    apply lookup_delete_eq. }
  assert (HC1 : Channels nk1 !! ch = None).
  { rewrite <- (ChannelsOf_lookup _ _ _ Hn1), H2, decide_True by done.
    apply lookup_delete_eq. }
  destruct (associate ch n s1) as [s2| |] eqn:E;
    try (by rewrite (associate_Ok _ _ _ _ _ Hc1 Hn1) in E).
  destruct (associate_fields _ _ _ _ E)
    as (_ & _ & HN2 & HC2 & _ & _ & _ & Hn2 & _).
  exists s1, s2. split; [by apply DelNick_left; eauto|].
  split; [done|]. split; [|split].
  - unfold Channel_AddNick. rewrite Hc1, bool_decide_eq_false_2; [done|].
    rewrite HN1. by intros [? ?].
  - unfold Nick_AddChannel. rewrite Hn1, bool_decide_eq_false_2; [done|].
    rewrite HC1. by intros [? ?].
  - rewrite HN2, HC2, !decide_True, !lookup_insert_eq by done.
    unfold GetNick in *. rewrite Hn2. eauto.
Qed.

End store_extras.

(** ** What a leave or delete call leaves alone *)

Lemma range_cascade_inv (R : State → State → Prop) cur body ks s0 s s' :
  (∀ s, R s s) →
  (∀ s1 s2 s3, cascade s1 s2 → R s1 s2 → R s2 s3 → R s1 s3) →
  (∀ k t t', cascade s0 t → is_Some (cur t !! k) → body k t = Ok t' →
             cascade t t' ∧ R t t') →
  cascade s0 s → range cur body ks s = Ok s' → R s s'.
Proof.
  intros Hrefl Htrans Hb. revert s.
  induction ks as [|k ks IH]; intros s C H; simpl in H.
  - simplify_eq. apply Hrefl.
  - case_bool_decide as Hk; [|by apply IH].
    destruct (body k s) as [s1| |] eqn:E; simpl in H; try done.
    destruct (Hb _ _ _ C Hk E) as [C1 R1].
    eapply Htrans; [done | done |]. apply IH; [|done].
    by eapply cascade_trans.
Qed.

Section frame_facts.
Context (Pe : ptr → ptr → Prop) (Pc Pn : ptr → Prop).
Context (order : gmap ptr ptr → list ptr).

Lemma frame_refl s : frame Pe Pc Pn s s.
Proof. by split. Qed.

Lemma frame_trans s1 s2 s3 :
  (∀ n, NickName s2 n = NickName s1 n) →
  (∀ ch, ChanName s2 ch = ChanName s1 ch) →
  frame Pe Pc Pn s1 s2 → frame Pe Pc Pn s2 s3 → frame Pe Pc Pn s1 s3.
Proof.
  intros HN HC A B. split.
  - intros ch n H. by rewrite (f_Nicks _ _ _ _ _ B), (f_Nicks _ _ _ _ _ A).
  - intros n ch H.
    by rewrite (f_Channels _ _ _ _ _ B), (f_Channels _ _ _ _ _ A).
  - intros k H. rewrite (f_chans _ _ _ _ _ B), (f_chans _ _ _ _ _ A); [done..|].
    intros ch. rewrite HC. apply H.
  - intros k H. rewrite (f_nicks _ _ _ _ _ B), (f_nicks _ _ _ _ _ A); [done..|].
    intros n. rewrite HN. apply H.
Qed.

Lemma frame_cascade_trans s1 s2 s3 :
  cascade s1 s2 → frame Pe Pc Pn s1 s2 → frame Pe Pc Pn s2 s3 →
  frame Pe Pc Pn s1 s3.
Proof. intros C. apply frame_trans; apply C. Qed.

Lemma frame_delete_member s ch n :
  is_Some (chan_heap s !! ch) → Pe ch n →
  frame Pe Pc Pn s (set_Nicks ch (delete n (NicksOf s ch)) s).
Proof.
  intros Vc HP. split; try done.
  intros ch' n' Hn'. rewrite NicksOf_set_Nicks by done.
  case_decide; [subst|done]. rewrite lookup_delete_ne; [done|].
  by intros ->.
Qed.

Lemma frame_delete_channel s n ch :
  is_Some (nick_heap s !! n) → Pe ch n →
  frame Pe Pc Pn s (set_Channels n (delete ch (ChannelsOf s n)) s).
Proof.
  intros Vn HP. split; try done.
  intros n' ch' Hn'. rewrite ChannelsOf_set_Channels by done.
  case_decide; [subst|done]. rewrite lookup_delete_ne; [done|].
  by intros ->.
Qed.

Lemma frame_delete_chans s ch name :
  Pc ch → ChanName s ch = Some name →
  frame Pe Pc Pn s (set_chans (delete name (chans s)) s).
Proof.
  intros HP Hname. split; try done.
  intros k Hk. simpl. apply lookup_delete_ne. intros ->. by eapply Hk.
Qed.

Lemma frame_delete_nicks s n name :
  Pn n → NickName s n = Some name →
  frame Pe Pc Pn s (set_nicks (delete name (nicks s)) s).
Proof.
  intros HP Hname. split; try done.
  intros k Hk. simpl. apply lookup_delete_ne. intros ->. by eapply Hk.
Qed.

Lemma exec_frame fuel call s s' :
  exec order fuel call s = Ok s' → allowed Pe Pc Pn call s →
  frame Pe Pc Pn s s'.
Proof.
  revert call s s'.
  induction fuel as [|fuel IH]; intros call s s' H A; [done|].
  destruct call as [ch n|n ch|ch|n]; simpl in H, A.
  - (* DelNick *)
    destruct A as (A1 & A2 & A3).
    destruct (chan_heap s !! ch) as [c|] eqn:Hc; [|done].
    case_bool_decide as Hin; [|simplify_eq; apply frame_refl].
    destruct (nick_heap s !! n) as [nk|] eqn:Hn; [|done].
    case_bool_decide as HM.
    + apply IH in H; [done|]. simpl. by apply A3.
    + rewrite <- (NicksOf_lookup _ _ _ Hc) in H.
      eapply frame_trans; [| |by apply frame_delete_member; eauto|].
      * done.
      * intros ch'. apply ChanName_set_Nicks.
      * apply (IH _ _ _ H). simpl. split; [done|]. split; [done|].
        intros HM'. done.
  - (* DelChannel *)
    destruct A as (A1 & A2 & A3).
    destruct (nick_heap s !! n) as [nk|] eqn:Hn; [|done].
    case_bool_decide as Hin; [|simplify_eq; apply frame_refl].
    rewrite <- (ChannelsOf_lookup _ _ _ Hn) in H.
    destruct (exec order fuel (DelNick ch n) _) as [s2| |] eqn:E1;
      simpl in H; try done.
    pose proof E1 as C1. apply exec_cascade in C1 as [C1 _].
    apply IH in E1; [|by simpl].
    eapply frame_trans; [| |by apply frame_delete_channel; eauto|].
    { intros n'. apply NickName_set_Channels. }
    { done. }
    eapply frame_cascade_trans; [done | done |].
    case_bool_decide as Hsz; [|simplify_eq; apply frame_refl].
    apply (IH _ _ _ H). simpl. intros HM.
    split; [apply A2; intros HM'; apply HM; rewrite (c_Me _ _ C1); exact HM'|].
    intros ch' [x Hx]. apply map_size_empty_inv in Hsz.
    by rewrite Hsz, lookup_empty in Hx.
  - (* Channel.Delete *)
    destruct A as (A1 & A2).
    destruct (chan_heap s !! ch) as [c|] eqn:Hc; [|done].
    destruct (range _ _ _ s) as [s1| |] eqn:E1; simpl in H; try done.
    destruct (ChanName s1 ch) as [name|] eqn:Hname; [|done]. simplify_eq.
    pose proof E1 as C1. apply range_cascade in C1;
      [|intros k t t' Hk; by apply exec_cascade in Hk as [? _]].
    eapply frame_cascade_trans; [done| |by eapply frame_delete_chans].
    eapply (range_cascade_inv _ _ _ _ s); [apply frame_refl| | |
      apply cascade_refl|done].
    + apply frame_cascade_trans.
    + intros k t t' Ct Hk Ek. split; [by apply exec_cascade in Ek as [? _]|].
      apply (IH _ _ _ Ek). simpl. rewrite (c_Me _ _ Ct).
      assert (Hsub : ∀ n', is_Some (NicksOf t ch !! n') →
                           is_Some (NicksOf s ch !! n')).
      { intros n' Hn'. eapply lookup_weaken_is_Some; [done|].
        apply (c_Nicks _ _ Ct). }
      destruct (A2 k (Hsub _ Hk)) as [B1 B2].
      split; [done|]. split; [done|]. intros _. split; [done|].
      intros n' Hn'. by apply A2, Hsub.
  - (* Nick.Delete *)
    destruct (nick_heap s !! n) as [nk|] eqn:Hn; [|done].
    case_bool_decide as HM; [simplify_eq; apply frame_refl|].
    destruct (A HM) as [A1 A2].
    destruct (range _ _ _ s) as [s1| |] eqn:E1; simpl in H; try done.
    destruct (NickName s1 n) as [name|] eqn:Hname; [|done]. simplify_eq.
    pose proof E1 as C1. apply range_cascade in C1;
      [|intros k t t' Hk; by apply exec_cascade in Hk as [? _]].
    eapply frame_cascade_trans; [done| |by eapply frame_delete_nicks].
    eapply (range_cascade_inv _ _ _ _ s); [apply frame_refl| | |
      apply cascade_refl|done].
    + apply frame_cascade_trans.
    + intros k t t' Ct Hk Ek. split; [by apply exec_cascade in Ek as [? _]|].
      apply (IH _ _ _ Ek). simpl. rewrite (c_Me _ _ Ct).
      split; [|split; [done|done]].
      apply A2. eapply lookup_weaken_is_Some; [done|].
      apply (c_Channels _ _ Ct).
Qed.

End frame_facts.

(** ** Deleting a nick, deleting a channel *)

Section delete.
Context (order : gmap ptr ptr → list ptr).

Lemma range_channels fuel n ks s0 s s1 :
  mirrored_but_Me s0 → cascade s0 s → Me s0 ≠ Some n →
  range (λ s, ChannelsOf s n) (λ ch, exec order fuel (DelNick ch n)) ks s
    = Ok s1 →
  ∀ ch, ch ∈ ks → ChannelsOf s1 n !! ch = None.
Proof.
  intros M0 C HM. revert s C.
  induction ks as [|k ks IH]; intros s C H ch Hch.
  { by apply elem_of_nil in Hch. }
  simpl in H. case_bool_decide as Hk.
  - destruct (exec order fuel (DelNick k n) s) as [s2| |] eqn:E;
      simpl in H; try done.
    pose proof E as E'. apply exec_cascade in E' as [C2 P2]. simpl in P2.
    assert (C02 : cascade s0 s2) by (by eapply cascade_trans).
    apply elem_of_cons in Hch as [->|Hch]; [|by eapply (IH s2)].
    destruct P2 as [P2|P2]; [by rewrite (c_Me _ _ C) in P2|].
    destruct (mirrored_cascade _ _ C02 M0) as [M1 _].
    eapply lookup_weaken_None.
    + destruct (ChannelsOf s2 n !! k) as [x|] eqn:Hx; [|done].
      apply M1 in Hx. congruence.
    + eapply c_Channels, range_cascade; [|done].
      intros k' t t' Hk'. by apply exec_cascade in Hk' as [? _].
  - apply elem_of_cons in Hch as [->|Hch]; [|by eapply (IH s)].
    eapply lookup_weaken_None.
    + by apply eq_None_not_Some.
    + eapply c_Channels, range_cascade; [|done].
      intros k' t t' Hk'. by apply exec_cascade in Hk' as [? _].
Qed.

Lemma NickDelete_channels fuel n s s' :
  (∀ m, order m ≡ₚ keys m) → mirrored_but_Me s → Me s ≠ Some n →
  exec order fuel (NickDelete n) s = Ok s' → ChannelsOf s' n = ∅.
Proof.
  intros Hord M HM H. destruct fuel as [|fuel]; [done|]. simpl in H.
  destruct (nick_heap s !! n) as [nk|] eqn:Hn; [|done].
  rewrite bool_decide_eq_false_2 in H by done.
  destruct (range _ _ _ s) as [s1| |] eqn:E1; simpl in H; try done.
  destruct (NickName s1 n) as [name|]; [|done]. simplify_eq.
  change (ChannelsOf s1 n = ∅).
  apply map_empty. intros ch.
  destruct (ChannelsOf s1 n !! ch) as [x|] eqn:Hx; [|done].
  rewrite (range_channels _ _ _ s s s1 M (cascade_refl s) HM E1) in Hx; [done|].
  rewrite Hord. apply elem_of_keys.
  rewrite <- (ChannelsOf_lookup _ _ _ Hn).
  eapply lookup_weaken_is_Some; [by eexists|].
  eapply c_Channels, range_cascade; [|done].
  intros k' t t' Hk'. by apply exec_cascade in Hk' as [? _].
Qed.

(** X9: [Nick.Delete] on a nick other than the local identity, in a
    store that keeps the mirroring the code maintains: the call returns,
    the nick is left with no channel, no channel lists it any more, and
    its name is gone from the nickname index.  Nothing else changes:
    every other nick keeps its channels, every channel keeps its other
    members, every other name stays in the nickname index, and the
    channel index, the privilege records and the warning sink are as
    before. *)
Theorem Nick_Delete_disassociates s n name :
  (∀ m, order m ≡ₚ keys m) → wf s → mirrored_but_Me s →
  NickName s n = Some name → Me s ≠ Some n →
  ∃ s', Nick_Delete order n s = Ok s' ∧
        ChannelsOf s' n = ∅ ∧ (∀ ch, NicksOf s' ch !! n = None) ∧
        GetNick name s' = None ∧
        (∀ n', n' ≠ n → ChannelsOf s' n' = ChannelsOf s n') ∧
        (∀ ch n', n' ≠ n → NicksOf s' ch !! n' = NicksOf s ch !! n') ∧
        (∀ k, k ≠ name → GetNick k s' = GetNick k s) ∧
        chans s' = chans s ∧ priv_heap s' = priv_heap s ∧ Err s' = Err s.
Proof.
  intros Hord W M Hname HM.
  assert (V : valid_call (NickDelete n) s) by (by eapply NickName_lt).
  destruct (exec_returns order _ s W V) as (s' & E & C & P).
  exists s'. split; [done|].
  assert (He : ChannelsOf s' n = ∅) by (by eapply NickDelete_channels).
  destruct (mirrored_cascade _ _ C M) as [_ M2].
  assert (F : frame (λ _ n', n' = n) (λ _, False) (λ n', n' = n) s s').
  { eapply exec_frame; [done|]. simpl. done. }
  split; [done|]. split; [|split; [|split; [|split; [|split; [|split]]]]].
  - intros ch. destruct (NicksOf s' ch !! n) as [p|] eqn:Hp; [|done].
    apply M2 in Hp; [|by rewrite (c_Me _ _ C)].
    by rewrite He, lookup_empty in Hp.
  - destruct P as [P|P]; [done|]. by apply P.
  - intros n' Hn'. apply map_eq. intros ch.
    by apply (f_Channels _ _ _ _ _ F).
  - intros ch n' Hn'. by apply (f_Nicks _ _ _ _ _ F).
  - intros k Hk. apply (f_nicks _ _ _ _ _ F). intros n' ->. congruence.
  - apply map_eq. intros k. by apply (f_chans _ _ _ _ _ F).
  - split; apply C.
Qed.

(** X10: [Channel.Delete], in a store that keeps the mirroring the code
    maintains: the call returns, the channel's name is gone from the
    channel index, no nick lists the channel, and the channel lists
    nobody except the local identity, whose entry stays as it was.
    Nothing else changes in the maps: every other channel keeps its
    members and every nick keeps its other channels.  Every other name
    stays in the channel index, and a name leaves the nickname index
    only if a member other than the local identity carried it. *)
Theorem Channel_Delete_destroys s ch name :
  (∀ m, order m ≡ₚ keys m) → wf s → mirrored_but_Me s →
  ChanName s ch = Some name →
  ∃ s', Channel_Delete order ch s = Ok s' ∧
        GetChannel name s' = None ∧
        (∀ n, ChannelsOf s' n !! ch = None) ∧
        (∀ n, Me s ≠ Some n → NicksOf s' ch !! n = None) ∧
        (∀ me, Me s = Some me → NicksOf s' ch !! me = NicksOf s ch !! me) ∧
        (∀ ch' n, ch' ≠ ch →
           NicksOf s' ch' !! n = NicksOf s ch' !! n ∧
           ChannelsOf s' n !! ch' = ChannelsOf s n !! ch') ∧
        (∀ k, k ≠ name → GetChannel k s' = GetChannel k s) ∧
        (∀ k, (∀ n, is_Some (NicksOf s ch !! n) → Me s ≠ Some n →
                    NickName s n ≠ Some k) →
              GetNick k s' = GetNick k s) ∧
        priv_heap s' = priv_heap s ∧ Err s' = Err s.
Proof.
  intros Hord W M Hname.
  assert (V : valid_call (ChanDelete ch) s).
  { simpl. apply lookup_lt_is_Some. unfold ChanName in Hname.
    by destruct (chan_heap s !! ch). }
  destruct (exec_returns order _ s W V) as (s' & E & C & P).
  exists s'. split; [done|].
  destruct M as [M1 M2].
  destruct (mirrored_cascade _ _ C (conj M1 M2)) as [_ M2'].
  assert (F : frame (λ ch' _, ch' = ch) (λ ch', ch' = ch)
                (λ n', is_Some (NicksOf s ch !! n') ∧ Me s ≠ Some n') s s').
  { eapply exec_frame; [done|]. simpl. split; [done|].
    intros n' Hn'. split; [done|]. by intros. }
  assert (Hgone : ∀ n, ChannelsOf s' n !! ch = None).
  { intros n. destruct (ChannelsOf s n !! ch) as [p|] eqn:Hp.
    - apply M1 in Hp. eapply ChanDelete_members; [done|done|by eexists].
    - eapply lookup_weaken_None; [done|]. apply (c_Channels _ _ C). }
  split; [by apply P|]. split; [done|].
  split; [|split; [|split; [|split; [|split]]]].
  - intros n HM. destruct (NicksOf s' ch !! n) as [p|] eqn:Hp; [|done].
    apply M2' in Hp; [|by rewrite (c_Me _ _ C)]. by rewrite Hgone in Hp.
  - intros me HM. by apply (c_Me_stays _ _ C).
  - intros ch' n Hne. split.
    + by apply (f_Nicks _ _ _ _ _ F).
    + by apply (f_Channels _ _ _ _ _ F).
  - intros k Hk. apply (f_chans _ _ _ _ _ F). intros ch' ->. congruence.
  - intros k Hk. apply (f_nicks _ _ _ _ _ F). intros n [H1 H2]. by apply Hk.
  - split; apply C.
Qed.

End delete.

(** ** Nick modes, channel privileges and the reverse tables *)

(** X12: [NickMode.String] yields "No modes set" exactly for the record
    with no flag set, and otherwise "+" followed by the letters of the
    set flags in the order i, o, w, x, z; two different records never
    yield the same string. *)
Theorem NickMode_String_spec :
  (∀ nm, NickMode_String nm =
         if Invisible nm || Oper nm || WallOps nm || HiddenHost nm || SSL nm
         then "+" +:+ flag (Invisible nm) "i" +:+ flag (Oper nm) "o" +:+
              flag (WallOps nm) "w" +:+ flag (HiddenHost nm) "x" +:+
              flag (SSL nm) "z"
         else "No modes set") ∧
  (∀ nm nm', NickMode_String nm = NickMode_String nm' → nm = nm').
Proof.
  split.
  - intros [[] [] [] [] []]; vm_compute; reflexivity.
  - intros [a1 a2 a3 a4 a5] [b1 b2 b3 b4 b5].
    destruct a1, a2, a3, a4, a5, b1, b2, b3, b4, b5; vm_compute;
      intros H; try reflexivity; discriminate H.
Qed.

(** X13: [ChanPrivs.String] yields "No modes set" exactly for the record
    with no privilege set, and otherwise "+" followed by the letters of
    the set privileges in the order q, a, o, h, v; two different records
    never yield the same string. *)
Theorem ChanPrivs_String_spec :
  (∀ p, ChanPrivs_String p =
        if Owner p || Admin p || Op p || HalfOp p || Voice p
        then "+" +:+ flag (Owner p) "q" +:+ flag (Admin p) "a" +:+
             flag (Op p) "o" +:+ flag (HalfOp p) "h" +:+ flag (Voice p) "v"
        else "No modes set") ∧
  (∀ p p', ChanPrivs_String p = ChanPrivs_String p' → p = p').
Proof.
  split.
  - intros [[] [] [] [] []]; vm_compute; reflexivity.
  - intros [a1 a2 a3 a4 a5] [b1 b2 b3 b4 b5].
    destruct a1, a2, a3, a4, a5, b1, b2, b3, b4, b5; vm_compute;
      intros H; try reflexivity; discriminate H.
Qed.

Lemma reverse_snoc {K V} `{Countable V} (l : list (K * V)) k v :
  reverse (l ++ [(k, v)]) = <[v := k]> (reverse l).
Proof. unfold reverse. by rewrite foldl_app. Qed.

Lemma reverse_lookup_elem {K V} `{Countable V} (l : list (K * V)) k v :
  NoDup l.*2 → reverse l !! v = Some k ↔ (k, v) ∈ l.
Proof.
  induction l as [|[k0 v0] l IH] using rev_ind; intros Hnd.
  - unfold reverse. simpl. rewrite lookup_empty. split; [done|].
    by intros ?%elem_of_nil.
  - rewrite fmap_app in Hnd. apply NoDup_app in Hnd as (Hl & Hdis & _).
    rewrite reverse_snoc, elem_of_app, list_elem_of_singleton.
    destruct (decide (v = v0)) as [->|Hne].
    + rewrite lookup_insert_eq. split.
      * intros [= ->]. by right.
      * intros [Hin|Heq]; [|by simplify_eq]. exfalso.
        apply (Hdis v0); [|simpl; by left].
        apply list_elem_of_fmap. by exists (k, v0).
    + rewrite lookup_insert_ne by done. rewrite (IH Hl). split.
      * by left.
      * intros [?|Heq]; [done|]. by simplify_eq.
Qed.

Lemma reverse_lookup {K V} `{Countable K, Countable V}
    (m : gmap K V) (l : list (K * V)) k v :
  l ≡ₚ map_to_list m → NoDup (map_to_list m).*2 →
  reverse l !! v = Some k ↔ m !! k = Some v.
Proof.
  intros Hp Hnd. rewrite reverse_lookup_elem.
  - by rewrite Hp, elem_of_map_to_list.
  - by rewrite Hp.
Qed.

Section init_facts.
Context (order_ss : gmap string string → list (string * string)).
Context (order_sb : gmap string Ascii.ascii → list (string * Ascii.ascii)).

(** X14: whatever order the runtime visits the forward tables in, each
    reverse table that [init] builds is the exact inverse of its forward
    table: a mode character leads to a field name iff the field name
    leads to that character.  So looking a name up and then looking the
    character up gives the name back, and no two names share a
    character. *)
Theorem init_reverse_tables :
  (∀ m, order_ss m ≡ₚ map_to_list m) → (∀ m, order_sb m ≡ₚ map_to_list m) →
  (∀ k v, StringToChanMode order_ss !! v = Some k ↔
          ChanModeToString !! k = Some v) ∧
  (∀ k v, StringToNickMode order_ss !! v = Some k ↔
          NickModeToString !! k = Some v) ∧
  (∀ k v, StringToChanPriv order_ss !! v = Some k ↔
          ChanPrivToString !! k = Some v) ∧
  (∀ k v, ModeCharToChanPriv order_sb !! v = Some k ↔
          ChanPrivToModeChar !! k = Some v).
Proof.
  intros Hss Hsb.
  split; [|split; [|split]]; intros k v;
    unfold StringToChanMode, StringToNickMode, StringToChanPriv,
      ModeCharToChanPriv;
    (apply reverse_lookup;
     [done | apply (bool_decide_unpack _); vm_compute; exact I]).
Qed.

End init_facts.

(** ** Byte strings *)

Lemma take_drop_s n s : take_s n s +:+ drop_s n s = s.
Proof.
  revert s. induction n as [|n IH]; intros [|a s]; try done.
  change (String a (take_s n s +:+ drop_s n s) = String a s). by rewrite IH.
Qed.

Lemma length_take_s n s : n ≤ String.length s → String.length (take_s n s) = n.
Proof.
  revert s. induction n as [|n IH]; intros [|a s] H; simpl in *; try done;
    try lia.
  rewrite IH; lia.
Qed.

Lemma length_drop_s n s : String.length (drop_s n s) = String.length s - n.
Proof. revert s. induction n as [|n IH]; intros [|a s]; simpl; auto. Qed.

Lemma length_append (s t : string) :
  String.length (s +:+ t) = String.length s + String.length t.
Proof.
  induction s as [|a s IH]; [done|].
  change (S (String.length (s +:+ t)) = S (String.length s) + String.length t).
  by rewrite IH.
Qed.

Lemma append_assoc_s (s t u : string) : (s +:+ t) +:+ u = s +:+ (t +:+ u).
Proof.
  induction s as [|a s IH]; [done|].
  change (String a ((s +:+ t) +:+ u) = String a (s +:+ (t +:+ u))).
  by rewrite IH.
Qed.

Lemma drop_s_append (s t : string) : drop_s (String.length s) (s +:+ t) = t.
Proof. induction s as [|a s IH]; [by destruct t|done]. Qed.

Lemma take_s_append (s t : string) : take_s (String.length s) (s +:+ t) = s.
Proof.
  induction s as [|a s IH]; [by destruct t|].
  change (String a (take_s (String.length s) (s +:+ t)) = String a s).
  by rewrite IH.
Qed.

Lemma index_of_lt c s i : index_of c s = Some i → i < String.length s.
Proof.
  revert i. induction s as [|a s IH]; intros i H; simpl in *; [done|].
  case_decide; simplify_eq; [lia|].
  destruct (index_of c s) as [j|]; simplify_eq/=. specialize (IH _ eq_refl). lia.
Qed.

Lemma index_of_split c s i :
  index_of c s = Some i →
  s = take_s i s +:+ String c (drop_s (S i) s) ∧ index_of c (take_s i s) = None.
Proof.
  revert i. induction s as [|a s IH]; intros i H; [done|].
  simpl in H. case_decide as Ha.
  - injection H as <-. subst a. split; [by destruct s|done].
  - destruct (index_of c s) as [j|] eqn:E; simpl in H; [|done].
    injection H as <-. destruct (IH _ eq_refl) as [H1 H2]. split.
    + change (String a s = String a (take_s j s +:+ String c (drop_s (S j) s))).
      by rewrite <- H1.
    + change (index_of c (String a (take_s j s)) = None).
      simpl. rewrite decide_False by done. by rewrite H2.
Qed.

Lemma index_of_take_None c s n :
  index_of c s = None → index_of c (take_s n s) = None.
Proof.
  revert s. induction n as [|n IH]; intros [|a s] H; simpl in *; try done.
  case_decide; [done|].
  destruct (index_of c s) eqn:E; simplify_eq/=. by rewrite IH.
Qed.

Lemma index_of_append c (s t : string) :
  index_of c s = None → index_of c (s +:+ String c t) = Some (String.length s).
Proof.
  induction s as [|a s IH]; intros H.
  - simpl. by rewrite decide_True.
  - simpl in H. case_decide; [done|].
    destruct (index_of c s) eqn:E; simplify_eq/=.
    change (index_of c (String a (s +:+ String c t)) = Some (S (String.length s))).
    simpl. rewrite decide_False by done. by rewrite IH.
Qed.

Lemma index_of_append_None c (s t : string) :
  index_of c s = None → index_of c t = None → index_of c (s +:+ t) = None.
Proof.
  induction s as [|a s IH]; intros H Ht; [done|].
  simpl in H. case_decide; [done|].
  destruct (index_of c s) eqn:E; simplify_eq/=.
  change (index_of c (String a (s +:+ t)) = None).
  simpl. rewrite decide_False by done. by rewrite IH.
Qed.

Lemma HasPrefix_append (s p : string) :
  HasPrefix s p = true ↔ s = p +:+ drop_s (String.length p) s.
Proof.
  revert s. induction p as [|b p IH]; intros s.
  - simpl. by destruct s.
  - destruct s as [|a s]; simpl; [done|].
    rewrite andb_true_iff, bool_decide_eq_true, IH. split.
    + intros [-> H].
      change (String b s = String b (p +:+ drop_s (String.length p) s)).
      by rewrite <- H.
    + intros H.
      change (String a s = String b (p +:+ drop_s (String.length p) s)) in H.
      by simplify_eq.
Qed.

Lemma HasPrefix_length (s p : string) :
  HasPrefix s p = true → String.length p ≤ String.length s.
Proof.
  intros H. apply HasPrefix_append in H.
  apply (f_equal String.length) in H. rewrite length_append in H. lia.
Qed.

Lemma take_s_all n s : String.length s ≤ n → take_s n s = s.
Proof.
  revert s. induction n as [|n IH]; intros [|a s] H; simpl in *; try done;
    try lia.
  rewrite IH; [done|lia].
Qed.

Lemma slice_from_Ok s n :
  n ≤ String.length s → slice_from s n = Ok (drop_s n s).
Proof.
  intros H. unfold slice_from, slice. rewrite bool_decide_eq_true_2 by lia.
  f_equal. apply take_s_all. rewrite length_drop_s. lia.
Qed.

(** The cut that follows a [strings.Index] test. *)
Lemma cut_Ok c s :
  (let i := Index s c in
   if bool_decide (i > -1)%Z then slice s 0 (Z.to_nat i) else Ok s)
  = Ok (cut_at c s).
Proof.
  unfold Index, cut_at. destruct (index_of c s) as [i|] eqn:E; cbv zeta.
  - rewrite bool_decide_eq_true_2 by lia. rewrite Nat2Z.id.
    unfold slice. apply index_of_lt in E.
    rewrite bool_decide_eq_true_2 by lia. by rewrite Nat.sub_0_r.
  - by rewrite bool_decide_eq_false_2 by lia.
Qed.

Lemma cut_at_spec c s :
  index_of c (cut_at c s) = None ∧
  ∃ rest, s = cut_at c s +:+ rest ∧
          (rest = "" ∨ ∃ r, rest = String c r).
Proof.
  unfold cut_at. destruct (index_of c s) as [i|] eqn:E.
  - destruct (index_of_split _ _ _ E) as [H1 H2]. split; [done|].
    exists (String c (drop_s (S i) s)). split; [done|]. right. by eexists.
  - split; [done|]. exists "". split; [by rewrite append_empty_r | by left].
Qed.

Lemma Replace_newlines_spec s :
  index_of "010"%char (Replace_newlines s) = None ∧
  String.length (Replace_newlines s) = String.length s.
Proof.
  induction s as [|a s [IH1 IH2]]; [done|]. split.
  - change (index_of "010"%char
              (String (if decide (a = "010"%char) then " "%char else a)
                 (Replace_newlines s)) = None).
    simpl. rewrite IH1.
    destruct (decide (a = "010"%char)) as [->|Ha].
    + by rewrite decide_False.
    + by rewrite decide_False.
  - simpl. by rewrite IH2.
Qed.

Lemma index_of_cut_None d c s :
  index_of d s = None → index_of d (cut_at c s) = None.
Proof.
  intros H. unfold cut_at. destruct (index_of c s); [|done].
  by apply index_of_take_None.
Qed.

Lemma drop_s_append_S (s : string) c t :
  drop_s (S (String.length s)) (s +:+ String c t) = t.
Proof. induction s as [|a s IH]; [done|exact IH]. Qed.

(** ** The message handler *)

(** X15: [say] panics on an empty target and otherwise sends exactly one
    message: a PRIVMSG when the target begins with '#' or '&', a NOTICE
    when it does not.  The text sent is as long as the formatted text
    and holds no newline byte. *)
Theorem say_sends_one_line target formatted :
  ∃ text,
    index_of "010"%char text = None ∧
    String.length text = String.length formatted ∧
    say target formatted =
      if bool_decide (target = "") then Panic
      else if HasPrefix target "#" || HasPrefix target "&"
           then Ok (Privmsg target text)
           else Ok (Notice target text).
Proof.
  exists (Replace_newlines formatted).
  destruct (Replace_newlines_spec formatted) as [H1 H2].
  split; [done|]. split; [done|].
  destruct target as [|c t]; [done|].
  unfold say, isChannel. cbn [bind HasPrefix].
  replace (HasPrefix t "") with true by (by destruct t).
  rewrite !andb_true_r. rewrite (bool_decide_eq_false_2 (String c t = "")) by done.
  by destruct (bool_decide (c = "#"%char) || bool_decide (c = "&"%char)).
Qed.

Lemma video_of_cut text :
  HasPrefix text youtube_prefix = true →
  drop_s 31 text ≠ "" →
  video_of text = Ok (Some (cut_at "#" (cut_at "&" (drop_s 31 text)))).
Proof.
  intros HP Hne. unfold video_of. rewrite HP.
  rewrite slice_from_Ok by (apply HasPrefix_length in HP; exact HP).
  cbn [bind]. rewrite bool_decide_eq_true_2 by done.
  pose proof (cut_Ok "&" (drop_s 31 text)) as C1. cbv zeta in C1.
  cbv zeta. rewrite C1. cbn [bind].
  pose proof (cut_Ok "#" (cut_at "&" (drop_s 31 text))) as C2. cbv zeta in C2.
  rewrite C2. done.
Qed.


(** X16: cutting the video id out of a channel message never panics.
    An id is found exactly when the text begins with the watch address
    and goes on after it; the branch that slices at 27 is never taken.
    The id is the longest stretch after the address that holds neither
    '&' nor '#', and may be empty. *)
Theorem video_of_spec text :
  ∃ r, video_of text = Ok r ∧
    (r = None ↔ HasPrefix text youtube_prefix = false ∨ text = youtube_prefix) ∧
    ∀ v, r = Some v →
      index_of "&" v = None ∧ index_of "#" v = None ∧
      ∃ rest, text = youtube_prefix +:+ v +:+ rest ∧
              (rest = "" ∨ ∃ r', rest = String "&" r' ∨ rest = String "#" r').
Proof.
  destruct (HasPrefix text youtube_prefix) eqn:HP.
  - pose proof HP as HA. apply HasPrefix_append in HA.
    change (String.length youtube_prefix) with 31 in HA.
    pose proof (video_of_cut text HP) as VC.
    assert (VN : drop_s 31 text = "" → video_of text = Ok None).
    { intros E. unfold video_of. rewrite HP.
      rewrite slice_from_Ok by (apply HasPrefix_length in HP; exact HP).
      cbn [bind]. rewrite E. by rewrite bool_decide_eq_false_2 by (by intros []). }
    remember (drop_s 31 text) as r0 eqn:Hr0. clear Hr0.
    destruct (decide (r0 = "")) as [E|E].
    + exists None. split; [by apply VN|]. split; [|done].
      split; [|done]. intros _. right. rewrite HA, E.
      by rewrite append_empty_r.
    + exists (Some (cut_at "#" (cut_at "&" r0))).
      split; [by apply VC|]. split.
      * split; [done|]. intros [?|Ht]; [done|]. destruct E.
        rewrite Ht in HA at 1.
        apply (f_equal String.length) in HA. rewrite length_append in HA.
        destruct r0; [done|]. simpl in HA. lia.
      * intros v Hv. injection Hv as <-.
        destruct (cut_at_spec "&" r0) as (A1 & r1 & A2 & A3).
        destruct (cut_at_spec "#" (cut_at "&" r0)) as (B1 & r2 & B2 & B3).
        split; [by apply index_of_cut_None|]. split; [done|].
        exists (r2 +:+ r1). split.
        { rewrite <- (append_assoc_s _ r2 r1), <- B2, <- A2. exact HA. }
        destruct B3 as [->|[r ->]]; [|right; exists (r +:+ r1); by right].
        destruct A3 as [->|[r ->]]; [by left|right; exists r; by left].
  - exists None. split; [|split; [|done]].
    + unfold video_of. by rewrite HP.
    + split; [|done]. intros _. by left.
Qed.

Lemma commands_names name h :
  commands !! name = Some h → index_of " " name = None ∧ name ≠ "".
Proof.
  intros H. apply elem_of_map_to_list in H.
  assert (F : Forall (λ kv : string * Handlers.t,
                        index_of " " kv.1 = None ∧ kv.1 ≠ "")
                (map_to_list commands)).
  { apply (bool_decide_unpack _). vm_compute. exact I. }
  rewrite Forall_forall in F. exact (F _ H).
Qed.

Lemma command_first_word trigger nick text target w :
  HasPrefix text trigger = true →
  (∃ rest, Split2 text = w :: rest) →
  ∀ c name h, w = String c name → commands !! name = Some h →
  command trigger nick text target =
    Ok (Some {| d_handler := h; d_nick := nick;
                d_args := match Split2 text with
                          | _ :: args :: _ => args
                          | _ => ""
                          end;
                d_target := target |}).
Proof.
  intros HP [rest HS] c name h -> Hh. unfold command. rewrite HP, HS.
  cbn [negb]. destruct (commands_names _ _ Hh) as [_ Hne].
  rewrite bool_decide_eq_false_2
    by (destruct name; [done|simpl; lia]).
  rewrite slice_from_Ok by (simpl; lia). cbn [bind drop_s]. rewrite Hh.
  by destruct rest.
Qed.

(** X17: [command] never panics and makes at most one call.  It makes
    none when the text does not begin with the trigger.  When it calls
    a handler, the text is one byte, the name under which the handler
    is filed, and then either nothing (the handler gets the empty
    string) or a space and the handler's argument; the nick and the
    target are passed on. *)
Theorem command_dispatches trigger nick text target :
  ∃ r, command trigger nick text target = Ok r ∧
    (HasPrefix text trigger = false → r = None) ∧
    ∀ d, r = Some d →
      d_nick d = nick ∧ d_target d = target ∧
      ∃ c name,
        commands !! name = Some (d_handler d) ∧
        index_of " " (String c name) = None ∧
        (text = String c name ∧ d_args d = "" ∨
         text = String c name +:+ String " " (d_args d)).
Proof.
  unfold command. destruct (HasPrefix text trigger) eqn:HP; cbn [negb];
    [|by exists None].
  unfold Split2. destruct (index_of " " text) as [i|] eqn:E.
  - destruct (index_of_split _ _ _ E) as [H1 H2].
    case_bool_decide as HL; [by exists None|].
    rewrite slice_from_Ok by lia. cbn [bind].
    destruct (take_s i text) as [|c name] eqn:Hw; [simpl in HL; lia|].
    cbn [drop_s].
    destruct (commands !! name) as [h|] eqn:Hh; [|by exists None].
    eexists. split; [done|]. split; [done|]. intros d [= <-]. simpl.
    split; [done|]. split; [done|]. exists c, name.
    split; [done|]. split; [done|]. by right.
  - case_bool_decide as HL; [by exists None|].
    rewrite slice_from_Ok by lia. cbn [bind].
    destruct text as [|c name]; [simpl in HL; lia|]. cbn [drop_s].
    destruct (commands !! name) as [h|] eqn:Hh; [|by exists None].
    eexists. split; [done|]. split; [done|]. intros d [= <-]. simpl.
    split; [done|]. split; [done|]. exists c, name.
    split; [done|]. split; [done|]. by left.
Qed.

(** X18: a text made of one byte that is not a space, a name of the
    table, a space and an argument reaches the handler filed under that
    name with that argument, whenever the text begins with the trigger;
    without the space and the argument the handler gets the empty
    string.  Only one byte is dropped before the name, whatever the
    length of the trigger. *)
Theorem command_round_trip trigger nick c name h args target :
  commands !! name = Some h →
  c ≠ " "%char →
  (HasPrefix (String c name +:+ String " " args) trigger = true →
   command trigger nick (String c name +:+ String " " args) target =
     Ok (Some {| d_handler := h; d_nick := nick; d_args := args;
                 d_target := target |})) ∧
  (HasPrefix (String c name) trigger = true →
   command trigger nick (String c name) target =
     Ok (Some {| d_handler := h; d_nick := nick; d_args := "";
                 d_target := target |})).
Proof.
  intros Hh Hc. destruct (commands_names _ _ Hh) as [Hsp _].
  assert (Hw : index_of " " (String c name) = None).
  { simpl. rewrite decide_False by done. by rewrite Hsp. }
  split; intros HP.
  - pose proof (index_of_append " " (String c name) args Hw) as E.
    assert (HS : Split2 (String c name +:+ String " " args)
                 = [String c name; args]).
    { unfold Split2. rewrite E. f_equal.
      - apply take_s_append.
      - f_equal. apply drop_s_append_S. }
    rewrite (command_first_word _ _ _ _ (String c name) HP
               (ex_intro _ _ HS) c name h eq_refl Hh).
    by rewrite HS.
  - assert (HS : Split2 (String c name) = [String c name]).
    { unfold Split2. by rewrite Hw. }
    rewrite (command_first_word _ _ _ _ (String c name) HP
               (ex_intro _ _ HS) c name h eq_refl Hh).
    by rewrite HS.
Qed.

Lemma langPairs_loop_spec fuel args acc :
  String.length args < fuel →
  ∃ ws rest,
    langPairs_loop fuel args acc
      = Ok ((acc ++ (String.append "&langpair=" <$> ws))%list, rest) ∧
    Forall langpair ws ∧
    args = foldr (λ w r, w +:+ String " " r) rest ws ∧
    ¬ ∃ w r, langpair w ∧ rest = w +:+ String " " r.
Proof.
  revert args acc. induction fuel as [|fuel IH]; intros args acc Hf; [lia|].
  cbn [langPairs_loop]. unfold Split2.
  destruct (index_of " " args) as [i|] eqn:E.
  - destruct (index_of_split _ _ _ E) as [H1 H2].
    pose proof (index_of_lt _ _ _ E) as Hi.
    destruct (bool_decide (String.length (take_s i args) = 5) &&
              bool_decide (String.get 2 (take_s i args) = Some "|"%char))
      eqn:Hc.
    + apply andb_true_iff in Hc as [L1 L2].
      apply bool_decide_eq_true in L1, L2.
      destruct (IH (drop_s (S i) args)
                  (acc ++ ["&langpair=" +:+ take_s i args])%list)
        as (ws & rest & R1 & R2 & R3 & R4).
      { rewrite length_drop_s. lia. }
      exists (take_s i args :: ws), rest. split; [|split; [|split]].
      * rewrite R1. by rewrite <- app_assoc.
      * by constructor.
      * simpl. by rewrite <- R3.
      * done.
    + exists [], args. split; [by rewrite app_nil_r|].
      split; [done|]. split; [done|].
      intros (w & r & (W1 & W2 & W3) & Hr).
      assert (E' : index_of " " args = Some (String.length w)).
      { rewrite Hr. by apply index_of_append. }
      rewrite E in E'. injection E' as ->.
      assert (Hw : take_s (String.length w) args = w).
      { rewrite Hr. apply take_s_append. }
      rewrite Hw in Hc.
      rewrite !bool_decide_eq_true_2 in Hc by done. done.
  - exists [], args. split; [by rewrite app_nil_r|].
    split; [done|]. split; [done|].
    intros (w & r & (W1 & W2 & W3) & Hr).
    rewrite Hr, index_of_append in E by done. done.
Qed.

(** X19: the loop at the head of [translate] ends on every argument
    string.  It takes off the leading words that are five bytes long
    with '|' in the middle and are followed by a space, and turns each
    into "&langpair=" and the word, in order; what it leaves does not
    begin with such a word and a space, and the words taken, each with
    its space, followed by what is left, make up the argument. *)
Theorem langPairs_of_spec args :
  ∃ ws rest,
    langPairs_of args = Ok (String.append "&langpair=" <$> ws, rest) ∧
    Forall langpair ws ∧
    args = foldr (λ w r, w +:+ String " " r) rest ws ∧
    ¬ ∃ w r, langpair w ∧ rest = w +:+ String " " r.
Proof.
  destruct (langPairs_loop_spec (S (String.length args)) args [])
    as (ws & rest & H); [lia|].
  by exists ws, rest.
Qed.

Lemma alter_with_Host_lookup host k (h : list Nick) n :
  alter (with_Host host) k h !! n
  = (if decide (k = n) then with_Host host else id) <$> h !! n.
Proof.
  rewrite list_lookup_alter.
  repeat case_decide; subst; try done. by destruct (h !! n).
Qed.

Lemma handlePrivmsg_state line s s' acts :
  handlePrivmsg line s = Ok (s', acts) →
  s' = match GetNick (l_Nick line) s with
       | Some n => set_nick_heap
                     (alter (with_Host (l_Host line)) n (nick_heap s)) s
       | None => s
       end.
Proof.
  unfold handlePrivmsg. intros H.
  destruct (GetNick (l_Nick line) s) as [n|].
  - destruct (nick_heap s !! n); [|done]. cbn [bind] in H.
    destruct (l_Args line) as [|target rest]; [done|].
    destruct (isChannel target) as [[]| |]; cbn [bind] in H; try done.
    + destruct (video_of (l_Text line)); cbn [bind] in H; by simplify_eq.
    + repeat case_match; by simplify_eq.
  - cbn [bind] in H.
    destruct (l_Args line) as [|target rest]; [done|].
    destruct (isChannel target) as [[]| |]; cbn [bind] in H; try done.
    + destruct (video_of (l_Text line)); cbn [bind] in H; by simplify_eq.
    + repeat case_match; by simplify_eq.
Qed.

Lemma handlePrivmsg_names line s s' acts :
  handlePrivmsg line s = Ok (s', acts) →
  Me s' = Me s ∧ ∀ n, NickName s' n = NickName s n.
Proof.
  intros H. apply handlePrivmsg_state in H. subst s'.
  destruct (GetNick (l_Nick line) s) as [k|]; [|done]. split; [done|].
  intros n. unfold NickName. simpl. rewrite alter_with_Host_lookup.
  case_decide; by destruct (nick_heap s !! n).
Qed.

(** X20: when [handlePrivmsg] returns, the only thing it has changed in
    the store is the host of the nick whose name the line carries, if
    that name is in the index: the indices, the channels, the privilege
    records, [Me] and the error log are the same, and so are the name
    and the channel map of every nick. *)
Theorem handlePrivmsg_sets_host line s s' acts :
  handlePrivmsg line s = Ok (s', acts) →
  nicks s' = nicks s ∧ chans s' = chans s ∧ chan_heap s' = chan_heap s ∧
  priv_heap s' = priv_heap s ∧ Me s' = Me s ∧ Err s' = Err s ∧
  ∀ n,
    nick_heap s' !! n =
      (if decide (GetNick (l_Nick line) s = Some n)
       then with_Host (l_Host line) else id) <$> nick_heap s !! n ∧
    NickName s' n = NickName s n ∧
    ChannelsOf s' n = ChannelsOf s n.
Proof.
  intros H. apply handlePrivmsg_state in H. subst s'.
  destruct (GetNick (l_Nick line) s) as [k|]; simpl.
  - repeat (split; [done|]). intros n.
    unfold NickName, ChannelsOf. simpl.
    rewrite alter_with_Host_lookup.
    destruct (decide (k = n)) as [->|Hne].
    + rewrite decide_True by done. by destruct (nick_heap s !! n).
    + rewrite decide_False by congruence. by destruct (nick_heap s !! n).
  - repeat (split; [done|]). intros n. by destruct (nick_heap s !! n).
Qed.

(** X21: when [handlePrivmsg] returns, the line has a first argument
    that is not empty.  For an argument beginning with '#' or '&' the
    text goes to [command] with that channel as target, after a call
    of [youtube] when the text holds a video id.  Otherwise the text
    goes to [command] with the sender as target if the argument is the
    nick that [Me] had before the call, and nothing is called if it is
    another name. *)
Theorem handlePrivmsg_routes line s s' acts :
  handlePrivmsg line s = Ok (s', acts) →
  ∃ c t rest,
    l_Args line = String c t :: rest ∧
    if bool_decide (c = "#"%char) || bool_decide (c = "&"%char) then
      ∃ v, video_of (l_Text line) = Ok v ∧
        acts = (match v with
                | Some video => [Youtube (l_Nick line) video (String c t)]
                | None => []
                end ++
                [Command (l_Nick line) (l_Text line) (String c t)])%list
    else
      ∃ me, Me s = Some me ∧
        (NickName s me = Some (String c t) ∧
         acts = [Command (l_Nick line) (l_Text line) (l_Nick line)] ∨
         (∃ other, NickName s me = Some other ∧ other ≠ String c t) ∧
         acts = []).
Proof.
  intros H. pose proof (handlePrivmsg_names _ _ _ _ H) as [HMe Hn].
  pose proof (handlePrivmsg_state _ _ _ _ H) as Hs.
  unfold handlePrivmsg in H.
  assert (H' :
    match l_Args line with
    | [] => Panic
    | target :: _ =>
        b ← isChannel target;
        if b then
          v ← video_of (l_Text line);
          Ok (s',
              (match v with
               | Some video => [Youtube (l_Nick line) video target]
               | None => []
               end ++ [Command (l_Nick line) (l_Text line) target])%list)
        else
          match Me s' with
          | None => Panic
          | Some me =>
              match nick_heap s' !! me with
              | None => Panic
              | Some m =>
                  if bool_decide (target = n_Nick m) then
                    Ok (s', [Command (l_Nick line) (l_Text line) (l_Nick line)])
                  else Ok (s', [])
              end
          end
    end = Ok (s', acts)).
  { destruct (GetNick (l_Nick line) s) as [n|].
    - destruct (nick_heap s !! n); [|done]. cbn [bind] in H.
      by rewrite <- Hs in H.
    - cbn [bind] in H. by rewrite <- Hs in H. }
  clear H Hs.
  destruct (l_Args line) as [|[|c t] rest]; [done|done|].
  exists c, t, rest. split; [done|]. cbn [isChannel bind] in H'.
  destruct (bool_decide (c = "#"%char) || bool_decide (c = "&"%char)).
  - destruct (video_of (l_Text line)) as [v| |]; cbn [bind] in H'; [|done..].
    exists v. split; [done|]. by simplify_eq.
  - rewrite HMe in H'. destruct (Me s) as [me|]; [|done].
    exists me. split; [done|].
    rewrite <- (Hn me). unfold NickName.
    destruct (nick_heap s' !! me) as [m|]; [|done]. simpl.
    case_bool_decide as Ht; simplify_eq.
    + left. by rewrite Ht.
    + right. split; [|done]. by exists (n_Nick m).
Qed.


Lemma Sprintf_02u_length n : (n < 100)%N → String.length (Sprintf_02u n) = 2.
Proof.
  intros H. destruct n as [|p]; [done|].
  repeat (destruct p as [p|p|]; try lia; try reflexivity).
Qed.

(** X23: the duration that [youtube] shows is the number of seconds
    split into hours, minutes below 60 and seconds below 60, which add
    up to it again.  Minutes and seconds are always shown with two
    digits, and the hours, with their colon, only when there is at
    least one. *)
Theorem durationStr_spec secs :
  let h := (secs / 3600)%N in
  let m := ((secs / 60) mod 60)%N in
  let s := (secs mod 60)%N in
  durationStr secs =
    (if (h =? 0)%N then "" else Sprintf_u h +:+ ":") +:+
    Sprintf_02u m +:+ ":" +:+ Sprintf_02u s ∧
  String.length (Sprintf_02u m) = 2 ∧
  String.length (Sprintf_02u s) = 2 ∧
  (h * 3600 + m * 60 + s = secs)%N.
Proof.
  intros h m s.
  assert (Hh : (secs / 60 / 60 = h)%N).
  { unfold h. by rewrite N.Div0.div_div. }
  assert (Hm : (m < 60)%N) by (apply N.mod_lt; lia).
  assert (Hs : (s < 60)%N) by (apply N.mod_lt; lia).
  split; [|split; [|split]].
  - unfold durationStr. cbv zeta. rewrite Hh. fold m s.
    destruct (N.eqb_spec h 0) as [->|Hne]; [done|].
    replace (0 <? h)%N with true by (symmetry; apply N.ltb_lt; lia).
    by rewrite !append_assoc_s.
  - apply Sprintf_02u_length. lia.
  - apply Sprintf_02u_length. lia.
  - pose proof (N.div_mod secs 60 ltac:(lia)) as D1.
    pose proof (N.div_mod (secs / 60) 60 ltac:(lia)) as D2.
    rewrite Hh in D2. fold m in D2. fold s in D1. lia.
Qed.

(** ** Further theorems at work *)

Lemma busy_mirrored : mirrored_but_Me busy.
Proof. exact (proj2 (run_maps keys _ _ _ busy_run (wf_New _ _ _))). Qed.


(** "me" joins the empty channel "#c". *)
Lemma join_adds_fresh_record_lonely :
  ∃ s', Channel_AddNick 0 0 lonely = Ok s' ∧
        Nick_AddChannel 0 0 lonely = Ok s' ∧
        NicksOf s' 0 !! 0 = Some 0 ∧ ChannelsOf s' 0 !! 0 = Some 0 ∧
        priv_heap s' !! 0 = Some new_ChanPrivs.
Proof.
  destruct (join_adds_fresh_record lonely 0 0)
    as (s' & H1 & H2 & H3 & H4 & _ & H6 & _).
  - by eexists.
  - by eexists.
  - vm_compute. reflexivity.
  - vm_compute. reflexivity.
  - by exists s'.
Defined.

(** "me" comes back to the channel it has left. *)
Lemma join_sides_differ_on_stale_entry_me :
  ∃ s1 s2, Channel_AddNick 0 0 stale = Ok s1 ∧ graph s1 = graph stale ∧
           Nick_AddChannel 0 0 stale = Ok s2 ∧
           ChannelsOf s2 0 !! 0 = Some 1 ∧ Err s2 = Err stale.
Proof.
  destruct (join_sides_differ_on_stale_entry stale 0 0 0)
    as (s1 & s2 & H1 & H2 & _ & H4 & _ & H6 & _ & _ & H9).
  - by eexists.
  - vm_compute. reflexivity.
  - vm_compute. reflexivity.
  - by exists s1, s2.
Defined.

(** The indices of [busy] lead to objects with the right names. *)
Lemma lookups_return_the_named_object_busy :
  run keys three_join fresh = Ok busy ∧
  (∀ k n, GetNick k busy = Some n → NickName busy n = Some k) ∧
  (∀ k ch, GetChannel k busy = Some ch → ChanName busy ch = Some k).
Proof.
  split; [exact busy_run|].
  exact (lookups_return_the_named_object keys three_join "me" "user" "name"
           busy busy_run).
Defined.

(** The three memberships of [busy] have a record each. *)
Lemma privilege_records_are_not_shared_busy :
  run keys three_join fresh = Ok busy ∧
  ∀ ch n ch' n' p,
    NicksOf busy ch !! n = Some p → NicksOf busy ch' !! n' = Some p →
    ch = ch' ∧ n = n'.
Proof.
  split; [exact busy_run|].
  exact (proj1 (proj2 (proj2
           (privilege_records_are_not_shared keys three_join "me" "user" "name"
              busy busy_run)))).
Defined.

(** "a" leaves "#c", its only channel. *)
Lemma leave_sides_agree_busy :
  ∃ s', Channel_DelNick keys 0 1 busy = Ok s' ∧
        Nick_DelChannel keys 1 0 busy = Ok s' ∧
        priv_heap s' = priv_heap busy.
Proof.
  destruct (leave_sides_agree keys busy 0 1)
    as (s' & H1 & H2 & _ & _ & _ & _ & H7 & _).
  - vm_compute. by eexists.
  - vm_compute. by eexists.
  - vm_compute. discriminate.
  - by exists s'.
Defined.

(** "a" joins "#c" and leaves it again. *)
Lemma join_then_leave_strangers :
  ∃ s1 s2, Channel_AddNick 0 1 strangers = Ok s1 ∧
           Channel_DelNick keys 0 1 s1 = Ok s2 ∧
           Nick_DelChannel keys 1 0 s1 = Ok s2 ∧
           (∀ ch', NicksOf s2 ch' = NicksOf strangers ch') ∧
           (∀ n', ChannelsOf s2 n' = ChannelsOf strangers n').
Proof.
  destruct (join_then_leave keys strangers 0 1)
    as (s1 & s2 & H1 & H2 & H3 & H4 & H5 & _).
  - by eexists.
  - by eexists.
  - vm_compute. reflexivity.
  - vm_compute. reflexivity.
  - vm_compute. discriminate.
  - by exists s1, s2.
Defined.

(** "a" leaves "#c" and joins it again. *)
Lemma rejoin_after_last_leave_busy :
  ∃ s1 s2, Channel_DelNick keys 0 1 busy = Ok s1 ∧
           Channel_AddNick 0 1 s1 = Ok s2 ∧
           is_Some (ChannelsOf s2 1 !! 0) ∧ GetNick "a" s2 = None.
Proof.
  destruct (rejoin_after_last_leave keys busy 0 1 1 "a")
    as (s1 & s2 & H1 & _ & H3 & _ & _ & H6 & H7).
  - vm_compute. reflexivity.
  - vm_compute. reflexivity.
  - vm_compute. reflexivity.
  - vm_compute. discriminate.
  - by exists s1, s2.
Defined.

(** "a" is deleted while it is in "#c". *)
Lemma Nick_Delete_disassociates_busy :
  ∃ s', Nick_Delete keys 1 busy = Ok s' ∧
        ChannelsOf s' 1 = ∅ ∧ NicksOf s' 0 !! 1 = None ∧
        GetNick "a" s' = None ∧ GetNick "b" s' = GetNick "b" busy.
Proof.
  destruct (Nick_Delete_disassociates keys busy 1 "a" keys_order busy_wf
              busy_mirrored)
    as (s' & H1 & H2 & H3 & H4 & _ & _ & H7 & _).
  - vm_compute. reflexivity.
  - vm_compute. discriminate.
  - exists s'. repeat split; try done. by apply H7.
Defined.

(** "#c" is deleted with its three members. *)
Lemma Channel_Delete_destroys_busy :
  ∃ s', Channel_Delete keys 0 busy = Ok s' ∧
        GetChannel "#c" s' = None ∧
        ChannelsOf s' 1 !! 0 = None ∧ NicksOf s' 0 !! 1 = None ∧
        NicksOf s' 0 !! 0 = NicksOf busy 0 !! 0.
Proof.
  destruct (Channel_Delete_destroys keys busy 0 "#c" keys_order busy_wf
              busy_mirrored)
    as (s' & H1 & H2 & H3 & H4 & H5 & _).
  - vm_compute. reflexivity.
  - exists s'. repeat split; try done.
    + apply H4. vm_compute. discriminate.
    + apply H5. vm_compute. reflexivity.
Defined.

(** The reverse tables, built in the order of [map_to_list]. *)
Lemma init_reverse_tables_listed :
  StringToChanMode map_to_list !! "k" = Some "Key" ∧
  ModeCharToChanPriv map_to_list !! "@"%char = Some "Op".
Proof.
  destruct (init_reverse_tables map_to_list map_to_list
              (λ _, reflexivity _) (λ _, reflexivity _))
    as (H1 & _ & _ & H4).
  split; [apply H1|apply H4]; vm_compute; reflexivity.
Defined.

(** "!tr en|fr hello" with the trigger "!". *)
Lemma command_round_trip_tr :
  command "!" "a" "!tr en|fr hello" "#c" =
    Ok (Some {| d_handler := Handlers.translate; d_nick := "a";
                d_args := "en|fr hello"; d_target := "#c" |}).
Proof.
  apply (proj1 (command_round_trip "!" "a" "!" "tr" Handlers.translate
                  "en|fr hello" "#c" eq_refl ltac:(discriminate))).
  reflexivity.
Defined.

(** "a" speaks in "#c". *)
Lemma handlePrivmsg_sets_host_busy :
  ∃ s' acts, handlePrivmsg to_channel busy = Ok (s', acts) ∧
             nicks s' = nicks busy ∧ Me s' = Me busy ∧
             ChannelsOf s' 1 = ChannelsOf busy 1.
Proof.
  destruct (handlePrivmsg to_channel busy) as [[s' acts]| |] eqn:E;
    [|vm_compute in E; discriminate..].
  destruct (handlePrivmsg_sets_host to_channel busy s' acts E)
    as (H1 & _ & _ & _ & H5 & _ & H7).
  exists s', acts. repeat split; try done. apply H7.
Defined.

(** "a" speaks to "me". *)
Lemma handlePrivmsg_routes_to_me :
  ∃ s' acts c t rest,
    handlePrivmsg to_me busy = Ok (s', acts) ∧
    l_Args to_me = String c t :: rest.
Proof.
  destruct (handlePrivmsg to_me busy) as [[s' acts]| |] eqn:E;
    [|vm_compute in E; discriminate..].
  destruct (handlePrivmsg_routes to_me busy s' acts E) as (c & t & rest & H & _).
  by exists s', acts, c, t, rest.
Defined.


